(** * Invoice text extraction: [netlify/functions/export_csv_zip.js]

    A shallow embedding of the invoice parser (field extractors, table
    locator, row parser, CSV encoder and request handler) together with
    the properties its specification states about it.

    JavaScript strings are sequences of UTF-16 code units; they are
    modelled as lists of [N].  Regular expressions are embedded as syntax
    trees run by a backtracking matcher that follows the ECMAScript
    semantics of the constructs the source uses (leftmost match, greedy
    quantifiers, ordered alternation, numbered captures, [^], [$], [\b]). *)

From Stdlib Require Import Ascii String.
From Stdlib Require Import List Bool Arith NArith ZArith QArith Lia.
From Stdlib Require Import DecimalString Sorted.
Import ListNotations.

Set Implicit Arguments.
Close Scope Q_scope.

(* ================================================================== *)
(** ** Strings *)

Module JsString.

Definition char := N.
Definition jsstring := list char.

(** A literal of the source (ASCII) as code units. *)
Definition lit (s : string) : jsstring :=
  map N_of_ascii (list_ascii_of_string s).

Fixpoint eqs (a b : jsstring) : bool :=
  match a, b with
  | [], [] => true
  | x :: a', y :: b' => N.eqb x y && eqs a' b'
  | _, _ => false
  end.

Definition in_range (lo hi c : char) : bool := (N.leb lo c && N.leb c hi)%bool.
Definition is_chr (s : string) (c : char) : bool :=
  existsb (N.eqb c) (lit s).

Definition isDigit (c : char) : bool := in_range 48%N 57%N c.
Definition isUpper (c : char) : bool := in_range 65%N 90%N c.
Definition isLower (c : char) : bool := in_range 97%N 122%N c.
Definition isAlpha (c : char) : bool := isUpper c || isLower c.
(** [\w]: ASCII letters, digits and underscore. *)
Definition isWord (c : char) : bool := isAlpha c || isDigit c || N.eqb c 95%N.

(** WhiteSpace and LineTerminator of ECMAScript: what [\s] matches and
    what [trim] strips. *)
Definition isSpace (c : char) : bool :=
  in_range 9%N 13%N c || N.eqb c 32%N || N.eqb c 160%N || N.eqb c 5760%N
  || in_range 8192%N 8202%N c || N.eqb c 8232%N || N.eqb c 8233%N
  || N.eqb c 8239%N || N.eqb c 8287%N || N.eqb c 12288%N || N.eqb c 65279%N.

(** LineTerminator: what [.] does not match. *)
Definition isLineTerminator (c : char) : bool :=
  N.eqb c 10%N || N.eqb c 13%N || N.eqb c 8232%N || N.eqb c 8233%N.

Definition toUpperAscii (c : char) : char :=
  if isLower c then (c - 32)%N else c.

(** Comparison of a pattern character with an input character under the
    [i] flag.  The pattern characters of the source are ASCII, and a code
    unit above 127 never canonicalizes to an ASCII one, so only the ASCII
    case pairs are identified. *)
Definition eq_ci (p c : char) : bool := N.eqb (toUpperAscii p) (toUpperAscii c).

Fixpoint dropWhile (p : char -> bool) (s : jsstring) : jsstring :=
  match s with
  | [] => []
  | c :: s' => if p c then dropWhile p s' else s
  end.

Definition trimStart (s : jsstring) : jsstring := dropWhile isSpace s.
Definition trimEnd (s : jsstring) : jsstring := rev (dropWhile isSpace (rev s)).
Definition trim (s : jsstring) : jsstring := trimEnd (trimStart s).

(** [s.slice(a, b)] for [0 <= a], [0 <= b]. *)
Definition slice (a b : nat) (s : jsstring) : jsstring :=
  firstn (b - a) (skipn a s).

(** [s.slice(0, e)]; a negative [e] counts from the end. *)
Definition sliceTo (e : Z) (s : jsstring) : jsstring :=
  if (e <? 0)%Z then slice 0 (length s - Z.to_nat (- e)) s
  else slice 0 (Z.to_nat e) s.

Fixpoint startsWith (p s : jsstring) : bool :=
  match p, s with
  | [], _ => true
  | x :: p', y :: s' => N.eqb x y && startsWith p' s'
  | _ :: _, [] => false
  end.

(** [s.includes(p)]. *)
Fixpoint includes (p s : jsstring) : bool :=
  startsWith p s ||
  match s with
  | [] => false
  | _ :: s' => includes p s'
  end.

(** [s.lastIndexOf(p)]: the greatest index at which [p] occurs, or -1. *)
Fixpoint lastIndexOf_from (p s : jsstring) (pos : nat) : option nat :=
  match s with
  | [] => if startsWith p [] then Some pos else None
  | _ :: s' =>
      match lastIndexOf_from p s' (S pos) with
      | Some i => Some i
      | None => if startsWith p s then Some pos else None
      end
  end.

Definition lastIndexOf (p s : jsstring) : Z :=
  match lastIndexOf_from p s 0 with
  | Some i => Z.of_nat i
  | None => (-1)%Z
  end.

(** [s.padStart(n, "0")]. *)
Definition padStart0 (n : nat) (s : jsstring) : jsstring :=
  repeat 48%N (n - length s) ++ s.

(** [a.join(sep)]. *)
Fixpoint join (sep : jsstring) (l : list jsstring) : jsstring :=
  match l with
  | [] => []
  | [x] => x
  | x :: l' => x ++ sep ++ join sep l'
  end.

(** [s.split(sep)] for a one-unit separator. *)
Fixpoint split_on (sep : char) (s : jsstring) : list jsstring :=
  match s with
  | [] => [[]]
  | c :: s' =>
      if N.eqb c sep then [] :: split_on sep s'
      else match split_on sep s' with
           | [] => [[c]]
           | f :: fs => (c :: f) :: fs
           end
  end.

End JsString.
Export JsString.

(* ================================================================== *)
(** ** Regular expressions *)

Module Regex.

Inductive regex : Type :=
| REmpty                                           (* the empty pattern *)
| RSet (p : char -> bool)                          (* one code unit: literal, class, [.] *)
| RSeq (r1 r2 : regex)
| RAlt (r1 r2 : regex)                             (* [r1|r2], left first *)
| RRep (lo : nat) (hi : option nat) (r : regex)    (* greedy [r{lo,hi}] *)
| RGroup (i : nat) (r : regex)                     (* the [i]-th capturing group *)
| RBol                                             (* [^] *)
| REol                                             (* [$] *)
| RWordB.                                          (* [\b] *)

(** Captures: group number to the (start, end) offsets of its last match. *)
Definition caps := list (nat * (nat * nat)).

Fixpoint cap_get (i : nat) (c : caps) : option (nat * nat) :=
  match c with
  | [] => None
  | (j, v) :: c' => if Nat.eqb i j then Some v else cap_get i c'
  end.

(** The matcher is written in continuation-passing style: [prev] is the
    code unit before the current position (absent at offset 0), [s] the
    rest of the input, [pos] the current offset. *)
Definition cont := option char -> jsstring -> nat -> caps -> option (nat * caps).

Definition word_before (prev : option char) : bool :=
  match prev with Some c => isWord c | None => false end.
Definition word_after (s : jsstring) : bool :=
  match s with c :: _ => isWord c | [] => false end.

Definition dec_hi (hi : option nat) : option nat :=
  match hi with Some n => Some (Nat.pred n) | None => None end.

(** Greedy repetition of the matcher [ma].  Once the minimum is reached, an
    iteration that consumes nothing is rejected, as ECMAScript does, so at
    most [lo + length s] iterations can happen and [fuel] counts them. *)
Fixpoint repeatMatcher (ma : option char -> jsstring -> nat -> caps -> cont -> option (nat * caps))
    (fuel lo : nat) (hi : option nat)
    (prev : option char) (s : jsstring) (pos : nat) (c : caps) (k : cont)
    : option (nat * caps) :=
  match fuel with
  | O => None
  | S f =>
      match hi with
      | Some O => k prev s pos c
      | _ =>
          let more :=
            ma prev s pos c
               (fun prev' s' pos' c' =>
                  if (Nat.eqb lo 0 && Nat.eqb pos' pos)%bool then None
                  else repeatMatcher ma f (Nat.pred lo) (dec_hi hi) prev' s' pos' c' k) in
          match lo with
          | S _ => more
          | O => match more with
                 | Some r => Some r
                 | None => k prev s pos c
                 end
          end
      end
  end.

Fixpoint m (r : regex) (prev : option char) (s : jsstring) (pos : nat)
    (c : caps) (k : cont) {struct r} : option (nat * caps) :=
  match r with
  | REmpty => k prev s pos c
  | RSet p =>
      match s with
      | x :: s' => if p x then k (Some x) s' (S pos) c else None
      | [] => None
      end
  | RSeq r1 r2 =>
      m r1 prev s pos c (fun prev' s' pos' c' => m r2 prev' s' pos' c' k)
  | RAlt r1 r2 =>
      match m r1 prev s pos c k with
      | Some res => Some res
      | None => m r2 prev s pos c k
      end
  | RRep lo hi r1 =>
      repeatMatcher (m r1) (S (lo + length s)) lo hi prev s pos c k
  | RGroup i r1 =>
      m r1 prev s pos c
        (fun prev' s' pos' c' => k prev' s' pos' ((i, (pos, pos')) :: c'))
  | RBol => match prev with None => k prev s pos c | Some _ => None end
  | REol => match s with [] => k prev s pos c | _ :: _ => None end
  | RWordB =>
      if xorb (word_before prev) (word_after s) then k prev s pos c else None
  end.

Definition accept : cont := fun _ _ pos c => Some (pos, c).

(** The result of [RegExp.prototype.exec]: where the match starts and ends,
    and the captures. *)
Record mresult : Type := MResult {
  m_start : nat;
  m_end : nat;
  m_caps : caps
}.

(** Leftmost match: try every start offset in turn. *)
Fixpoint search (r : regex) (prev : option char) (s : jsstring) (pos : nat)
    : option mresult :=
  match m r prev s pos [] accept with
  | Some (e, c) => Some (MResult pos e c)
  | None =>
      match s with
      | [] => None
      | x :: s' => search r (Some x) s' (S pos)
      end
  end.

(** [s.match(re)] / [re.exec(s)] for a regex without the [g] flag. *)
Definition exec (r : regex) (s : jsstring) : option mresult :=
  search r None s 0.

(** [re.test(s)]. *)
Definition test (r : regex) (s : jsstring) : bool :=
  match exec r s with Some _ => true | None => false end.

(** [m[0]]. *)
Definition whole (s : jsstring) (x : mresult) : jsstring :=
  slice (m_start x) (m_end x) s.

(** [m[i]] for a group that took part in the match. *)
Definition group (s : jsstring) (x : mresult) (i : nat) : jsstring :=
  match cap_get i (m_caps x) with
  | Some (a, b) => slice a b s
  | None => []
  end.

(** [s.replace(re, repl)] for a regex with the [g] flag and a replacement
    text without [$] patterns.  [skip] counts the code units of the match
    in progress that are still to be dropped. *)
Fixpoint replace_loop (r : regex) (repl : jsstring) (prev : option char)
    (s : jsstring) (pos skip : nat) {struct s} : jsstring :=
  match skip with
  | S n =>
      match s with
      | [] => []
      | x :: s' => replace_loop r repl (Some x) s' (S pos) n
      end
  | O =>
      match m r prev s pos [] accept with
      | Some (e, _) =>
          repl ++
          match s with
          | [] => []
          | x :: s' =>
              if Nat.eqb e pos then x :: replace_loop r repl (Some x) s' (S pos) 0
              else replace_loop r repl (Some x) s' (S pos) (e - pos - 1)
          end
      | None =>
          match s with
          | [] => []
          | x :: s' => x :: replace_loop r repl (Some x) s' (S pos) 0
          end
      end
  end.

Definition replace_g (r : regex) (repl s : jsstring) : jsstring :=
  replace_loop r repl None s 0 0.

(** *** Pattern builders *)

Definition chr (c : string) : regex := RSet (is_chr c).
Definition one (c : char) : regex := RSet (N.eqb c).
Definition one_i (c : char) : regex := RSet (eq_ci c).

Fixpoint seq_of (f : char -> regex) (s : jsstring) : regex :=
  match s with
  | [] => REmpty
  | [c] => f c
  | c :: s' => RSeq (f c) (seq_of f s')
  end.

(** A literal run of characters, without and with the [i] flag. *)
Definition str (s : string) : regex := seq_of one (lit s).
Definition str_i (s : string) : regex := seq_of one_i (lit s).

Fixpoint alts (l : list regex) : regex :=
  match l with
  | [] => REmpty
  | [r] => r
  | r :: l' => RAlt r (alts l')
  end.

Fixpoint seqs (l : list regex) : regex :=
  match l with
  | [] => REmpty
  | [r] => r
  | r :: l' => RSeq r (seqs l')
  end.

Definition star (r : regex) : regex := RRep 0 None r.
Definition plus (r : regex) : regex := RRep 1 None r.
Definition opt (r : regex) : regex := RRep 0 (Some 1) r.
Definition times (lo hi : nat) (r : regex) : regex := RRep lo (Some hi) r.

Definition digit : regex := RSet isDigit.                       (* [\d] *)
Definition space : regex := RSet isSpace.                       (* [\s] *)
Definition dot : regex := RSet (fun c => negb (isLineTerminator c)). (* [.] *)

End Regex.
Export Regex.

(* ================================================================== *)
(** ** Numbers *)

Module JsNumber.

(** A JavaScript number that came from a decimal literal is modelled by the
    exact rational the literal denotes (in lowest terms), the value that
    the engine then rounds to the nearest double; [NaN] is kept apart. *)
Inductive num : Type :=
| NaN
| Fin (q : Q).

Definition digitVal (c : char) : Z := Z.of_N (c - 48)%N.

Fixpoint digitsVal (acc : Z) (s : jsstring) : Z :=
  match s with
  | [] => acc
  | c :: s' => digitsVal (10 * acc + digitVal c)%Z s'
  end.

Fixpoint takeWhile (p : char -> bool) (s : jsstring) : jsstring :=
  match s with
  | [] => []
  | c :: s' => if p c then c :: takeWhile p s' else []
  end.

Fixpoint pow10 (n : nat) : positive :=
  match n with
  | O => 1%positive
  | S n' => (10 * pow10 n')%positive
  end.

(** Unsigned decimal literal [digits], [digits.digits], [digits.] or
    [.digits], as a rational. *)
Definition unsignedDecimal (s : jsstring) : option Q :=
  let ip := takeWhile isDigit s in
  let rest := skipn (length ip) s in
  match rest with
  | [] =>
      match ip with
      | [] => None
      | _ => Some (Qred (digitsVal 0 ip # 1))
      end
  | c :: fr =>
      if (N.eqb c 46 && forallb isDigit fr && negb (Nat.eqb (length ip + length fr) 0))%bool
      then Some (Qred (Qmake (digitsVal 0 (ip ++ fr)) (pow10 (length fr))))
      else None
  end.

(** [Number(s)] on the texts the parser passes to it, which are decimal
    literals with an optional sign: blank text is 0, a decimal literal is
    its value, and a text that is neither is [NaN].  The other literal
    forms of the language (exponent, hexadecimal, Infinity) never reach
    it and are not modelled. *)
Definition Number (s : jsstring) : num :=
  match trim s with
  | [] => Fin 0
  | c :: s' =>
      if N.eqb c 45 then
        match unsignedDecimal s' with
        | Some q => Fin (Qred (- q))
        | None => NaN
        end
      else if N.eqb c 43 then
        match unsignedDecimal s' with
        | Some q => Fin q
        | None => NaN
        end
      else
        match unsignedDecimal (c :: s') with
        | Some q => Fin q
        | None => NaN
        end
  end.

(** [parseInt(s, 10)] for a text without sign: the value of the leading
    digits, or NaN ([None]) when there is none. *)
Definition parseInt10 (s : jsstring) : option Z :=
  match takeWhile isDigit (trimStart s) with
  | [] => None
  | ds => Some (digitsVal 0 ds)
  end.

(** [n.toString()] for a non-negative integer. *)
Definition natToString (n : Z) : jsstring :=
  lit (NilZero.string_of_uint (N.to_uint (Z.to_N n))).

End JsNumber.
Export JsNumber.

(* ================================================================== *)
(** ** Loops with early exit *)

(** [for (const x of l) { ...; if (...) return v; }]: the first value the
    body returns. *)
Fixpoint first_some {A B : Type} (f : A -> option B) (l : list A) : option B :=
  match l with
  | [] => None
  | x :: l' =>
      match f x with
      | Some v => Some v
      | None => first_some f l'
      end
  end.

(** [a.findIndex(p)], with [None] for -1. *)
Fixpoint findIndex_from {A : Type} (p : A -> bool) (l : list A) (i : nat) : option nat :=
  match l with
  | [] => None
  | x :: l' => if p x then Some i else findIndex_from p l' (S i)
  end.

Definition findIndex {A : Type} (p : A -> bool) (l : list A) : option nat :=
  findIndex_from p l 0.

(** [for (let i = lo; i < hi; i++) { ...; if (...) return v; }]. *)
Definition for_range {B : Type} (lo hi : nat) (body : nat -> option B) : option B :=
  first_some body (seq lo (hi - lo)).

(* ================================================================== *)
(** ** Constants of the parser *)

Definition usStates : list string :=
  ["AL";"AK";"AZ";"AR";"CA";"CO";"CT";"DE";"FL";"GA";"HI";"ID";"IL";"IN";"IA";"KS";"KY";"LA";"ME";
   "MD";"MA";"MI";"MN";"MS";"MO";"MT";"NE";"NV";"NH";"NJ";"NM";"NY";"NC";"ND";"OH";"OK";"OR";"PA";
   "RI";"SC";"SD";"TN";"TX";"UT";"VT";"VA";"WA";"WV";"WI";"WY"]%string.

(** [\b(?:AL|AK|...|WY)\b] *)
Definition STATE_RE : regex :=
  seqs [RWordB; alts (map str usStates); RWordB].

(** [-?\$?\d{1,3}(?:,\d{3})*(?:\.\d{2})?|-?\$?\d+(?:\.\d{2})?] *)
Definition MONEY_RE : regex :=
  RAlt
    (seqs [opt (chr "-"); opt (chr "$"); times 1 3 digit;
           star (RSeq (chr ",") (times 3 3 digit));
           opt (RSeq (chr ".") (times 2 2 digit))])
    (seqs [opt (chr "-"); opt (chr "$"); plus digit;
           opt (RSeq (chr ".") (times 2 2 digit))]).

(** [\d+(?:\.\d+)?] *)
Definition QTY_RE : regex :=
  RSeq (plus digit) (opt (RSeq (chr ".") (plus digit))).

(* ================================================================== *)
(** ** Utility functions *)

(** The four replacements are [/\r/g], [/\u00A0/g], [/\s+$/g] and [/^\s+/g]. *)
Definition cleanLines (text : jsstring) : list jsstring :=
  filter (fun l => Nat.ltb 0 (length l))
    (map (fun l =>
            replace_g (RSeq RBol (plus space)) []
              (replace_g (RSeq (plus space) REol) []
                 (replace_g (one 160%N) (lit " ") l)))
         (split_on 10%N (replace_g (one 13%N) [] text))).

(** [unmoney] is only called on captured texts, never on [null]. *)
Definition unmoney (s : jsstring) : option num :=
  let v := trim (replace_g (chr ",") [] (replace_g (chr "$") [] s)) in
  match v with
  | [] => None
  | _ => Some (Number v)
  end.

(** [/(\d{1,2})[\/\-](\d{1,2})[\/\-](\d{2,4})/] *)
Definition parseDate_re : regex :=
  seqs [RGroup 1 (times 1 2 digit); chr "/-";
        RGroup 2 (times 1 2 digit); chr "/-";
        RGroup 3 (times 2 4 digit)].

Definition parseDate (raw : jsstring) : option jsstring :=
  match raw with
  | [] => None
  | _ =>
      match exec parseDate_re raw with
      | None => None
      | Some m =>
          let mm := group raw m 1 in
          let dd := group raw m 2 in
          let yyyy := group raw m 3 in
          let yyyy' :=
            if Nat.eqb (length yyyy) 2 then
              match parseInt10 yyyy with
              | Some yy => natToString (if (70 <=? yy)%Z then 1900 + yy else 2000 + yy)%Z
              | None => lit "NaN"
              end
            else yyyy in
          let mm2 := padStart0 2 mm in
          let dd2 := padStart0 2 dd in
          Some (mm2 ++ lit "/" ++ dd2 ++ lit "/" ++ yyyy')
      end
  end.

(* ================================================================== *)
(** ** Field extractors *)

Definition custKeyword_i : regex :=
  alts [str_i "Customer"; str_i "Bill To"; str_i "Sold To"].

(** [/^(?:Customer|Bill To|Sold To)\s*:\s*(.+)$/i] and
    [/^(?:Customer|Bill To|Sold To)\s+(.+)$/i] *)
Definition custMarkers : list regex :=
  [ seqs [RBol; custKeyword_i; star space; chr ":"; star space;
          RGroup 1 (plus dot); REol];
    seqs [RBol; custKeyword_i; plus space; RGroup 1 (plus dot); REol] ].

(** [/Bill To|Sold To|Customer/i] *)
Definition custAnywhere_re : regex :=
  alts [str_i "Bill To"; str_i "Sold To"; str_i "Customer"].

(** [/^(Address|Phone|Email|Fax|Attn|City|State|Zip)[:\s]/i] *)
Definition addressLabel_re : regex :=
  seqs [RBol;
        RGroup 1 (alts [str_i "Address"; str_i "Phone"; str_i "Email"; str_i "Fax";
                        str_i "Attn"; str_i "City"; str_i "State"; str_i "Zip"]);
        RSet (fun c => is_chr ":" c || isSpace c)].

(** The capture [m[1].trim()] of the first regex of [res] that matches [l]. *)
Definition match_group1 (res : list regex) (l : jsstring) : option jsstring :=
  first_some
    (fun re => match exec re l with
               | Some m => Some (trim (group l m 1))
               | None => None
               end)
    res.

Definition findCustomer (lines : list jsstring) : option jsstring :=
  match first_some (match_group1 custMarkers) (firstn 40 lines) with
  | Some r => Some r
  | None =>
      match findIndex (test custAnywhere_re) lines with
      | Some idx =>
          for_range (idx + 1) (Nat.min (idx + 5) (length lines))
            (fun i =>
               let t := nth i lines [] in
               if (negb (test addressLabel_re t) && Nat.ltb 3 (length t))%bool
               then Some (trim t) else None)
      | None => None
      end
  end.

(** [[A-Z0-9\-]] under the [i] flag. *)
Definition idChar (c : char) : bool := isAlpha c || isDigit c || is_chr "-" c.

(** [re] of [findInvoice]: the label [Invoice\s*(?:#|No\.?|Number)?\s*[:\-]?\s*]
    in a non-capturing group, then the capture [([A-Z0-9\-]+)], flag [i]. *)
Definition invoice_re : regex :=
  seqs [str_i "Invoice"; star space;
        opt (alts [chr "#"; RSeq (str_i "No") (opt (chr ".")); str_i "Number"]);
        star space; opt (chr ":-"); star space;
        RGroup 1 (plus (RSet idChar))].

(** [/\bINVOICE\s+([A-Z0-9\-]+)/i] *)
Definition invoice_re2 : regex :=
  seqs [RWordB; str_i "INVOICE"; plus space; RGroup 1 (plus (RSet idChar))].

Definition findInvoice (lines : list jsstring) : option jsstring :=
  match first_some (match_group1 [invoice_re]) (firstn 80 lines) with
  | Some r => Some r
  | None => first_some (match_group1 [invoice_re2]) (firstn 80 lines)
  end.

(** [\d{1,2}[\/\-]\d{1,2}[\/\-]\d{2,4}] *)
Definition datePattern : regex :=
  seqs [times 1 2 digit; chr "/-"; times 1 2 digit; chr "/-"; times 2 4 digit].

(** [/(?:Invoice\s*Date|Date)\s*[:\-]?\s*(\d{1,2}[\/\-]\d{1,2}[\/\-]\d{2,4})/i] *)
Definition date_re : regex :=
  seqs [RAlt (seqs [str_i "Invoice"; star space; str_i "Date"]) (str_i "Date");
        star space; opt (chr ":-"); star space; RGroup 1 datePattern].

(** [/(\d{1,2}[\/\-]\d{1,2}[\/\-]\d{2,4})/] *)
Definition date_re2 : regex := RGroup 1 datePattern.

(** [m[1]] of the first line of [l] that [re] matches. *)
Definition first_group1 (re : regex) (l : list jsstring) : option jsstring :=
  first_some
    (fun x => match exec re x with
              | Some m => Some (group x m 1)
              | None => None
              end)
    l.

(** Each loop returns [parseDate(m[1])] at its first match, a date or
    [null], without going on to the next loop. *)
Definition findDate (lines : list jsstring) : option jsstring :=
  match first_group1 date_re (firstn 80 lines) with
  | Some raw => parseDate raw
  | None =>
      match first_group1 date_re2 (firstn 50 lines) with
      | Some raw => parseDate raw
      | None => None
      end
  end.

(** [[A-Za-z .,'-]] (the [i] flag adds nothing to it). *)
Definition repChar (c : char) : bool := isAlpha c || is_chr " .,'-" c.

(** [/(?:Sales\s*Rep|Salesperson|Sold\s*By|Rep)\s*[:\-]?\s*([A-Za-z .,'-]+)(?:\s{2,}|$)/i] *)
Definition rep_re : regex :=
  seqs [alts [seqs [str_i "Sales"; star space; str_i "Rep"]; str_i "Salesperson";
              seqs [str_i "Sold"; star space; str_i "By"]; str_i "Rep"];
        star space; opt (chr ":-"); star space;
        RGroup 1 (plus (RSet repChar));
        RAlt (RRep 2 None space) REol].

Definition findRep (lines : list jsstring) : option jsstring :=
  first_some (match_group1 [rep_re]) (firstn 120 lines).

(** [/\b(\d{5}(?:-\d{4})?)\b/] *)
Definition zipRe : regex :=
  seqs [RWordB;
        RGroup 1 (RSeq (times 5 5 digit) (opt (RSeq (chr "-") (times 4 4 digit))));
        RWordB].

(** [l.match(zipRe)] and its [m[1]]. *)
Definition zipOf (l : jsstring) : option jsstring :=
  match exec zipRe l with
  | Some m => Some (group l m 1)
  | None => None
  end.

(** The guard of the first loop of [findZip]. *)
Definition stateAndZip (l : jsstring) : bool := test STATE_RE l && test zipRe l.

Definition findZip (lines : list jsstring) : option jsstring :=
  match first_some (fun l => if stateAndZip l then zipOf l else None)
                   (firstn 50 lines) with
  | Some z => Some z
  | None => first_some zipOf (rev (firstn 50 lines))
  end.

(* ================================================================== *)
(** ** Table locator *)

Definition headerRe : regex := str_i "ACTIVITY".
Definition descRe : regex := str_i "DESCRIPTION".
(** [/\bQTY\b|\bQUANTITY\b/i] *)
Definition qtyRe : regex :=
  RAlt (seqs [RWordB; str_i "QTY"; RWordB]) (seqs [RWordB; str_i "QUANTITY"; RWordB]).
(** [/\bRATE\b|\bPRICE\b/i] *)
Definition rateRe : regex :=
  RAlt (seqs [RWordB; str_i "RATE"; RWordB]) (seqs [RWordB; str_i "PRICE"; RWordB]).
(** [/\bAMOUNT\b|\bEXT\.?\b|\bTOTAL\b/i] *)
Definition amtRe : regex :=
  alts [seqs [RWordB; str_i "AMOUNT"; RWordB];
        seqs [RWordB; str_i "EXT"; opt (chr "."); RWordB];
        seqs [RWordB; str_i "TOTAL"; RWordB]].

(** The condition of the [if] in the loop of [findTableStart]. *)
Definition isTableHeader (l : jsstring) : bool :=
  test headerRe l && test descRe l && test qtyRe l && test rateRe l && test amtRe l.

Fixpoint findTableStart_from (lines : list jsstring) (i : Z) : Z :=
  match lines with
  | [] => (-1)%Z
  | l :: lines' => if isTableHeader l then i else findTableStart_from lines' (i + 1)%Z
  end.

Definition findTableStart (lines : list jsstring) : Z :=
  findTableStart_from lines 0%Z.

(* ================================================================== *)
(** ** Row parser *)

(** The three regexes of [shouldStopRow]; the first one ends in [\b]. *)
Definition stopWords_re : regex :=
  seqs [RBol;
        RGroup 1 (alts [str_i "Subtotal"; str_i "Sub-Total"; str_i "Tax";
                        str_i "Sales Tax"; str_i "Total"; str_i "Balance Due"]);
        RWordB].
Definition stopInvoice_re : regex := seqs [RBol; str_i "INVOICE"; RWordB].
Definition stopPage_re : regex := seqs [RBol; str_i "Page "; plus digit].

Definition shouldStopRow (line : jsstring) : bool :=
  test stopWords_re line || test stopInvoice_re line || test stopPage_re line.

Record item : Type := Item {
  activity : jsstring;
  description : jsstring;
  qty : option num;
  rate : option num;
  amount : option num
}.

(** [(QTY_RE)\s+(MONEY_RE)\s+(MONEY_RE)$] *)
Definition tailRe : regex :=
  seqs [RGroup 1 QTY_RE; plus space; RGroup 2 MONEY_RE; plus space;
        RGroup 3 MONEY_RE; REol].

(** [[A-Za-z0-9._\-/]] *)
Definition tokenChar (c : char) : bool := isAlpha c || isDigit c || is_chr "._-/" c.

(** The regex of [mLeft] and of [mSeed], anchored at both ends: a captured
    token [[A-Za-z0-9._\-/]+], then [\s+], then the captured rest [.*]. *)
Definition leadToken_re : regex :=
  seqs [RBol; RGroup 1 (plus (RSet tokenChar)); plus space;
        RGroup 2 (star dot); REol].

(** The item pushed when [raw] has a numeric tail [mTail]. *)
Definition tailItem (raw : jsstring) (mTail : mresult) : item :=
  let trailStart := lastIndexOf (whole raw mTail) raw in
  let left := trim (sliceTo trailStart raw) in
  let '(act, desc) :=
    match exec leadToken_re left with
    | Some mLeft => (trim (group left mLeft 1), trim (group left mLeft 2))
    | None => ([], left)
    end in
  Item act desc
       (Some (Number (group raw mTail 1)))
       (unmoney (group raw mTail 2))
       (unmoney (group raw mTail 3)).

(** The item pushed when [raw] seeds the list, if it does. *)
Definition seedItem (raw : jsstring) : option item :=
  match exec leadToken_re raw with
  | Some mSeed =>
      Some (Item (trim (group raw mSeed 1)) (trim (group raw mSeed 2)) None None None)
  | None => None
  end.

(** [last.description = (last.description ? last.description + " " : "") + raw.trim()] *)
Definition appendDescription (it : item) (raw : jsstring) : item :=
  Item (activity it)
       ((match description it with
         | [] => []
         | d => d ++ lit " "
         end) ++ trim raw)
       (qty it) (rate it) (amount it).

(** [out[out.length - 1]] is updated in place. *)
Fixpoint updateLast (f : item -> item) (out : list item) : list item :=
  match out with
  | [] => []
  | [x] => [f x]
  | x :: out' => x :: updateLast f out'
  end.

(** What one iteration of the loop of [parseLines] does. *)
Inductive action : Type :=
| Stop                        (* [break] *)
| Skip                        (* [continue] on a blank line, or nothing to do *)
| PushTail (it : item)        (* [out.push] of a row with a numeric tail *)
| PushSeed (it : item)        (* [out.push] of a seed row *)
| Continuation.               (* text appended to the last description *)

Definition classify (out : list item) (raw : jsstring) : action :=
  if shouldStopRow raw then Stop
  else match trim raw with
       | [] => Skip
       | _ =>
           match exec tailRe raw with
           | Some mTail => PushTail (tailItem raw mTail)
           | None =>
               match (if Nat.eqb (length out) 0 then seedItem raw else None) with
               | Some it => PushSeed it
               | None => if Nat.ltb 0 (length out) then Continuation else Skip
               end
           end
       end.

(** The list after the iteration on [raw]; [None] is [break]. *)
Definition step (out : list item) (raw : jsstring) : option (list item) :=
  match classify out raw with
  | Stop => None
  | Skip => Some out
  | PushTail it => Some (out ++ [it])
  | PushSeed it => Some (out ++ [it])
  | Continuation => Some (updateLast (fun last => appendDescription last raw) out)
  end.

Fixpoint parseLoop (out : list item) (rest : list jsstring) : list item :=
  match rest with
  | [] => out
  | raw :: rest' =>
      match step out raw with
      | None => out
      | Some out' => parseLoop out' rest'
      end
  end.

Definition parseLines (lines : list jsstring) (headerIdx : Z) : list item :=
  if (headerIdx <? 0)%Z then []
  else parseLoop [] (skipn (Z.to_nat (headerIdx + 1)) lines).

(** The list after the iterations on the rows [pre], when none of them
    breaks out of the loop. *)
Fixpoint runSteps (out : list item) (pre : list jsstring) : option (list item) :=
  match pre with
  | [] => Some out
  | raw :: pre' =>
      match step out raw with
      | None => None
      | Some out' => runSteps out' pre'
      end
  end.

(* ================================================================== *)
(** ** CSV utilities *)

(** The class of [escapeCsv]: comma, CR, LF and the double quote. *)
Definition csvSpecial (c : char) : bool :=
  N.eqb c 44%N || N.eqb c 13%N || N.eqb c 10%N || N.eqb c 34%N.

Definition dquote : jsstring := [34%N].

(** [value == null] is the [None] case; the call sites pass texts. *)
Definition escapeCsv (value : option jsstring) : jsstring :=
  match value with
  | None => []
  | Some str =>
      if test (RSet csvSpecial) str
      then dquote ++ replace_g (one 34%N) (dquote ++ dquote) str ++ dquote
      else str
  end.

(** [r.map(escapeCsv).join(",")] *)
Definition rowText (r : list jsstring) : jsstring :=
  join (lit ",") (map (fun v => escapeCsv (Some v)) r).

(** [rows.map(r => r.map(escapeCsv).join(",")).join("\n")] *)
Definition csvOfRows (rows : list (list jsstring)) : jsstring :=
  join [10%N] (map rowText rows).

Record header : Type := Header {
  customer : option jsstring;
  rep : option jsstring;
  date : option jsstring;
  invoice : option jsstring;
  zip : option jsstring
}.

(** [x ?? ""] *)
Definition orEmpty (x : option jsstring) : jsstring :=
  match x with Some v => v | None => [] end.

Definition headerValues (h : header) : list jsstring :=
  [orEmpty (customer h); orEmpty (rep h); orEmpty (date h);
   orEmpty (invoice h); orEmpty (zip h)].

Definition headerCsvRows (h : header) : list (list jsstring) :=
  [ [lit "Customer"; lit "Rep"; lit "Date"; lit "Invoice"; lit "Zip"];
    headerValues h ].

Definition headerCsv (h : header) : jsstring := csvOfRows (headerCsvRows h).

Section LinesCsv.

(** [String(n)] for a number, a built-in of the language. *)
Variable numToString : num -> jsstring.

Definition numCell (x : option num) : jsstring :=
  match x with Some n => numToString n | None => [] end.

Definition linesCsvRows (items : list item) : list (list jsstring) :=
  [lit "Activity"; lit "Description"; lit "Qty"; lit "Rate"; lit "Amount"]
  :: map (fun it => [activity it; description it;
                     numCell (qty it); numCell (rate it); numCell (amount it)])
         items.

Definition linesCsv (items : list item) : jsstring := csvOfRows (linesCsvRows items).

End LinesCsv.

(* ================================================================== *)
(** ** Request handler *)

Module Handler.

(** Values that [JSON.parse] produces. *)
#[warnings="-register-all"]
Inductive json : Type :=
| JNull
| JBool (b : bool)
| JNumber (n : num)
| JString (s : jsstring)
| JArray (l : list json)
| JObject (fields : list (jsstring * json)).

Fixpoint assoc {V : Type} (k : jsstring) (l : list (jsstring * V)) : option V :=
  match l with
  | [] => None
  | (k', v) :: l' => if eqs k k' then Some v else assoc k l'
  end.

(** The property [base64] read by the destructuring pattern; [None] is
    [undefined].  Only an object parsed from JSON can own it. *)
Definition get_base64 (body : json) : option json :=
  match body with
  | JObject fields => assoc (lit "base64") fields
  | _ => None
  end.

(** ToBoolean. *)
Definition truthy (v : option json) : bool :=
  match v with
  | None => false
  | Some JNull => false
  | Some (JBool b) => b
  | Some (JNumber NaN) => false
  | Some (JNumber (Fin q)) => negb (Qeq_bool q 0)
  | Some (JString s) => Nat.ltb 0 (length s)
  | Some (JArray _) => true
  | Some (JObject _) => true
  end.

Definition bytes := list N.

(** A call either returns or throws an error with a message. *)
Inductive outcome (X : Type) : Type :=
| Returns (x : X)
| Throws (message : jsstring).
Arguments Returns {X} x.
Arguments Throws {X} message.

(** The collaborators the handler calls: the JSON parser, the base64
    decoder, the PDF text extractor ([data.text], absent or present), the
    ZIP writer and the base64 encoder. *)
Inductive call : Type -> Type :=
| JSON_parse (text : jsstring) : call (outcome json)
| Buffer_from_base64 (v : json) : call (outcome bytes)
| pdf (buf : bytes) : call (outcome (option jsstring))
| zip_generate (files : list (jsstring * jsstring)) : call (outcome bytes)
| toString_base64 (buf : bytes) : call jsstring.

(** Programs over those calls. *)
Inductive prog (A : Type) : Type :=
| Ret (a : A)
| Raise (message : jsstring)
| Do (X : Type) (c : call X) (k : X -> prog A).
Arguments Ret {A} a.
Arguments Raise {A} message.
Arguments Do {A X} c k.

Fixpoint bind {A B : Type} (p : prog A) (f : A -> prog B) : prog B :=
  match p with
  | Ret a => f a
  | Raise msg => Raise msg
  | Do c k => Do c (fun x => bind (k x) f)
  end.

(** A call whose failure is thrown on. *)
Definition try_call {X : Type} (c : call (outcome X)) : prog X :=
  Do c (fun r => match r with Returns x => Ret x | Throws msg => Raise msg end).

Notation "x <- p ;; q" := (bind p (fun x => q))
  (at level 61, p at next level, right associativity).

Inductive body : Type :=
| ErrorJson (message : jsstring)     (* [JSON.stringify({ error: message })] *)
| Base64Body (text : jsstring).

Record response : Type := Response {
  statusCode : Z;
  resp_headers : list (jsstring * jsstring);
  resp_body : body;
  isBase64Encoded : bool
}.

(** [event.headers] is an object of texts, or absent. *)
Record event : Type := Event {
  ev_headers : option (list (jsstring * jsstring));
  ev_body : option jsstring
}.

(** [headers["content-type"]?.includes("application/json")], for the
    headers object. *)
Definition isJson (headers : list (jsstring * jsstring)) : bool :=
  match assoc (lit "content-type") headers with
  | Some v => includes (lit "application/json") v
  | None => false
  end.

(** [event.body || "{}"] *)
Definition bodyText (ev : event) : jsstring :=
  match ev_body ev with
  | Some (c :: b) => c :: b
  | _ => lit "{}"
  end.

(** The two responses to a malformed request. *)
Definition sendJsonResponse : response :=
  Response 400 [] (ErrorJson (lit "Send JSON: { filename, mimeType, base64 }")) false.

Definition missingBase64Response : response :=
  Response 400 [] (ErrorJson (lit "Missing 'base64' PDF content")) false.

(** [(s || "").toString().replace(/[^A-Za-z0-9.-]+/g, "_")] *)
Definition safe (s : option jsstring) : jsstring :=
  replace_g (plus (RSet (fun c => negb (isAlpha c || isDigit c || is_chr ".-" c))))
            (lit "_") (orEmpty s).

Definition zipName (customer rep invoice : option jsstring) : jsstring :=
  let parts := filter (fun p => Nat.ltb 0 (length p))
                      [safe customer; safe rep; safe invoice] in
  match parts with
  | [] => lit "invoice_extract.zip"
  | _ => join (lit "_") parts ++ lit "_extract.zip"
  end.

(** The names that the statements of the [try] block of the handler
    declare with [const], in the order of the source (lines 266 to 323);
    line 274 declares three by destructuring. *)
Definition tryBlockNames : list jsstring :=
  [ lit "isJson"; lit "body"; lit "filename"; lit "base64"; lit "mimeType";
    lit "pdfBuf"; lit "data"; lit "rawText"; lit "lines";
    lit "customer"; lit "invoice"; lit "date"; lit "rep"; lit "zip";
    lit "header"; lit "headerIdx"; lit "items";
    lit "headerCsvRows"; lit "headerCsv"; lit "linesCsvRows"; lit "linesCsv";
    lit "zip"; lit "zipBuf";
    lit "safe"; lit "parts"; lit "zipName" ].

(** The first name that a block declares again.  The language rejects a
    block whose lexically declared names have a duplicate, before any
    statement of the program runs. *)
Fixpoint firstDuplicate (seen names : list jsstring) : option jsstring :=
  match names with
  | [] => None
  | n :: names' =>
      if existsb (eqs n) seen then Some n
      else firstDuplicate (n :: seen) names'
  end.

(** What becomes of a module: rejected with a SyntaxError for the name
    declared twice, or evaluated, which gives its export. *)
Inductive moduleResult (A : Type) : Type :=
| SyntaxError (name : jsstring)
| Exports (a : A).
Arguments SyntaxError {A} name.
Arguments Exports {A} a.

Section WithNumToString.

Variable numToString : num -> jsstring.

(** The messages of the TypeErrors that destructuring [null] and reading
    a property of an absent [event.headers] throw. *)
Variable destructureError : jsstring.
Variable headersError : jsstring.

(** The statements of the [try] block, as they read.  The archive of line
    316 is the argument of the call to the ZIP writer here. *)
Definition handler_try (ev : event) : prog response :=
  match ev_headers ev with
  | None => Raise headersError
  | Some headers =>
  if negb (isJson headers) then
    Ret sendJsonResponse
  else
    parsed <- try_call (JSON_parse (bodyText ev)) ;;
    match parsed with
    | JNull => Raise destructureError
    | _ =>
        let base64 := get_base64 parsed in
        if negb (truthy base64) then
          Ret missingBase64Response
        else
          pdfBuf <- try_call (Buffer_from_base64 (match base64 with
                                                  | Some v => v
                                                  | None => JNull
                                                  end)) ;;
          data_text <- try_call (pdf pdfBuf) ;;
          let rawText := orEmpty data_text in
          let lines := cleanLines rawText in
          let customer := findCustomer lines in
          let invoice := findInvoice lines in
          let date := findDate lines in
          let rep := findRep lines in
          let zip := findZip lines in
          let header := Header customer rep date invoice zip in
          let headerIdx := findTableStart lines in
          let items := parseLines lines headerIdx in
          let headerCsv := headerCsv header in
          let linesCsv := linesCsv numToString items in
          zipBuf <- try_call (zip_generate [(lit "invoice_header.csv", headerCsv);
                                            (lit "invoice_lines.csv", linesCsv)]) ;;
          encoded <- Do (toString_base64 zipBuf) Ret ;;
          Ret (Response 200
                 [(lit "Content-Type", lit "application/zip");
                  (lit "Content-Disposition",
                   lit "attachment; filename=" ++ zipName customer rep invoice)]
                 (Base64Body encoded) true)
    end
  end.

(** [catch (err)]: every error becomes a 500 response with its message. *)
Fixpoint catch (p : prog response) : prog response :=
  match p with
  | Ret r => Ret r
  | Raise msg => Ret (Response 500 [] (ErrorJson msg) false)
  | Do c k => Do c (fun x => catch (k x))
  end.

(** The function that the source text of the handler denotes. *)
Definition handlerFunction (ev : event) : prog response := catch (handler_try ev).

(** The export [handler] of the module.  The [try] block declares [zip]
    at line 288 and again at line 316, so the module is rejected and
    exports nothing. *)
Definition handler : moduleResult (event -> prog response) :=
  match firstDuplicate [] tryBlockNames with
  | Some name => SyntaxError name
  | None => Exports handlerFunction
  end.

(** Invoking the handler for a request: the program it runs, if the
    module exports one. *)
Definition invoke (ev : event) : option (prog response) :=
  match handler with
  | Exports f => Some (f ev)
  | SyntaxError _ => None
  end.

End WithNumToString.

End Handler.

(* ================================================================== *)
(** ** A CSV reader

    The round-trip property of the specification re-splits the CSV text
    by comma while respecting the quoting; the repository itself has no
    reader.  This one follows those words: fields end at a comma, rows at
    a line feed, a field that starts with a double quote runs to its
    closing quote, and a doubled quote inside it stands for one quote.
    The result is the list of rows; the field and the row being read are
    at the front. *)

Module CsvReader.

Inductive rstate : Type :=
| Start        (* at the first unit of a field *)
| Bare         (* inside an unquoted field *)
| Quoted       (* inside a quoted field *)
| QuoteSeen.   (* after a quote inside a quoted field *)

Definition add_char (c : char) (rows : list (list jsstring)) : list (list jsstring) :=
  match rows with
  | (f :: r) :: rs => ((c :: f) :: r) :: rs
  | [] :: rs => [[c]] :: rs
  | [] => [[[c]]]
  end.

Definition new_field (rows : list (list jsstring)) : list (list jsstring) :=
  match rows with
  | r :: rs => ([] :: r) :: rs
  | [] => [[[]]]
  end.

Definition new_row (rows : list (list jsstring)) : list (list jsstring) :=
  [[]] :: rows.

Definition is_comma (c : char) : bool := N.eqb c 44%N.
Definition is_lf (c : char) : bool := N.eqb c 10%N.
Definition is_quote (c : char) : bool := N.eqb c 34%N.

Fixpoint read (st : rstate) (s : jsstring) : list (list jsstring) :=
  match s with
  | [] => [[[]]]
  | c :: s' =>
      match st with
      | Start =>
          if is_quote c then read Quoted s'
          else if is_comma c then new_field (read Start s')
          else if is_lf c then new_row (read Start s')
          else add_char c (read Bare s')
      | Bare =>
          if is_comma c then new_field (read Start s')
          else if is_lf c then new_row (read Start s')
          else add_char c (read Bare s')
      | Quoted =>
          if is_quote c then read QuoteSeen s'
          else add_char c (read Quoted s')
      | QuoteSeen =>
          if is_quote c then add_char c (read Quoted s')
          else if is_comma c then new_field (read Start s')
          else if is_lf c then new_row (read Start s')
          else add_char c (read Bare s')
      end
  end.

Definition readCsv (s : jsstring) : list (list jsstring) := read Start s.

(** Putting the units of a field in front of the field being read. *)
Fixpoint add_chars (f : jsstring) (rows : list (list jsstring)) : list (list jsstring) :=
  match f with
  | [] => rows
  | c :: f' => add_char c (add_chars f' rows)
  end.

(** Texts at which a field may end: the end of the input, a comma or a
    line feed. *)
Definition delimited (s : jsstring) : Prop :=
  match s with
  | [] => True
  | c :: _ => is_comma c = true \/ is_lf c = true
  end.

End CsvReader.

(* ================================================================== *)
(** ** Notions used in the statements *)

(** A matcher is [local] on inputs of total length [n] when it only calls
    its continuation further to the right in the same input. *)
Definition agree_from (n pos : nat) (k1 k2 : cont) : Prop :=
  forall prev' s' pos' c',
    pos' + length s' = n -> pos <= pos' -> k1 prev' s' pos' c' = k2 prev' s' pos' c'.

Definition local (n : nat)
    (ma : option char -> jsstring -> nat -> caps -> cont -> option (nat * caps)) : Prop :=
  forall prev s pos c k1 k2,
    pos + length s = n -> agree_from n pos k1 k2 ->
    ma prev s pos c k1 = ma prev s pos c k2.

(** [b] is [a] with, at most, text appended to its description. *)
Definition extends_item (a b : item) : Prop :=
  activity b = activity a /\ qty b = qty a /\ rate b = rate a /\ amount b = amount a
  /\ exists txt, description b = description a ++ txt.

(** The three things an iteration can do to the list. *)
Inductive step_shape (raw : jsstring) (out : list item) : list item -> Prop :=
| shape_same : step_shape raw out out
| shape_push it : step_shape raw out (out ++ [it])
| shape_append pre last :
    out = pre ++ [last] ->
    step_shape raw out (pre ++ [appendDescription last raw]).

(** [fin] keeps every item of [out] in its place: all but the last one
    unchanged, the last one with, at most, a longer description. *)
Definition evolves (out fin : list item) : Prop :=
  out = [] \/
  exists pre last last' more,
    out = pre ++ [last] /\ fin = pre ++ last' :: more /\ extends_item last last'.

(** The item [it] stems from line [i]: that line made the parser push an
    item, of which [it] differs at most by a longer description. *)
Definition created_by (lines : list jsstring) (i : nat) (it : item) : Prop :=
  exists raw it0 out0,
    nth_error lines i = Some raw
    /\ (classify out0 raw = PushTail it0 \/ classify out0 raw = PushSeed it0)
    /\ extends_item it0 it.

(** The code unit before the position reached after reading [ds]. *)
Definition prev_after (prev : option char) (ds : jsstring) : option char :=
  fold_left (fun _ x => Some x) ds prev.

(** The year as [parseDate] writes it: pivoted when it has two digits,
    as it is otherwise. *)
Definition yearText (yyyy : jsstring) : jsstring :=
  if Nat.eqb (length yyyy) 2 then
    match parseInt10 yyyy with
    | Some yy => natToString (if (70 <=? yy)%Z then 1900 + yy else 2000 + yy)%Z
    | None => lit "NaN"
    end
  else yyyy.

(** Two digits, a slash, two digits, a slash, four digits. *)
Definition isCanonicalDate (s : jsstring) : bool :=
  match s with
  | [m1; m2; s1; d1; d2; s2; y1; y2; y3; y4] =>
      forallb isDigit [m1; m2; d1; d2; y1; y2; y3; y4] && N.eqb s1 47 && N.eqb s2 47
  | _ => false
  end.

(** *** What a match means

    [den r prev w rest pos c c']: the pattern [r] matches the text [w]
    found at offset [pos], with [prev] the code unit before it and [rest]
    the input after it, and turns the captures [c] into [c']. *)
Inductive den : regex -> option char -> jsstring -> jsstring -> nat -> caps -> caps -> Prop :=
| den_empty prev rest pos c :
    den REmpty prev [] rest pos c c
| den_set p x prev rest pos c :
    p x = true -> den (RSet p) prev [x] rest pos c c
| den_seq r1 r2 prev w1 w2 rest pos c c1 c2 :
    den r1 prev w1 (w2 ++ rest) pos c c1 ->
    den r2 (prev_after prev w1) w2 rest (pos + length w1) c1 c2 ->
    den (RSeq r1 r2) prev (w1 ++ w2) rest pos c c2
| den_alt_l r1 r2 prev w rest pos c c' :
    den r1 prev w rest pos c c' -> den (RAlt r1 r2) prev w rest pos c c'
| den_alt_r r1 r2 prev w rest pos c c' :
    den r2 prev w rest pos c c' -> den (RAlt r1 r2) prev w rest pos c c'
| den_rep_stop lo hi r prev rest pos c :
    lo = 0 \/ hi = Some 0 ->
    den (RRep lo hi r) prev [] rest pos c c
| den_rep_more lo hi r prev w1 w2 rest pos c c1 c2 :
    hi <> Some 0 ->
    den r prev w1 (w2 ++ rest) pos c c1 ->
    den (RRep (Nat.pred lo) (dec_hi hi) r) (prev_after prev w1) w2 rest
        (pos + length w1) c1 c2 ->
    den (RRep lo hi r) prev (w1 ++ w2) rest pos c c2
| den_group i r prev w rest pos c c1 :
    den r prev w rest pos c c1 ->
    den (RGroup i r) prev w rest pos c ((i, (pos, pos + length w)) :: c1)
| den_bol rest pos c :
    den RBol None [] rest pos c c
| den_eol prev pos c :
    den REol prev [] [] pos c c
| den_wordb prev rest pos c :
    xorb (word_before prev) (word_after rest) = true ->
    den RWordB prev [] rest pos c c.

(** The patterns inside the capturing groups numbered [i] of [r]. *)
Fixpoint bodies (i : nat) (r : regex) : list regex :=
  match r with
  | RGroup j r1 => (if Nat.eqb i j then [r1] else []) ++ bodies i r1
  | RSeq r1 r2 => bodies i r1 ++ bodies i r2
  | RAlt r1 r2 => bodies i r1 ++ bodies i r2
  | RRep _ _ r1 => bodies i r1
  | _ => []
  end.

(** What a matcher owes its continuation. *)
Definition sound_for (r : regex)
    (ma : option char -> jsstring -> nat -> caps -> cont -> option (nat * caps)) : Prop :=
  forall prev s pos c k res,
    ma prev s pos c k = Some res ->
    exists w rest c',
      s = w ++ rest
      /\ den r prev w rest pos c c'
      /\ k (prev_after prev w) rest (pos + length w) c' = Some res.

(** Whether every match of [r] sets the capture [i]. *)
Fixpoint always_captures (i : nat) (r : regex) : bool :=
  match r with
  | RGroup j r1 => Nat.eqb i j || always_captures i r1
  | RSeq r1 r2 => always_captures i r1 || always_captures i r2
  | RAlt r1 r2 => always_captures i r1 && always_captures i r2
  | _ => false
  end.

(** Five digits, or five digits, a dash and four digits. *)
Definition isZipText (z : jsstring) : bool :=
  match z with
  | [a; b; c; d; e] => forallb isDigit [a; b; c; d; e]
  | [a; b; c; d; e; h; f; g; i; j] =>
      forallb isDigit [a; b; c; d; e; f; g; i; j] && N.eqb h 45
  | _ => false
  end.

(** [z] occurs in [l]. *)
Definition piece_of (z l : jsstring) : Prop :=
  exists pre rest, l = pre ++ z ++ rest.

(** What [replace(/ /g, " ")] does to one code unit. *)
Definition nbspToSpace (c : char) : char := if N.eqb c 160 then 32%N else c.

(** The units a download name is made of: letters, digits, period,
    hyphen and underscore. *)
Definition safeChar (c : char) : bool :=
  isAlpha c || isDigit c || is_chr ".-" c || N.eqb c 95.

(** The three numbers of an item are all there and none is NaN. *)
Definition numbers_finite (it : item) : Prop :=
  exists q r a,
    qty it = Some (Fin q) /\ rate it = Some (Fin r) /\ amount it = Some (Fin a).

(** The three numbers of an item are all absent. *)
Definition numbers_absent (it : item) : Prop :=
  qty it = None /\ rate it = None /\ amount it = None.

(** The activity is a token (or empty) and the description is trimmed. *)
Definition texts_tidy (it : item) : Prop :=
  forallb tokenChar (activity it) = true /\ trim (description it) = description it.

(** The units of a money text before the cents. *)
Definition moneyUnit (c : char) : bool := isDigit c || N.eqb c 44.

(** The cents, or the fraction of a quantity: nothing, or a period and
    digits. *)
Definition fraction (fr : jsstring) : Prop :=
  fr = [] \/ exists fs, fr = 46%N :: fs /\ fs <> [] /\ forallb isDigit fs = true.

(** What [unmoney] keeps of a text: everything but dollar signs and
    commas. *)
Definition strip (w : jsstring) : jsstring :=
  filter (fun c => negb (is_chr "," c)) (filter (fun c => negb (is_chr "$" c)) w).

(** The items of a list are well formed: their texts are tidy, each has
    all three numbers or none, and all after the first have them. *)
Definition well_formed (out : list item) : Prop :=
  Forall texts_tidy out
  /\ Forall (fun it => numbers_finite it \/ numbers_absent it) out
  /\ Forall numbers_finite (tl out).

(** *** The wording of the specification and sample inputs *)

(** The stop condition as the specification words it: the first pattern
    is [^(Subtotal|Sub-Total|Tax|Sales Tax|Total|Balance Due)],
    case-insensitive, with nothing required after the word. *)
Definition claimedStopRow (line : jsstring) : bool :=
  test (seqs [RBol;
              RGroup 1 (alts [str_i "Subtotal"; str_i "Sub-Total"; str_i "Tax";
                              str_i "Sales Tax"; str_i "Total"; str_i "Balance Due"])])
       line
  || test stopInvoice_re line || test stopPage_re line.

(** The fallback as the specification's test section words it: the last
    50 lines, in reverse order. *)
Definition lastFiftyReversed (lines : list jsstring) : list jsstring :=
  rev (skipn (length lines - 50) lines).

Definition tableHeaderLine : jsstring := lit "ACTIVITY DESCRIPTION QTY RATE AMOUNT".
Definition labourLine : jsstring := lit "LBR Labor - site visit 2 50.00 100.00".

Definition fiftyTwoLines : list jsstring :=
  lit "11111" :: repeat (lit "x") 50 ++ [lit "22222"].

Definition fortyFillerLines : list jsstring := repeat (lit "Page header") 40.



(** A request that is not JSON, and a JSON request without a PDF. *)
Definition plainTextRequest : Handler.event :=
  Handler.Event (Some [(lit "content-type", lit "text/plain")]) (Some (lit "hello")).

Definition noBase64Request : Handler.event :=
  Handler.Event (Some [(lit "content-type", lit "application/json")])
                (Some (lit "{ }")).

(* ================================================================== *)
(** * Properties of the matcher *)

Module RegexFacts.

Lemma agree_from_weaken n pos pos' k1 k2 :
  pos <= pos' -> agree_from n pos k1 k2 -> agree_from n pos' k1 k2.
Proof.
  intros Hle H prev s p c Hn Hp. apply H; [assumption | lia].
Qed.

Lemma rep_local n ma :
  local n ma -> forall fuel lo hi, local n (repeatMatcher ma fuel lo hi).
Proof.
  intros Hma fuel. induction fuel as [|f IH]; intros lo hi prev s pos c k1 k2 Hn Hk.
  - reflexivity.
  - simpl.
    assert (Hmore :
      ma prev s pos c
        (fun prev' s' pos' c' =>
           if (Nat.eqb lo 0 && Nat.eqb pos' pos)%bool then None
           else repeatMatcher ma f (Nat.pred lo) (dec_hi hi) prev' s' pos' c' k1)
      = ma prev s pos c
        (fun prev' s' pos' c' =>
           if (Nat.eqb lo 0 && Nat.eqb pos' pos)%bool then None
           else repeatMatcher ma f (Nat.pred lo) (dec_hi hi) prev' s' pos' c' k2)).
    { apply Hma; [assumption|].
      intros prev' s' pos' c' Hn' Hp'.
      destruct (Nat.eqb lo 0 && Nat.eqb pos' pos)%bool; [reflexivity|].
      apply IH; [assumption|]. eapply agree_from_weaken; eassumption. }
    assert (Hk0 : k1 prev s pos c = k2 prev s pos c) by (apply Hk; [assumption | lia]).
    destruct hi as [[|h]|]; [assumption | |]; rewrite Hmore, Hk0; reflexivity.
Qed.

Lemma m_local n r : local n (m r).
Proof.
  induction r as [ |p|r1 IH1 r2 IH2|r1 IH1 r2 IH2|lo hi r1 IH1|i r1 IH1| | | ];
    intros prev s pos c k1 k2 Hn Hk; cbn [m].
  - apply Hk; [assumption | lia].
  - destruct s as [|x s']; [reflexivity|].
    destruct (p x); [|reflexivity].
    apply Hk; simpl in *; lia.
  - apply IH1; [assumption|].
    intros prev' s' pos' c' Hn' Hp'. apply IH2; [assumption|].
    eapply agree_from_weaken; eassumption.
  - rewrite (IH1 prev s pos c k1 k2 Hn Hk), (IH2 prev s pos c k1 k2 Hn Hk). reflexivity.
  - exact (@rep_local n (m r1) IH1 _ lo hi prev s pos c k1 k2 Hn Hk).
  - apply IH1; [assumption|].
    intros prev' s' pos' c' Hn' Hp'. apply Hk; assumption.
  - destruct prev; [reflexivity|]. apply Hk; [assumption | lia].
  - destruct s; [|reflexivity]. apply Hk; [assumption | lia].
  - destruct (xorb _ _); [|reflexivity]. apply Hk; [assumption | lia].
Qed.

(** The iteration bound of [repeatMatcher] is never what ends a repetition: any
    larger bound gives the same result. *)
Lemma rep_fuel_enough n ma :
  local n ma ->
  forall f1 f2 lo hi prev s pos c k,
    pos + length s = n ->
    lo + length s < f1 -> lo + length s < f2 ->
    repeatMatcher ma f1 lo hi prev s pos c k = repeatMatcher ma f2 lo hi prev s pos c k.
Proof.
  intros Hma f1. induction f1 as [|f1 IH]; intros f2 lo hi prev s pos c k Hn H1 H2.
  - lia.
  - destruct f2 as [|f2]; [lia|]. simpl.
    assert (Hmore :
      ma prev s pos c
        (fun prev' s' pos' c' =>
           if (Nat.eqb lo 0 && Nat.eqb pos' pos)%bool then None
           else repeatMatcher ma f1 (Nat.pred lo) (dec_hi hi) prev' s' pos' c' k)
      = ma prev s pos c
        (fun prev' s' pos' c' =>
           if (Nat.eqb lo 0 && Nat.eqb pos' pos)%bool then None
           else repeatMatcher ma f2 (Nat.pred lo) (dec_hi hi) prev' s' pos' c' k)).
    { apply Hma; [assumption|].
      intros prev' s' pos' c' Hn' Hp'.
      destruct (Nat.eqb lo 0) eqn:Hlo; simpl.
      - destruct (Nat.eqb pos' pos) eqn:Hpp; [reflexivity|].
        apply Nat.eqb_eq in Hlo. apply Nat.eqb_neq in Hpp.
        apply IH; [assumption | |]; subst lo; simpl; lia.
      - apply Nat.eqb_neq in Hlo. apply IH; [assumption | |]; lia. }
    rewrite Hmore. reflexivity.
Qed.

Corollary RRep_fuel_enough lo hi r fuel prev s pos c k :
  lo + length s < fuel ->
  m (RRep lo hi r) prev s pos c k = repeatMatcher (m r) fuel lo hi prev s pos c k.
Proof.
  intros Hf. cbn [m].
  apply (@rep_fuel_enough (pos + length s) (m r) (@m_local _ r)); [reflexivity | lia | lia].
Qed.

Lemma search_unfold r prev s pos :
  search r prev s pos
  = match m r prev s pos [] accept with
    | Some (e, c) => Some (MResult pos e c)
    | None =>
        match s with
        | [] => None
        | x :: s' => search r (Some x) s' (S pos)
        end
    end.
Proof. destruct s; reflexivity. Qed.

(** A run of digits is taken whole by a greedy [\d{lo,hi}] when what
    follows the pattern then matches. *)
Lemma rep_digits_greedy ma ds :
  (forall prev s pos c k,
     ma prev s pos c k
     = match s with
       | x :: s' => if isDigit x then k (Some x) s' (S pos) c else None
       | [] => None
       end) ->
  forall fuel lo hi prev rest pos c k res,
  forallb isDigit ds = true ->
  match rest with [] => True | x :: _ => isDigit x = false end ->
  lo <= length ds ->
  (forall h, hi = Some h -> length ds <= h) ->
  lo + length (ds ++ rest) < fuel ->
  k (prev_after prev ds) rest (pos + length ds) c = Some res ->
  repeatMatcher ma fuel lo hi prev (ds ++ rest) pos c k = Some res.
Proof.
  intros Hma.
  induction ds as [|d ds' IH]; intros fuel lo hi prev rest pos c k res Hd Hrest Hlo Hhi Hf Hk.
  - simpl in *. rewrite Nat.add_0_r in Hk.
    destruct fuel as [|f]; [lia|]. assert (lo = 0) by lia. subst lo.
    cbn [repeatMatcher].
    assert (Hnone : forall k', ma prev rest pos c k' = None).
    { intros k'. rewrite Hma. destruct rest as [|x rest']; [reflexivity|].
      rewrite Hrest. reflexivity. }
    destruct hi as [[|h]|]; [assumption | |]; cbv zeta; rewrite Hnone; assumption.
  - cbn [forallb] in Hd. apply andb_true_iff in Hd. destruct Hd as [Hd Hds].
    cbn [length] in *. destruct fuel as [|f]; [lia|].
    assert (Hh' : forall h, dec_hi hi = Some h -> length ds' <= h).
    { intros h Hh. destruct hi as [h0|]; [|discriminate].
      simpl in Hh. inversion Hh. specialize (Hhi h0 eq_refl). lia. }
    assert (Hrec : repeatMatcher ma f (Nat.pred lo) (dec_hi hi) (Some d) (ds' ++ rest) (S pos) c k
                   = Some res).
    { apply IH; try assumption.
      - lia.
      - rewrite length_app in *. simpl in Hf. lia.
      - replace (S pos + length ds') with (pos + S (length ds')) by lia. exact Hk. }
    cbn [app repeatMatcher].
    destruct hi as [[|h]|]; [specialize (Hhi 0 eq_refl); lia | |].
    all: cbv zeta; rewrite Hma, Hd;
      replace (Nat.eqb (S pos) pos) with false by (symmetry; apply Nat.eqb_neq; lia);
      rewrite andb_false_r, Hrec; destruct lo; reflexivity.
Qed.

Lemma m_digits_greedy lo hi ds prev rest pos c k res :
  forallb isDigit ds = true ->
  match rest with [] => True | x :: _ => isDigit x = false end ->
  lo <= length ds <= hi ->
  k (prev_after prev ds) rest (pos + length ds) c = Some res ->
  m (times lo hi digit) prev (ds ++ rest) pos c k = Some res.
Proof.
  intros Hd Hrest [Hlo Hhi] Hk.
  change (m (times lo hi digit) prev (ds ++ rest) pos c k)
    with (repeatMatcher (m digit) (S (lo + length (ds ++ rest))) lo (Some hi) prev (ds ++ rest) pos c k).
  apply rep_digits_greedy; try assumption.
  - reflexivity.
  - intros h Hh. inversion Hh. subst. assumption.
  - lia.
Qed.

(** A one-unit pattern is found exactly when some unit satisfies it. *)
Lemma search_RSet p s : forall prev pos,
  (match search (RSet p) prev s pos with Some _ => true | None => false end)
  = existsb p s.
Proof.
  induction s as [|x s' IH]; intros prev pos; simpl.
  - reflexivity.
  - destruct (p x); simpl; [reflexivity | apply IH].
Qed.

Lemma test_RSet p s : test (RSet p) s = existsb p s.
Proof. unfold test, exec. apply search_RSet. Qed.

(** Replacing every occurrence of one code unit. *)
Lemma replace_loop_step r repl prev x s' pos :
  replace_loop r repl prev (x :: s') pos 0
  = match m r prev (x :: s') pos [] accept with
    | Some (e, _) =>
        repl ++ (if Nat.eqb e pos then x :: replace_loop r repl (Some x) s' (S pos) 0
                 else replace_loop r repl (Some x) s' (S pos) (e - pos - 1))
    | None => x :: replace_loop r repl (Some x) s' (S pos) 0
    end.
Proof. reflexivity. Qed.

Lemma replace_loop_one c repl s : forall prev pos,
  replace_loop (one c) repl prev s pos 0
  = flat_map (fun x => if N.eqb c x then repl else [x]) s.
Proof.
  induction s as [|x s' IH]; intros prev pos.
  - reflexivity.
  - rewrite replace_loop_step. cbn [m one flat_map]. unfold accept.
    destruct (N.eqb c x).
    + replace (Nat.eqb (S pos) pos) with false
        by (symmetry; apply Nat.eqb_neq; lia).
      replace (S pos - pos - 1) with 0 by lia.
      rewrite IH. reflexivity.
    + rewrite IH. reflexivity.
Qed.

Lemma replace_g_one c repl s :
  replace_g (one c) repl s = flat_map (fun x => if N.eqb c x then repl else [x]) s.
Proof. apply replace_loop_one. Qed.

End RegexFacts.

(* ================================================================== *)
(** * The CSV round trip *)

Module CsvFacts.
Import CsvReader RegexFacts.

Lemma csvSpecial_split c :
  csvSpecial c = false ->
  is_quote c = false /\ is_comma c = false /\ is_lf c = false.
Proof.
  unfold csvSpecial, is_quote, is_comma, is_lf. intros H.
  repeat (apply orb_false_iff in H; destruct H as [H ?]). auto.
Qed.

Lemma read_delimited_Bare s : delimited s -> read Bare s = read Start s.
Proof.
  destruct s as [|c s']; [reflexivity|]. simpl. intros [H|H].
  - rewrite H. unfold is_comma in H. apply N.eqb_eq in H. subst c. reflexivity.
  - rewrite H. unfold is_lf in H. apply N.eqb_eq in H. subst c. reflexivity.
Qed.

Lemma read_delimited_QuoteSeen s : delimited s -> read QuoteSeen s = read Start s.
Proof.
  destruct s as [|c s']; [reflexivity|]. simpl. intros [H|H].
  - rewrite H. unfold is_comma in H. apply N.eqb_eq in H. subst c. reflexivity.
  - rewrite H. unfold is_lf in H. apply N.eqb_eq in H. subst c. reflexivity.
Qed.

(** An unquoted field is read back up to the delimiter. *)
Lemma read_bare_field f rest :
  existsb csvSpecial f = false -> delimited rest ->
  read Bare (f ++ rest) = add_chars f (read Start rest).
Proof.
  induction f as [|c f' IH]; intros Hf Hrest; simpl.
  - apply read_delimited_Bare; assumption.
  - simpl in Hf. apply orb_false_iff in Hf. destruct Hf as [Hc Hf].
    destruct (csvSpecial_split _ Hc) as (Hq & Hcm & Hlf).
    rewrite Hcm, Hlf, IH; auto.
Qed.

Lemma read_start_bare_field f rest :
  existsb csvSpecial f = false -> delimited rest ->
  read Start (f ++ rest) = add_chars f (read Start rest).
Proof.
  destruct f as [|c f']; intros Hf Hrest.
  - reflexivity.
  - simpl in Hf. apply orb_false_iff in Hf. destruct Hf as [Hc Hf].
    destruct (csvSpecial_split _ Hc) as (Hq & Hcm & Hlf).
    simpl. rewrite Hq, Hcm, Hlf, read_bare_field; auto.
Qed.

(** The body of a quoted field, with its quotes doubled, is read back up
    to the closing quote. *)
Lemma read_quoted_field f rest :
  delimited rest ->
  read Quoted (flat_map (fun x => if N.eqb 34 x then dquote ++ dquote else [x]) f
               ++ 34%N :: rest)
  = add_chars f (read Start rest).
Proof.
  intros Hrest. induction f as [|c f' IH].
  - simpl. apply read_delimited_QuoteSeen; assumption.
  - cbn [flat_map add_chars]. destruct (N.eqb 34 c) eqn:E.
    + apply N.eqb_eq in E. subst c.
      unfold dquote at 1 2. cbn [app read is_quote N.eqb Pos.eqb].
      f_equal. exact IH.
    + cbn [app read]. unfold is_quote at 1. rewrite N.eqb_sym, E, IH. reflexivity.
Qed.

(** Every escaped field is read back, whatever it contains. *)
Lemma read_escaped_field f rest :
  delimited rest ->
  read Start (escapeCsv (Some f) ++ rest) = add_chars f (read Start rest).
Proof.
  intros Hrest. unfold escapeCsv. rewrite test_RSet.
  destruct (existsb csvSpecial f) eqn:E.
  - rewrite replace_g_one. rewrite <- !app_assoc.
    cbn [dquote app read is_quote N.eqb Pos.eqb].
    apply read_quoted_field; assumption.
  - apply read_start_bare_field; assumption.
Qed.

Lemma add_chars_front f g r rs :
  add_chars f ((g :: r) :: rs) = ((f ++ g) :: r) :: rs.
Proof.
  induction f as [|c f' IH]; simpl; [reflexivity|]. rewrite IH. reflexivity.
Qed.

Lemma rowText_cons f g fs :
  rowText (f :: g :: fs) = escapeCsv (Some f) ++ 44%N :: rowText (g :: fs).
Proof. reflexivity. Qed.

Lemma csvOfRows_cons r r2 rs :
  csvOfRows (r :: r2 :: rs) = rowText r ++ 10%N :: csvOfRows (r2 :: rs).
Proof. reflexivity. Qed.

(** A row of at least one field is read back up to the end of the row. *)
Lemma read_row fields : forall rest tl,
  fields <> [] -> delimited rest -> read Start rest = [[]] :: tl ->
  read Start (rowText fields ++ rest) = fields :: tl.
Proof.
  induction fields as [|f fs IH]; intros rest tl Hne Hrest Htl; [congruence|].
  destruct fs as [|g fs'].
  - change (rowText [f]) with (escapeCsv (Some f)).
    rewrite read_escaped_field, Htl, add_chars_front, app_nil_r by assumption.
    reflexivity.
  - rewrite rowText_cons, <- app_assoc, <- app_comm_cons.
    rewrite read_escaped_field by (simpl; left; reflexivity).
    cbn [read is_quote is_comma N.eqb Pos.eqb].
    pose proof (IH rest tl ltac:(discriminate) Hrest Htl) as E.
    unfold jsstring, char in *. rewrite E.
    cbn [new_field]. rewrite add_chars_front, app_nil_r. reflexivity.
Qed.

(** Reading an encoded table gives the table back. *)
Lemma read_csvOfRows rows :
  rows <> [] -> Forall (fun r => r <> []) rows ->
  readCsv (csvOfRows rows) = rows.
Proof.
  unfold readCsv.
  induction rows as [|r rs IH]; intros Hne Hall; [congruence|].
  inversion Hall as [|? ? Hr Hrs]; subst.
  destruct rs as [|r2 rs'].
  - change (csvOfRows [r]) with (rowText r).
    rewrite <- (app_nil_r (rowText r)).
    apply read_row; [assumption | exact I | reflexivity].
  - rewrite csvOfRows_cons.
    apply read_row; [assumption | simpl; right; reflexivity |].
    cbn [read is_quote is_comma is_lf N.eqb Pos.eqb]. unfold new_row.
    f_equal. apply IH; [discriminate | assumption].
Qed.

End CsvFacts.

(** C6.  Encoding a header record and reading the CSV text back, by
    comma and with the quoting respected, gives the column names and the
    five field values exactly as they were encoded (an absent field as
    the empty text); a customer [Acme, Inc.] is quoted in the CSV text
    and read back as [Acme, Inc.]. *)
Theorem headerCsv_round_trip :
  (forall h : header,
     CsvReader.readCsv (headerCsv h)
     = [ [lit "Customer"; lit "Rep"; lit "Date"; lit "Invoice"; lit "Zip"];
         [orEmpty (customer h); orEmpty (rep h); orEmpty (date h);
          orEmpty (invoice h); orEmpty (zip h)] ])
  /\ headerCsv (Header (Some (lit "Acme, Inc.")) None None None None)
     = lit "Customer,Rep,Date,Invoice,Zip" ++ [10%N]
       ++ dquote ++ lit "Acme, Inc." ++ dquote ++ lit ",,,,"
  /\ CsvReader.readCsv (headerCsv (Header (Some (lit "Acme, Inc.")) None None None None))
     = [ [lit "Customer"; lit "Rep"; lit "Date"; lit "Invoice"; lit "Zip"];
         [lit "Acme, Inc."; []; []; []; []] ].
Proof.
  split; [|split].
  - intros h. unfold headerCsv.
    rewrite CsvFacts.read_csvOfRows; [reflexivity | discriminate |].
    repeat constructor; discriminate.
  - vm_compute. reflexivity.
  - vm_compute. reflexivity.
Qed.

(* ================================================================== *)
(** * The table locator and the row parser *)

Module ParserFacts.

Lemma findTableStart_from_none lines : forall i,
  (forall l, In l lines -> isTableHeader l = false) ->
  findTableStart_from lines i = (-1)%Z.
Proof.
  induction lines as [|l lines' IH]; intros i H; simpl.
  - reflexivity.
  - rewrite (H l) by (left; reflexivity). apply IH.
    intros l' Hl'. apply H. right. assumption.
Qed.

(** The locator returns the index of the first header line. *)
Lemma findTableStart_from_first pre l rest : forall i,
  (forall x, In x pre -> isTableHeader x = false) ->
  isTableHeader l = true ->
  findTableStart_from (pre ++ l :: rest) i = (i + Z.of_nat (length pre))%Z.
Proof.
  induction pre as [|x pre' IH]; intros i Hpre Hl.
  - simpl. rewrite Hl. lia.
  - cbn [app findTableStart_from]. rewrite (Hpre x) by (left; reflexivity).
    rewrite IH; [cbn [length]; lia | | assumption].
    intros y Hy. apply Hpre. right. assumption.
Qed.

Lemma step_stop out raw : shouldStopRow raw = true -> step out raw = None.
Proof. intros H. unfold step, classify. rewrite H. reflexivity. Qed.

(** A stop row ends the loop: what comes after it is never looked at. *)
Lemma parseLoop_stop pre raw post : forall out,
  shouldStopRow raw = true ->
  parseLoop out (pre ++ raw :: post) = parseLoop out pre.
Proof.
  induction pre as [|x pre' IH]; intros out H.
  - simpl. rewrite step_stop by assumption. reflexivity.
  - cbn [app parseLoop]. destruct (step out x); [apply IH; assumption | reflexivity].
Qed.

Lemma parseLoop_runSteps pre rest : forall out out',
  runSteps out pre = Some out' ->
  parseLoop out (pre ++ rest) = parseLoop out' rest.
Proof.
  induction pre as [|x pre' IH]; intros out out' H; simpl in *.
  - inversion H. reflexivity.
  - destruct (step out x); [apply IH; assumption | discriminate].
Qed.

Lemma skipn_split (lines : list jsstring) i raw n :
  nth_error lines i = Some raw -> n <= i ->
  skipn n lines = skipn n (firstn i lines) ++ raw :: skipn (S i) lines.
Proof.
  intros Hnth Hle.
  assert (Hlen : i < length lines) by (apply nth_error_Some; congruence).
  assert (Hsplit : lines = firstn i lines ++ raw :: skipn (S i) lines).
  { rewrite <- (firstn_skipn i lines) at 1. f_equal.
    clear Hle. revert i Hnth Hlen. induction lines as [|x xs IH]; intros [|i] Hn Hl;
      simpl in *; try lia; try discriminate.
    - inversion Hn. reflexivity.
    - apply IH; [assumption | lia]. }
  rewrite Hsplit at 1. rewrite skipn_app.
  rewrite firstn_length_le by lia.
  replace (n - i) with 0 by lia. reflexivity.
Qed.

End ParserFacts.



(** C2, as stated, fails: a row that begins with [Taxable] matches the
    pattern of the specification, and the parser makes an item of it. *)
Lemma claimed_stop_row_not_honoured :
  ~ (forall (lines : list jsstring) (headerIdx : Z) (i : nat) (raw : jsstring),
       (headerIdx < Z.of_nat i)%Z ->
       nth_error lines i = Some raw ->
       claimedStopRow raw = true ->
       parseLines lines headerIdx = parseLines (firstn i lines) headerIdx).
Proof.
  intros H.
  specialize (H [tableHeaderLine; lit "Taxable widget 1 2.00 2.00"] 0%Z 1
                (lit "Taxable widget 1 2.00 2.00")).
  assert (E : parseLines [tableHeaderLine; lit "Taxable widget 1 2.00 2.00"] 0
              = parseLines (firstn 1 [tableHeaderLine; lit "Taxable widget 1 2.00 2.00"]) 0).
  { apply H; [lia | reflexivity | vm_compute; reflexivity]. }
  vm_compute in E. discriminate E.
Qed.

(** C2, amended.  When a line after the header satisfies the stop
    condition of [shouldStopRow] (the listed words followed by a word
    boundary, [INVOICE] as a word, or [Page] and a number, in any case),
    the parser's result is the one it gives on the lines before that one:
    no item comes from that line or from any later line.  A line
    [Subtotal 100.00] in the middle of a table halts the collection. *)
Theorem stop_row_halts_parsing :
  (forall (lines : list jsstring) (headerIdx : Z) (i : nat) (raw : jsstring),
     (headerIdx < Z.of_nat i)%Z ->
     nth_error lines i = Some raw ->
     shouldStopRow raw = true ->
     parseLines lines headerIdx = parseLines (firstn i lines) headerIdx)
  /\ (forall later : list jsstring,
        parseLines ([tableHeaderLine; labourLine; lit "Subtotal 100.00"] ++ later) 0
        = [Item (lit "LBR") (lit "Labor - site visit")
                (Some (Fin 2)) (Some (Fin 50)) (Some (Fin 100))]).
Proof.
  assert (G : forall (lines : list jsstring) (headerIdx : Z) (i : nat) (raw : jsstring),
     (headerIdx < Z.of_nat i)%Z ->
     nth_error lines i = Some raw ->
     shouldStopRow raw = true ->
     parseLines lines headerIdx = parseLines (firstn i lines) headerIdx).
  { intros lines headerIdx i raw Hlt Hnth Hstop. unfold parseLines.
    destruct (headerIdx <? 0)%Z eqn:Hneg; [reflexivity|].
    apply Z.ltb_ge in Hneg.
    rewrite (@ParserFacts.skipn_split lines i raw (Z.to_nat (headerIdx + 1)) Hnth) by lia.
    apply ParserFacts.parseLoop_stop. assumption. }
  split; [exact G|].
  intros later.
  rewrite (G _ 0%Z 2 (lit "Subtotal 100.00"));
    [vm_compute; reflexivity | lia | reflexivity | vm_compute; reflexivity].
Qed.

Lemma stop_row_halts_parsing_witness :
  parseLines [tableHeaderLine; labourLine; lit "TOTAL 100.00"; labourLine] 0
  = parseLines (firstn 2 [tableHeaderLine; labourLine; lit "TOTAL 100.00"; labourLine]) 0.
Proof.
  apply (proj1 stop_row_halts_parsing _ 0%Z 2 (lit "TOTAL 100.00")).
  - lia.
  - reflexivity.
  - vm_compute. reflexivity.
Defined.

(** C3.  When no line matches all five keyword classes, the locator
    returns -1, the parser returns no item, and the line-items CSV is its
    header row alone. *)
Theorem no_table_header_no_items (numToString : num -> jsstring) (lines : list jsstring) :
  (forall l, In l lines -> isTableHeader l = false) ->
  findTableStart lines = (-1)%Z
  /\ parseLines lines (findTableStart lines) = []
  /\ linesCsv numToString (parseLines lines (findTableStart lines))
     = lit "Activity,Description,Qty,Rate,Amount".
Proof.
  intros H.
  assert (E : findTableStart lines = (-1)%Z)
    by (apply ParserFacts.findTableStart_from_none; assumption).
  rewrite E. repeat split.
Qed.

Lemma no_table_header_no_items_witness :
  findTableStart [lit "Invoice 42"; lit "ACTIVITY DESCRIPTION"; labourLine] = (-1)%Z
  /\ parseLines [lit "Invoice 42"; lit "ACTIVITY DESCRIPTION"; labourLine]
       (findTableStart [lit "Invoice 42"; lit "ACTIVITY DESCRIPTION"; labourLine]) = []
  /\ linesCsv (fun _ => lit "0")
       (parseLines [lit "Invoice 42"; lit "ACTIVITY DESCRIPTION"; labourLine]
          (findTableStart [lit "Invoice 42"; lit "ACTIVITY DESCRIPTION"; labourLine]))
     = lit "Activity,Description,Qty,Rate,Amount".
Proof.
  apply (@no_table_header_no_items (fun _ => lit "0")
           [lit "Invoice 42"; lit "ACTIVITY DESCRIPTION"; labourLine]).
  intros l [<- | [<- | [<- | []]]]; vm_compute; reflexivity.
Defined.

(* ================================================================== *)
(** * What may happen to an item once it is in the list *)

Module ItemFacts.
Import ParserFacts.

Lemma extends_refl a : extends_item a a.
Proof.
  repeat split. exists []. symmetry. apply app_nil_r.
Qed.

Lemma extends_trans a b c : extends_item a b -> extends_item b c -> extends_item a c.
Proof.
  intros (A1 & A2 & A3 & A4 & t1 & A5) (B1 & B2 & B3 & B4 & t2 & B5).
  repeat split; try congruence.
  exists (t1 ++ t2). rewrite B5, A5, app_assoc. reflexivity.
Qed.

Lemma appendDescription_extends it raw : extends_item it (appendDescription it raw).
Proof.
  repeat split. unfold appendDescription. cbn [description].
  destruct (description it) as [|c d].
  - exists (trim raw). reflexivity.
  - exists (lit " " ++ trim raw). rewrite <- app_assoc. reflexivity.
Qed.

Lemma updateLast_app f pre last : updateLast f (pre ++ [last]) = pre ++ [f last].
Proof.
  induction pre as [|x pre' IH]; [reflexivity|].
  cbn [app]. destruct (pre' ++ [last]) as [|y l] eqn:E.
  - destruct pre'; discriminate.
  - change (updateLast f (x :: y :: l)) with (x :: updateLast f (y :: l)).
    rewrite IH. reflexivity.
Qed.

Lemma list_last_split {A : Type} (l : list A) :
  l = [] \/ exists pre last, l = pre ++ [last].
Proof.
  destruct l as [|a l']; [left; reflexivity | right].
  destruct (@exists_last _ (a :: l')) as (pre & last & E); [discriminate|].
  exists pre, last. assumption.
Qed.

Lemma step_shape_of out raw out' :
  step out raw = Some out' -> step_shape raw out out'.
Proof.
  unfold step. destruct (classify out raw) eqn:E; intros H; inversion H; subst.
  - constructor.
  - constructor.
  - constructor.
  - destruct (list_last_split out) as [-> | (pre & last & ->)].
    + constructor.
    + rewrite updateLast_app. econstructor. reflexivity.
Qed.

Lemma evolves_refl out : evolves out out.
Proof.
  destruct (list_last_split out) as [-> | (pre & last & ->)]; [left; reflexivity | right].
  exists pre, last, last, [].
  split; [reflexivity | split; [reflexivity | apply extends_refl]].
Qed.

Lemma evolves_step raw out out' : step_shape raw out out' -> evolves out out'.
Proof.
  intros [ | it | pre last ->].
  - apply evolves_refl.
  - destruct (list_last_split out) as [-> | (pre & last & ->)]; [left; reflexivity | right].
    exists pre, last, last, [it]. rewrite <- app_assoc.
    split; [reflexivity | split; [reflexivity | apply extends_refl]].
  - right. exists pre, last, (appendDescription last raw), [].
    split; [reflexivity | split; [reflexivity | apply appendDescription_extends]].
Qed.

Lemma evolves_trans a b c : evolves a b -> evolves b c -> evolves a c.
Proof.
  intros [-> | (pre & last & last' & more & -> & -> & Hx)] Hbc; [left; reflexivity|].
  destruct Hbc as [E | (pre2 & l2 & l2' & more2 & E & -> & Hx2)].
  - destruct pre; discriminate.
  - right. destruct (list_last_split more) as [-> | (m' & z & ->)].
    + apply app_inj_tail in E. destruct E as [-> ->].
      exists pre2, last, l2', more2.
      split; [reflexivity | split; [reflexivity|]].
      eapply extends_trans; eassumption.
    + change (pre ++ last' :: m' ++ [z]) with (pre ++ (last' :: m') ++ [z]) in E.
      rewrite app_assoc in E. apply app_inj_tail in E. destruct E as [<- <-].
      exists pre, last, last', (m' ++ l2' :: more2).
      rewrite <- app_assoc.
      split; [reflexivity | split; [reflexivity | assumption]].
Qed.

Lemma parseLoop_evolves rest : forall out, evolves out (parseLoop out rest).
Proof.
  induction rest as [|raw rest' IH]; intros out; simpl.
  - apply evolves_refl.
  - destruct (step out raw) as [out'|] eqn:E.
    + eapply evolves_trans; [|apply IH].
      eapply evolves_step, step_shape_of. eassumption.
    + apply evolves_refl.
Qed.

Lemma sorted_snoc idxs i :
  StronglySorted lt idxs -> Forall (fun j => j < i) idxs ->
  StronglySorted lt (idxs ++ [i]).
Proof.
  induction 1 as [|j js Hs IH Hj]; intros Hall; simpl.
  - repeat constructor.
  - inversion Hall; subst. constructor; [apply IH; assumption|].
    apply Forall_app. split; [assumption | repeat constructor; assumption].
Qed.

Lemma Forall2_updateLast {A : Type} (P : A -> item -> Prop) f idxs out :
  (forall i x, P i x -> P i (f x)) ->
  Forall2 P idxs out -> Forall2 P idxs (updateLast f out).
Proof.
  intros Hf. induction 1 as [|i x idxs' out' Hix Hrest IH]; [constructor|].
  destruct out' as [|y out''].
  - inversion Hrest; subst. repeat constructor. apply Hf. assumption.
  - change (updateLast f (x :: y :: out'')) with (x :: updateLast f (y :: out'')).
    constructor; assumption.
Qed.

Lemma skipn_cons_nth {A : Type} (l : list A) : forall i x rest,
  skipn i l = x :: rest -> nth_error l i = Some x /\ skipn (S i) l = rest.
Proof.
  induction l as [|y l' IH]; intros [|i] x rest H; simpl in *; try discriminate.
  - inversion H. split; reflexivity.
  - apply IH. assumption.
Qed.

Lemma parseLoop_ordered lines lo rest : forall i out idxs,
  skipn i lines = rest -> lo <= i ->
  Forall2 (created_by lines) idxs out ->
  StronglySorted lt idxs ->
  Forall (fun j => lo <= j < i) idxs ->
  exists idxs',
    Forall2 (created_by lines) idxs' (parseLoop out rest)
    /\ StronglySorted lt idxs'
    /\ Forall (fun j => lo <= j) idxs'.
Proof.
  assert (Hw : forall i idxs, Forall (fun j => lo <= j < i) idxs ->
                              Forall (fun j => lo <= j) idxs).
  { intros i idxs H. eapply Forall_impl; [|exact H]. simpl. intros; lia. }
  induction rest as [|raw rest' IH]; intros i out idxs Hskip Hlo Hcr Hsorted Hrange.
  - exists idxs. simpl. eauto.
  - apply skipn_cons_nth in Hskip. destruct Hskip as [Hnth Hskip].
    assert (Hnext : Forall (fun j => lo <= j < S i) idxs).
    { eapply Forall_impl; [|exact Hrange]. simpl. intros; lia. }
    cbn [parseLoop]. unfold step.
    destruct (classify out raw) as [ | |it|it| ] eqn:Hc.
    + exists idxs. eauto.
    + apply (IH (S i) out idxs); auto.
    + apply (IH (S i) (out ++ [it]) (idxs ++ [i])); auto.
      * apply Forall2_app; [assumption|]. repeat constructor.
        exists raw, it, out. split; [assumption|]. split; [left; assumption|].
        apply extends_refl.
      * apply sorted_snoc; [assumption|].
        eapply Forall_impl; [|exact Hrange]. simpl. intros; lia.
      * apply Forall_app. split; [assumption|]. repeat constructor; lia.
    + apply (IH (S i) (out ++ [it]) (idxs ++ [i])); auto.
      * apply Forall2_app; [assumption|]. repeat constructor.
        exists raw, it, out. split; [assumption|]. split; [right; assumption|].
        apply extends_refl.
      * apply sorted_snoc; [assumption|].
        eapply Forall_impl; [|exact Hrange]. simpl. intros; lia.
      * apply Forall_app. split; [assumption|]. repeat constructor; lia.
    + apply (IH (S i) _ idxs); auto.
      apply Forall2_updateLast; [|assumption].
      intros j x (raw0 & it0 & out0 & H1 & H2 & H3).
      exists raw0, it0, out0. split; [assumption|]. split; [assumption|].
      eapply extends_trans; [eassumption | apply appendDescription_extends].
Qed.

End ItemFacts.

Lemma classify_seed out raw it :
  classify out raw = PushSeed it ->
  out = [] /\ seedItem raw = Some it
  /\ qty it = None /\ rate it = None /\ amount it = None.
Proof.
  unfold classify.
  destruct (shouldStopRow raw); [discriminate|].
  destruct (trim raw); [discriminate|].
  destruct (exec tailRe raw); [discriminate|].
  destruct out as [|x out']; simpl.
  - destruct (seedItem raw) as [it0|] eqn:E; [|discriminate].
    intros H. inversion H; subst it0.
    unfold seedItem in E. destruct (exec leadToken_re raw); [|discriminate].
    inversion E. repeat split.
  - discriminate.
Qed.

(** C4.  When the loop reaches a line [raw] with an empty item list and
    seeds an item from it, that item has qty, rate and amount absent, and
    it is the first item of the parser's result with the same activity and
    with qty, rate and amount still absent, whatever lines follow.  A
    following line of numbers alone makes an item of its own. *)
Theorem seeded_item_keeps_no_numbers :
  (forall (lines : list jsstring) (headerIdx : Z) (pre post : list jsstring)
          (raw : jsstring) (out : list item) (it : item),
     (0 <= headerIdx)%Z ->
     skipn (Z.to_nat (headerIdx + 1)) lines = pre ++ raw :: post ->
     runSteps [] pre = Some out ->
     classify out raw = PushSeed it ->
     qty it = None /\ rate it = None /\ amount it = None
     /\ exists it' rest,
          parseLines lines headerIdx = it' :: rest
          /\ activity it' = activity it
          /\ qty it' = None /\ rate it' = None /\ amount it' = None)
  /\ parseLines [tableHeaderLine; lit "LBR Labor"; lit "2 50.00 100.00"; lit "site visit"] 0
     = [Item (lit "LBR") (lit "Labor") None None None;
        Item [] (lit "site visit") (Some (Fin 2)) (Some (Fin 50)) (Some (Fin 100))].
Proof.
  split; [|vm_compute; reflexivity].
  intros lines headerIdx pre post raw out it Hh Hskip Hrun Hc.
  destruct (classify_seed _ _ Hc) as (-> & Hseed & Hq & Hr & Ha).
  repeat (split; [assumption|]).
  unfold parseLines.
  replace (headerIdx <? 0)%Z with false by (symmetry; apply Z.ltb_ge; assumption).
  rewrite Hskip, (ParserFacts.parseLoop_runSteps _ _ _ Hrun).
  cbn [parseLoop]. unfold step. rewrite Hc. cbn [app].
  destruct (ItemFacts.parseLoop_evolves post [it])
    as [E | (p & last & last' & more & E & -> & Hx)]; [discriminate|].
  destruct p as [|x p'].
  - inversion E; subst last. destruct Hx as (X1 & X2 & X3 & X4 & _).
    exists last', more. cbn [app]. repeat split; congruence.
  - inversion E. destruct p'; discriminate.
Qed.

Lemma seeded_item_keeps_no_numbers_witness :
  exists it' rest,
    parseLines [tableHeaderLine; lit "  "; lit "LBR Labor"; lit "2 50.00 100.00"] 0 = it' :: rest
    /\ activity it' = lit "LBR"
    /\ qty it' = None /\ rate it' = None /\ amount it' = None.
Proof.
  apply (proj1 seeded_item_keeps_no_numbers
           [tableHeaderLine; lit "  "; lit "LBR Labor"; lit "2 50.00 100.00"] 0%Z
           [lit "  "] [lit "2 50.00 100.00"] (lit "LBR Labor") []
           (Item (lit "LBR") (lit "Labor") None None None)).
  - lia.
  - reflexivity.
  - vm_compute. reflexivity.
  - vm_compute. reflexivity.
Defined.

(** C10.  Throughout row parsing: (a) an iteration leaves the list as it
    is, appends one item, or appends text to the description of the last
    item, and nothing else; (b) hence at every point of the loop the items
    so far stay in the result at their places, all but the last unchanged
    and the last with at most a longer description; (c) the items of the
    result stem from lines after the header at strictly increasing
    indices, one line per item. *)
Theorem row_parsing_invariants :
  (forall (out : list item) (raw : jsstring) (out' : list item),
     step out raw = Some out' ->
     out' = out
     \/ (exists it, out' = out ++ [it])
     \/ (exists pre last,
           out = pre ++ [last]
           /\ out' = pre ++ [appendDescription last raw]
           /\ extends_item last (appendDescription last raw)))
  /\ (forall (lines : list jsstring) (headerIdx : Z) (pre rest : list jsstring)
             (out : list item),
        (0 <= headerIdx)%Z ->
        skipn (Z.to_nat (headerIdx + 1)) lines = pre ++ rest ->
        runSteps [] pre = Some out ->
        out = []
        \/ exists before last last' more,
             out = before ++ [last]
             /\ parseLines lines headerIdx = before ++ last' :: more
             /\ extends_item last last')
  /\ (forall (lines : list jsstring) (headerIdx : Z),
        exists idxs : list nat,
          Forall2 (created_by lines) idxs (parseLines lines headerIdx)
          /\ StronglySorted lt idxs
          /\ Forall (fun j => (headerIdx < Z.of_nat j)%Z) idxs).
Proof.
  split; [|split].
  - intros out raw out' H.
    destruct (ItemFacts.step_shape_of _ _ H) as [ | it | pre last ->].
    + left. reflexivity.
    + right. left. exists it. reflexivity.
    + right. right. exists pre, last.
      split; [reflexivity | split; [reflexivity|]].
      apply ItemFacts.appendDescription_extends.
  - intros lines headerIdx pre rest out Hh Hskip Hrun.
    unfold parseLines.
    replace (headerIdx <? 0)%Z with false by (symmetry; apply Z.ltb_ge; assumption).
    rewrite Hskip, (ParserFacts.parseLoop_runSteps _ _ _ Hrun).
    exact (ItemFacts.parseLoop_evolves rest out).
  - intros lines headerIdx. unfold parseLines.
    destruct (headerIdx <? 0)%Z eqn:Hneg.
    + exists []. repeat constructor.
    + apply Z.ltb_ge in Hneg.
      destruct (@ItemFacts.parseLoop_ordered lines (Z.to_nat (headerIdx + 1))
                  (skipn (Z.to_nat (headerIdx + 1)) lines)
                  (Z.to_nat (headerIdx + 1)) [] [])
        as (idxs & H1 & H2 & H3); try constructor.
      exists idxs. split; [assumption|]. split; [assumption|].
      eapply Forall_impl; [|exact H3]. simpl. intros j Hj. lia.
Qed.

Lemma row_parsing_invariants_witness :
  [Item (lit "LBR") (lit "Labor") None None None; Item [] [] (Some (Fin 2)) (Some (Fin 50)) (Some (Fin 100))] = []
  \/ exists before last last' more,
       [Item (lit "LBR") (lit "Labor") None None None; Item [] [] (Some (Fin 2)) (Some (Fin 50)) (Some (Fin 100))]
       = before ++ [last]
       /\ parseLines [tableHeaderLine; lit "LBR Labor"; lit "2 50.00 100.00"; lit "site visit"] 0
          = before ++ last' :: more
       /\ extends_item last last'.
Proof.
  apply (proj1 (proj2 row_parsing_invariants)
           [tableHeaderLine; lit "LBR Labor"; lit "2 50.00 100.00"; lit "site visit"] 0%Z
           [lit "LBR Labor"; lit "2 50.00 100.00"] [lit "site visit"]).
  - lia.
  - reflexivity.
  - vm_compute. reflexivity.
Defined.

(* ================================================================== *)
(** * The field extractors *)

Module ScanFacts.

Lemma first_some_none {A B : Type} (f : A -> option B) l :
  (forall x, In x l -> f x = None) -> first_some f l = None.
Proof.
  induction l as [|y l' IH]; intros H; simpl; [reflexivity|].
  rewrite (H y) by (left; reflexivity). apply IH.
  intros x Hx. apply H. right. assumption.
Qed.

Lemma first_some_first {A B : Type} (f : A -> option B) pre x post v :
  (forall y, In y pre -> f y = None) -> f x = Some v ->
  first_some f (pre ++ x :: post) = Some v.
Proof.
  induction pre as [|y pre' IH]; intros Hpre Hx; simpl.
  - rewrite Hx. reflexivity.
  - rewrite (Hpre y) by (left; reflexivity). apply IH; [|assumption].
    intros z Hz. apply Hpre. right. assumption.
Qed.

Lemma test_exec r l : test r l = true -> exists mr, exec r l = Some mr.
Proof.
  unfold test. destruct (exec r l) as [mr|]; [eauto | discriminate].
Qed.

End ScanFacts.

(** C8, as stated, fails: with more than 50 lines and no state-bearing
    line, the fallback does not look at the last 50 lines. *)
Lemma zip_fallback_not_last_fifty :
  ~ (forall lines : list jsstring,
       (forall l, In l lines -> stateAndZip l = false) ->
       findZip lines = first_some zipOf (lastFiftyReversed lines)).
Proof.
  intros H. specialize (H fiftyTwoLines).
  assert (E : findZip fiftyTwoLines = first_some zipOf (lastFiftyReversed fiftyTwoLines)).
  { apply H. intros l Hl.
    assert (Hall : forallb (fun l => negb (stateAndZip l)) fiftyTwoLines = true)
      by (vm_compute; reflexivity).
    rewrite forallb_forall in Hall. apply Hall in Hl.
    destruct (stateAndZip l); [discriminate | reflexivity]. }
  vm_compute in E. discriminate E.
Qed.

(** C8, amended.  Both passes scan the first 50 lines.  When none of them
    has a state abbreviation as a word together with a ZIP pattern, the
    result is the ZIP (five digits, with the four-digit extension if it is
    there) of the last of those lines that has one, or nothing when none
    has; when some of them has both, the result is the ZIP of the first
    such line, [62704] for [Springfield, IL 62704]. *)
Theorem findZip_two_passes :
  (forall lines : list jsstring,
     (forall l, In l (firstn 50 lines) -> stateAndZip l = false) ->
     (forall before l after z,
        firstn 50 lines = before ++ l :: after ->
        zipOf l = Some z ->
        (forall x, In x after -> zipOf x = None) ->
        findZip lines = Some z)
     /\ ((forall l, In l (firstn 50 lines) -> zipOf l = None) ->
         findZip lines = None))
  /\ (forall (lines before : list jsstring) (l : jsstring) (after : list jsstring),
        firstn 50 lines = before ++ l :: after ->
        stateAndZip l = true ->
        (forall x, In x before -> stateAndZip x = false) ->
        exists z, zipOf l = Some z /\ findZip lines = Some z)
  /\ findZip [lit "Springfield, IL 62704"] = Some (lit "62704").
Proof.
  split; [|split].
  - intros lines Hno.
    assert (P1 : first_some (fun l => if stateAndZip l then zipOf l else None)
                            (firstn 50 lines) = None).
    { apply ScanFacts.first_some_none. intros x Hx. rewrite (Hno x Hx). reflexivity. }
    unfold findZip. rewrite P1. split.
    + intros before l after z Hsplit Hz Hafter.
      rewrite Hsplit, rev_app_distr. cbn [rev]. rewrite <- app_assoc.
      apply ScanFacts.first_some_first; [|assumption].
      intros y Hy. apply Hafter. apply in_rev. assumption.
    + intros Hnone. apply ScanFacts.first_some_none.
      intros x Hx. apply Hnone. apply in_rev. assumption.
  - intros lines before l after Hsplit Hl Hbefore.
    assert (Hz : exists z, zipOf l = Some z).
    { unfold stateAndZip in Hl. apply andb_true_iff in Hl. destruct Hl as [_ Ht].
      destruct (ScanFacts.test_exec _ _ Ht) as [mr Hmr].
      unfold zipOf. rewrite Hmr. eauto. }
    destruct Hz as [z Hz]. exists z. split; [assumption|].
    unfold findZip. rewrite Hsplit.
    rewrite (@ScanFacts.first_some_first _ _ _ before l after z); [reflexivity | |].
    + intros y Hy. rewrite (Hbefore y Hy). reflexivity.
    + rewrite Hl. assumption.
  - vm_compute. reflexivity.
Qed.

Lemma findZip_two_passes_witness :
  findZip [lit "PO Box 10001"; lit "Suite 90210"; lit "Thank you"] = Some (lit "90210")
  /\ exists z, zipOf (lit "Springfield, IL 62704") = Some z
               /\ findZip [lit "Box 10001"; lit "Springfield, IL 62704"; lit "Austin, TX 73301"]
                  = Some z.
Proof.
  split.
  - apply (proj1 (proj1 findZip_two_passes
                    [lit "PO Box 10001"; lit "Suite 90210"; lit "Thank you"]
                    ltac:(intros l [<- | [<- | [<- | []]]]; vm_compute; reflexivity))
                 [lit "PO Box 10001"] (lit "Suite 90210") [lit "Thank you"]).
    + reflexivity.
    + vm_compute. reflexivity.
    + intros x [<- | []]. vm_compute. reflexivity.
  - apply (proj1 (proj2 findZip_two_passes)
             [lit "Box 10001"; lit "Springfield, IL 62704"; lit "Austin, TX 73301"]
             [lit "Box 10001"] (lit "Springfield, IL 62704") [lit "Austin, TX 73301"]).
    + reflexivity.
    + vm_compute. reflexivity.
    + intros x [<- | []]. vm_compute. reflexivity.
Defined.

(** The first pass of the customer extractor looks at the first 40 lines
    only: when it finds a labelled customer, any line sequence with the
    same first 40 lines gives the same result. *)
Lemma findCustomer_first_pass_window (l1 l2 : list jsstring) (r : jsstring) :
  firstn 40 l1 = firstn 40 l2 ->
  first_some (match_group1 custMarkers) (firstn 40 l1) = Some r ->
  findCustomer l1 = Some r /\ findCustomer l2 = Some r.
Proof.
  intros Heq H. unfold findCustomer. rewrite <- Heq, H. split; reflexivity.
Qed.

(** C7.  The second pass of the customer extractor is not confined to the
    first 40 lines: two line sequences with the same first 40 lines, one
    of which goes on with [Bill To] and a name, get different results. *)
Theorem findCustomer_reads_past_line_40 :
  firstn 40 (fortyFillerLines ++ [lit "Bill To"; lit "Acme Corp"]) = firstn 40 fortyFillerLines
  /\ findCustomer (fortyFillerLines ++ [lit "Bill To"; lit "Acme Corp"]) = Some (lit "Acme Corp")
  /\ findCustomer fortyFillerLines = None
  /\ ~ (forall l1 l2 : list jsstring,
          firstn 40 l1 = firstn 40 l2 -> findCustomer l1 = findCustomer l2).
Proof.
  assert (E1 : firstn 40 (fortyFillerLines ++ [lit "Bill To"; lit "Acme Corp"])
               = firstn 40 fortyFillerLines) by (vm_compute; reflexivity).
  assert (E2 : findCustomer (fortyFillerLines ++ [lit "Bill To"; lit "Acme Corp"])
               = Some (lit "Acme Corp")) by (vm_compute; reflexivity).
  assert (E3 : findCustomer fortyFillerLines = None) by (vm_compute; reflexivity).
  repeat (split; [assumption|]).
  intros H. specialize (H _ _ E1). rewrite E2, E3 in H. discriminate H.
Qed.

(* ================================================================== *)
(** * The date normalizer *)

Module DateFacts.
Import RegexFacts.

Lemma m_seq a b prev s pos c k :
  m (RSeq a b) prev s pos c k
  = m a prev s pos c (fun prev' s' pos' c' => m b prev' s' pos' c' k).
Proof. reflexivity. Qed.

Lemma m_group i a prev s pos c k :
  m (RGroup i a) prev s pos c k
  = m a prev s pos c (fun prev' s' pos' c' => k prev' s' pos' ((i, (pos, pos')) :: c')).
Proof. reflexivity. Qed.

Lemma m_set_cons p prev x s pos c k :
  m (RSet p) prev (x :: s) pos c k = if p x then k (Some x) s (S pos) c else None.
Proof. reflexivity. Qed.

Lemma parseDate_re_eq :
  parseDate_re
  = RSeq (RGroup 1 (times 1 2 digit))
      (RSeq (RSet (is_chr "/-"))
         (RSeq (RGroup 2 (times 1 2 digit))
            (RSeq (RSet (is_chr "/-")) (RGroup 3 (times 2 4 digit))))).
Proof. reflexivity. Qed.

Lemma sep_not_digit s : is_chr "/-" s = true -> isDigit s = false.
Proof.
  unfold is_chr. cbn [lit list_ascii_of_string map existsb].
  intros H. apply orb_true_iff in H. destruct H as [H|H].
  - apply N.eqb_eq in H. subst s. reflexivity.
  - apply orb_true_iff in H. destruct H as [H|H]; [|discriminate].
    apply N.eqb_eq in H. subst s. reflexivity.
Qed.

(** The pattern of [parseDate] on a text made of a month, a day and a
    year: the match is the whole text and the groups are the three parts. *)
Lemma exec_parseDate_re mm dd yyyy s1 s2 :
  forallb isDigit mm = true -> 1 <= length mm <= 2 ->
  forallb isDigit dd = true -> 1 <= length dd <= 2 ->
  forallb isDigit yyyy = true -> 2 <= length yyyy <= 4 ->
  is_chr "/-" s1 = true -> is_chr "/-" s2 = true ->
  exec parseDate_re (mm ++ s1 :: dd ++ s2 :: yyyy)
  = Some (MResult 0
            (S (S (0 + length mm) + length dd) + length yyyy)
            [(3, (S (S (0 + length mm) + length dd),
                  S (S (0 + length mm) + length dd) + length yyyy));
             (2, (S (0 + length mm), S (0 + length mm) + length dd));
             (1, (0, 0 + length mm))]).
Proof.
  intros Hm Lm Hd Ld Hy Ly H1 H2.
  unfold exec. rewrite search_unfold.
  assert (E : m parseDate_re None (mm ++ s1 :: dd ++ s2 :: yyyy) 0 [] accept
              = Some (S (S (0 + length mm) + length dd) + length yyyy,
                      [(3, (S (S (0 + length mm) + length dd),
                            S (S (0 + length mm) + length dd) + length yyyy));
                       (2, (S (0 + length mm), S (0 + length mm) + length dd));
                       (1, (0, 0 + length mm))])).
  { rewrite parseDate_re_eq, m_seq, m_group.
    apply m_digits_greedy; [assumption | apply sep_not_digit; assumption | assumption |].
    rewrite m_seq, m_set_cons, H1, m_seq, m_group.
    apply m_digits_greedy; [assumption | apply sep_not_digit; assumption | assumption |].
    rewrite m_seq, m_set_cons, H2, m_group.
    rewrite <- (app_nil_r yyyy) at 1.
    apply m_digits_greedy; [assumption | exact I | assumption |].
    reflexivity. }
  rewrite E. reflexivity.
Qed.

Lemma slice_mid (pre mid post : jsstring) a b :
  a = length pre -> b = a + length mid ->
  slice a b (pre ++ mid ++ post) = mid.
Proof.
  intros -> ->. unfold slice.
  rewrite skipn_app, skipn_all, Nat.sub_diag. cbn [skipn app].
  replace (length pre + length mid - length pre) with (length mid) by lia.
  rewrite firstn_app, firstn_all, Nat.sub_diag. cbn [firstn]. apply app_nil_r.
Qed.

(** What [parseDate] returns on a text made of a month, a day and a year
    of digits, separated by slashes or dashes. *)
Lemma parseDate_parts mm dd yyyy s1 s2 :
  forallb isDigit mm = true -> 1 <= length mm <= 2 ->
  forallb isDigit dd = true -> 1 <= length dd <= 2 ->
  forallb isDigit yyyy = true -> 2 <= length yyyy <= 4 ->
  is_chr "/-" s1 = true -> is_chr "/-" s2 = true ->
  parseDate (mm ++ s1 :: dd ++ s2 :: yyyy)
  = Some (padStart0 2 mm ++ lit "/" ++ padStart0 2 dd ++ lit "/" ++ yearText yyyy).
Proof.
  intros Hm Lm Hd Ld Hy Ly H1 H2.
  unfold parseDate.
  destruct (mm ++ s1 :: dd ++ s2 :: yyyy) as [|c0 raw'] eqn:Eraw.
  { destruct mm; discriminate. }
  rewrite <- Eraw. rewrite exec_parseDate_re by assumption.
  unfold group. cbn [m_caps cap_get Nat.eqb].
  assert (G1 : slice 0 (0 + length mm) (mm ++ s1 :: dd ++ s2 :: yyyy) = mm).
  { apply (@slice_mid [] mm (s1 :: dd ++ s2 :: yyyy)); reflexivity. }
  assert (G2 : slice (S (0 + length mm)) (S (0 + length mm) + length dd)
                     (mm ++ s1 :: dd ++ s2 :: yyyy) = dd).
  { replace (mm ++ s1 :: dd ++ s2 :: yyyy) with ((mm ++ [s1]) ++ dd ++ s2 :: yyyy)
      by (rewrite <- app_assoc; reflexivity).
    apply slice_mid; [rewrite length_app; simpl; lia | reflexivity]. }
  assert (G3 : slice (S (S (0 + length mm) + length dd))
                     (S (S (0 + length mm) + length dd) + length yyyy)
                     (mm ++ s1 :: dd ++ s2 :: yyyy) = yyyy).
  { replace (mm ++ s1 :: dd ++ s2 :: yyyy) with ((mm ++ s1 :: dd ++ [s2]) ++ yyyy ++ [])
      by (rewrite app_nil_r, <- !app_assoc; cbn [app]; rewrite <- app_assoc; reflexivity).
    apply slice_mid; [|reflexivity].
    rewrite length_app. cbn [length]. rewrite length_app. simpl. lia. }
  rewrite G1, G2, G3. reflexivity.
Qed.

Lemma digit_cases c :
  isDigit c = true ->
  In c [48; 49; 50; 51; 52; 53; 54; 55; 56; 57]%N.
Proof.
  unfold isDigit, in_range. intros H. apply andb_true_iff in H.
  destruct H as [H1 H2]. apply N.leb_le in H1. apply N.leb_le in H2.
  simpl. lia.
Qed.

(** A two-digit year pivots at 70 into a year of four digits. *)
Lemma yearText_two y1 y2 :
  isDigit y1 = true -> isDigit y2 = true ->
  yearText [y1; y2]
  = natToString (if (70 <=? 10 * digitVal y1 + digitVal y2)%Z
                 then 1900 + (10 * digitVal y1 + digitVal y2)
                 else 2000 + (10 * digitVal y1 + digitVal y2))%Z
  /\ length (yearText [y1; y2]) = 4
  /\ forallb isDigit (yearText [y1; y2]) = true.
Proof.
  intros H1 H2. apply digit_cases in H1. apply digit_cases in H2.
  simpl in H1, H2.
  repeat (destruct H1 as [<- | H1]); try contradiction;
    repeat (destruct H2 as [<- | H2]); try contradiction;
    vm_compute; repeat split; reflexivity.
Qed.

(** With a year of two or of four digits, the result is of the form
    MM/DD/YYYY. *)
Lemma parseDate_canonical mm dd yyyy s1 s2 :
  forallb isDigit mm = true -> 1 <= length mm <= 2 ->
  forallb isDigit dd = true -> 1 <= length dd <= 2 ->
  forallb isDigit yyyy = true -> length yyyy = 2 \/ length yyyy = 4 ->
  is_chr "/-" s1 = true -> is_chr "/-" s2 = true ->
  exists out,
    parseDate (mm ++ s1 :: dd ++ s2 :: yyyy) = Some out
    /\ isCanonicalDate out = true.
Proof.
  intros Hm Lm Hd Ld Hy Ly H1 H2.
  rewrite parseDate_parts by (assumption || lia).
  eexists. split; [reflexivity|].
  assert (Hyear : exists a b c d, yearText yyyy = [a; b; c; d]
                                  /\ forallb isDigit [a; b; c; d] = true).
  { destruct Ly as [Ly | Ly].
    - destruct yyyy as [|y1 [|y2 [|? ?]]]; try discriminate.
      cbn [forallb] in Hy. rewrite andb_true_r in Hy.
      apply andb_true_iff in Hy. destruct Hy as [Hy1 Hy2].
      destruct (yearText_two _ _ Hy1 Hy2) as (_ & Hlen & Hdig).
      destruct (yearText [y1; y2]) as [|a [|b [|c [|d [|? ?]]]]]; try discriminate.
      exists a, b, c, d. split; [reflexivity | assumption].
    - destruct yyyy as [|y1 [|y2 [|y3 [|y4 [|? ?]]]]]; try discriminate.
      exists y1, y2, y3, y4. split; [reflexivity | assumption]. }
  destruct Hyear as (a & b & c & d & -> & Hyd).
  cbn [forallb] in Hyd. rewrite andb_true_r in Hyd.
  apply andb_true_iff in Hyd. destruct Hyd as [Ha Hyd].
  apply andb_true_iff in Hyd. destruct Hyd as [Hb Hyd].
  apply andb_true_iff in Hyd. destruct Hyd as [Hc Hdd].
  destruct mm as [|m1 [|m2 [|? ?]]]; try (simpl in Lm; lia);
    destruct dd as [|d1 [|d2 [|? ?]]]; try (simpl in Ld; lia);
    cbn [forallb] in Hm, Hd; rewrite ?andb_true_r in Hm, Hd;
    repeat match goal with
           | H : (_ && _)%bool = true |- _ => apply andb_true_iff in H; destruct H
           end;
    cbn [padStart0 length Nat.sub repeat app lit list_ascii_of_string map
         isCanonicalDate forallb];
    repeat match goal with
           | H : isDigit _ = true |- _ => rewrite H; clear H
           end;
    reflexivity.
Qed.

End DateFacts.

(** C5.  The two dates of the specification come out as stated, and a
    two-digit year pivots at 70; a three-digit year, which the date
    pattern admits, is passed through, so the result is then not of the
    form MM/DD/YYYY. *)
Theorem findDate_three_digit_year :
  findDate [lit "Invoice Date: 3/4/23"] = Some (lit "03/04/2023")
  /\ findDate [lit "Date - 1/1/99"] = Some (lit "01/01/1999")
  /\ parseDate (lit "1/1/70") = Some (lit "01/01/1970")
  /\ parseDate (lit "12-31-69") = Some (lit "12/31/2069")
  /\ parseDate (lit "1/2/05") = Some (lit "01/02/2005")
  /\ findDate [lit "Date: 1/2/123"] = Some (lit "01/02/123")
  /\ parseDate (lit "1/2/123") = Some (lit "01/02/123")
  /\ isCanonicalDate (lit "01/02/123") = false.
Proof. vm_compute. repeat split. Qed.

(* ================================================================== *)
(** * The request handler *)


(** C9.  The handler answers no request at all, so a request that is not
    JSON and a JSON request without [base64] are not answered with a
    client-side error either: the [try] block of the handler declares the
    name [zip] twice, the module is rejected with a SyntaxError before any
    statement runs, and it exports no handler to invoke. *)
Theorem handler_never_runs (numToString : num -> jsstring)
    (destructureError headersError : jsstring) :
  Handler.firstDuplicate [] Handler.tryBlockNames = Some (lit "zip")
  /\ Handler.handler numToString destructureError headersError
     = Handler.SyntaxError (lit "zip")
  /\ Handler.invoke numToString destructureError headersError plainTextRequest = None
  /\ Handler.invoke numToString destructureError headersError noBase64Request = None
  /\ forall ev : Handler.event,
       Handler.invoke numToString destructureError headersError ev = None.
Proof.
  assert (D : Handler.firstDuplicate [] Handler.tryBlockNames = Some (lit "zip"))
    by (vm_compute; reflexivity).
  assert (H : Handler.handler numToString destructureError headersError
              = Handler.SyntaxError (lit "zip"))
    by (unfold Handler.handler; rewrite D; reflexivity).
  assert (I : forall ev : Handler.event,
             Handler.invoke numToString destructureError headersError ev = None)
    by (intros ev; unfold Handler.invoke; rewrite H; reflexivity).
  repeat split; auto.
Qed.

(* ================================================================== *)
(** * Soundness of the matcher *)

Module RegexSound.

Lemma prev_after_app prev a b :
  prev_after prev (a ++ b) = prev_after (prev_after prev a) b.
Proof. unfold prev_after. apply fold_left_app. Qed.

Lemma repeatMatcher_sound r ma :
  sound_for r ma ->
  forall fuel lo hi, sound_for (RRep lo hi r) (repeatMatcher ma fuel lo hi).
Proof.
  intros Hma fuel. induction fuel as [|f IH]; intros lo hi prev s pos c k res H.
  - discriminate.
  - cbn [repeatMatcher] in H.
    assert (Hstop : k prev s pos c = Some res -> lo = 0 \/ hi = Some 0 ->
                    exists w rest c',
                      s = w ++ rest /\ den (RRep lo hi r) prev w rest pos c c'
                      /\ k (prev_after prev w) rest (pos + length w) c' = Some res).
    { intros Hk Hlo. exists [], s, c. split; [reflexivity|]. split.
      - constructor. assumption.
      - simpl. rewrite Nat.add_0_r. assumption. }
    assert (Hmore : hi <> Some 0 ->
      ma prev s pos c
        (fun prev' s' pos' c' =>
           if (Nat.eqb lo 0 && Nat.eqb pos' pos)%bool then None
           else repeatMatcher ma f (Nat.pred lo) (dec_hi hi) prev' s' pos' c' k)
      = Some res ->
      exists w rest c',
        s = w ++ rest /\ den (RRep lo hi r) prev w rest pos c c'
        /\ k (prev_after prev w) rest (pos + length w) c' = Some res).
    { intros Hhi Hm. apply Hma in Hm.
      destruct Hm as (w1 & rest1 & c1 & -> & Hd1 & Hk1).
      destruct (Nat.eqb lo 0 && Nat.eqb (pos + length w1) pos)%bool; [discriminate|].
      apply IH in Hk1. destruct Hk1 as (w2 & rest & c2 & -> & Hd2 & Hk2).
      exists (w1 ++ w2), rest, c2. split; [apply app_assoc|]. split.
      - econstructor; eassumption.
      - rewrite prev_after_app, length_app, Nat.add_assoc. assumption. }
    destruct hi as [[|h]|].
    + apply Hstop; [assumption | right; reflexivity].
    + cbv zeta in H. destruct lo as [|lo'].
      * match type of H with
        | match ?M with _ => _ end = _ => destruct M as [res'|] eqn:E
        end.
        -- inversion H; subst res'. apply Hmore; [discriminate | reflexivity].
        -- apply Hstop; [assumption | left; reflexivity].
      * apply Hmore; [discriminate | exact H].
    + cbv zeta in H. destruct lo as [|lo'].
      * match type of H with
        | match ?M with _ => _ end = _ => destruct M as [res'|] eqn:E
        end.
        -- inversion H; subst res'. apply Hmore; [discriminate | reflexivity].
        -- apply Hstop; [assumption | left; reflexivity].
      * apply Hmore; [discriminate | exact H].
Qed.

(** Whatever the matcher accepts is a match in the sense of [den]. *)
Lemma m_sound r : sound_for r (m r).
Proof.
  induction r as [ |p|r1 IH1 r2 IH2|r1 IH1 r2 IH2|lo hi r1 IH1|i r1 IH1| | | ];
    intros prev s pos c k res H; cbn [m] in H.
  - exists [], s, c. split; [reflexivity|]. split; [constructor|].
    simpl. rewrite Nat.add_0_r. assumption.
  - destruct s as [|x s']; [discriminate|].
    destruct (p x) eqn:Hp; [|discriminate].
    exists [x], s', c. split; [reflexivity|]. split; [constructor; assumption|].
    simpl. rewrite Nat.add_1_r. assumption.
  - apply IH1 in H. destruct H as (w1 & rest1 & c1 & -> & Hd1 & Hk1).
    apply IH2 in Hk1. destruct Hk1 as (w2 & rest & c2 & -> & Hd2 & Hk2).
    exists (w1 ++ w2), rest, c2. split; [apply app_assoc|]. split.
    + econstructor; eassumption.
    + rewrite prev_after_app, length_app, Nat.add_assoc. assumption.
  - destruct (m r1 prev s pos c k) as [res'|] eqn:E.
    + inversion H; subst res'. apply IH1 in E.
      destruct E as (w & rest & c' & -> & Hd & Hk).
      exists w, rest, c'. split; [reflexivity|]. split; [apply den_alt_l|]; assumption.
    + apply IH2 in H. destruct H as (w & rest & c' & -> & Hd & Hk).
      exists w, rest, c'. split; [reflexivity|]. split; [apply den_alt_r|]; assumption.
  - exact (@repeatMatcher_sound r1 (m r1) IH1 _ lo hi prev s pos c k res H).
  - apply IH1 in H. destruct H as (w & rest & c' & -> & Hd & Hk).
    exists w, rest, ((i, (pos, pos + length w)) :: c').
    split; [reflexivity|]. split; [constructor|]; assumption.
  - destruct prev; [discriminate|].
    exists [], s, c. split; [reflexivity|]. split; [constructor|].
    simpl. rewrite Nat.add_0_r. assumption.
  - destruct s; [|discriminate].
    exists [], [], c. split; [reflexivity|]. split; [constructor|].
    simpl. rewrite Nat.add_0_r. assumption.
  - destruct (xorb (word_before prev) (word_after s)) eqn:E; [|discriminate].
    exists [], s, c. split; [reflexivity|]. split; [constructor; assumption|].
    simpl. rewrite Nat.add_0_r. assumption.
Qed.

Lemma search_sound r s : forall prev pos mr,
  search r prev s pos = Some mr ->
  exists pre w rest,
    s = pre ++ w ++ rest
    /\ m_start mr = pos + length pre
    /\ m_end mr = pos + length pre + length w
    /\ den r (prev_after prev pre) w rest (pos + length pre) [] (m_caps mr).
Proof.
  induction s as [|x s' IH]; intros prev pos mr H;
    rewrite RegexFacts.search_unfold in H;
    destruct (m r prev _ pos [] accept) as [[e c]|] eqn:E.
  - inversion H; subst mr. apply m_sound in E.
    destruct E as (w & rest & c' & Hs & Hd & Hk).
    unfold accept in Hk. inversion Hk; subst.
    exists [], w, rest. simpl. rewrite Nat.add_0_r. auto.
  - discriminate.
  - inversion H; subst mr. apply m_sound in E.
    destruct E as (w & rest & c' & Hs & Hd & Hk).
    unfold accept in Hk. inversion Hk; subst.
    exists [], w, rest. simpl. rewrite Nat.add_0_r. auto.
  - apply IH in H. destruct H as (pre & w & rest & -> & H1 & H2 & H3).
    exists (x :: pre), w, rest. cbn [length app].
    replace (pos + S (length pre)) with (S pos + length pre) by lia.
    auto.
Qed.

(** A match reported by [exec] is a piece of the text that the pattern
    matches where it stands. *)
Lemma exec_sound r s mr :
  exec r s = Some mr ->
  exists pre w rest,
    s = pre ++ w ++ rest
    /\ m_start mr = length pre
    /\ m_end mr = length pre + length w
    /\ den r (prev_after None pre) w rest (length pre) [] (m_caps mr).
Proof.
  intros H. apply search_sound in H. exact H.
Qed.

(** Every capture is a piece of the text, and the pattern of its group
    matches it there. *)
Lemma den_caps r prev w rest pos c c' :
  den r prev w rest pos c c' ->
  forall l pre, l = pre ++ w ++ rest -> length pre = pos ->
  forall i a b, cap_get i c' = Some (a, b) ->
    cap_get i c = Some (a, b)
    \/ exists g prevg pre' wg restg cg cg',
         In g (bodies i r)
         /\ den g prevg wg restg a cg cg'
         /\ l = pre' ++ wg ++ restg /\ length pre' = a /\ b = a + length wg.
Proof.
  induction 1 as
    [ prev rest pos c
    | p x prev rest pos c Hp
    | r1 r2 prev w1 w2 rest pos c c1 c2 H1 IH1 H2 IH2
    | r1 r2 prev w rest pos c c' H1 IH1
    | r1 r2 prev w rest pos c c' H1 IH1
    | lo hi r prev rest pos c Hlo
    | lo hi r prev w1 w2 rest pos c c1 c2 Hhi H1 IH1 H2 IH2
    | j r prev w rest pos c c1 H1 IH1
    | rest pos c | prev pos c | prev rest pos c Hx ];
    intros l pre Hl Hpre i a b Hcap; try (left; assumption).
  - destruct (IH2 l (pre ++ w1)
                ltac:(rewrite Hl, <- !app_assoc; reflexivity)
                ltac:(rewrite length_app; lia) i a b Hcap)
      as [Hc1 | (g & pg & pre' & wg & rg & cg & cg' & Hin & Hd & Hl' & Ha & Hb)].
    + destruct (IH1 l pre ltac:(rewrite Hl, <- !app_assoc; reflexivity) Hpre i a b Hc1)
        as [Hc | (g & pg & pre' & wg & rg & cg & cg' & Hin & Hd & Hl' & Ha & Hb)].
      * left. assumption.
      * right. exists g, pg, pre', wg, rg, cg, cg'. cbn [bodies].
        rewrite in_app_iff. auto 10.
    + right. exists g, pg, pre', wg, rg, cg, cg'. cbn [bodies].
      rewrite in_app_iff. auto 10.
  - destruct (IH1 l pre Hl Hpre i a b Hcap)
      as [Hc | (g & pg & pre' & wg & rg & cg & cg' & Hin & Hd & Hl' & Ha & Hb)].
    + left. assumption.
    + right. exists g, pg, pre', wg, rg, cg, cg'. cbn [bodies].
      rewrite in_app_iff. auto 10.
  - destruct (IH1 l pre Hl Hpre i a b Hcap)
      as [Hc | (g & pg & pre' & wg & rg & cg & cg' & Hin & Hd & Hl' & Ha & Hb)].
    + left. assumption.
    + right. exists g, pg, pre', wg, rg, cg, cg'. cbn [bodies].
      rewrite in_app_iff. auto 10.
  - destruct (IH2 l (pre ++ w1)
                ltac:(rewrite Hl, <- !app_assoc; reflexivity)
                ltac:(rewrite length_app; lia) i a b Hcap)
      as [Hc1 | (g & pg & pre' & wg & rg & cg & cg' & Hin & Hd & Hl' & Ha & Hb)].
    + destruct (IH1 l pre ltac:(rewrite Hl, <- !app_assoc; reflexivity) Hpre i a b Hc1)
        as [Hc | (g & pg & pre' & wg & rg & cg & cg' & Hin & Hd & Hl' & Ha & Hb)].
      * left. assumption.
      * right. exists g, pg, pre', wg, rg, cg, cg'. cbn [bodies]. auto 10.
    + right. exists g, pg, pre', wg, rg, cg, cg'. cbn [bodies] in *. auto 10.
  - cbn [cap_get] in Hcap. destruct (Nat.eqb i j) eqn:Eij.
    + inversion Hcap; subst a b. right.
      exists r, prev, pre, w, rest, c, c1. cbn [bodies]. rewrite Eij.
      split; [left; reflexivity|]. auto.
    + destruct (IH1 l pre Hl Hpre i a b Hcap)
        as [Hc | (g & pg & pre' & wg & rg & cg & cg' & Hin & Hd & Hl' & Ha & Hb)].
      * left. assumption.
      * right. exists g, pg, pre', wg, rg, cg, cg'. cbn [bodies]. rewrite Eij.
        auto 10.
Qed.

Lemma slice_piece (pre w rest : jsstring) :
  slice (length pre) (length pre + length w) (pre ++ w ++ rest) = w.
Proof.
  unfold slice. rewrite skipn_app, skipn_all, Nat.sub_diag. cbn [skipn app].
  replace (length pre + length w - length pre) with (length w) by lia.
  rewrite firstn_app, firstn_all, Nat.sub_diag. cbn [firstn]. apply app_nil_r.
Qed.

(** The text [m[i]] of a match of [exec], when the group took part, is
    matched by the pattern of a group numbered [i]. *)
Lemma exec_group r l mr i :
  exec r l = Some mr ->
  group l mr i = []
  \/ exists g prevg pre' restg cg cg',
       In g (bodies i r)
       /\ den g prevg (group l mr i) restg (length pre') cg cg'
       /\ l = pre' ++ group l mr i ++ restg.
Proof.
  intros H. apply exec_sound in H.
  destruct H as (pre & w & rest & Hl & Hs & He & Hd).
  unfold group. destruct (cap_get i (m_caps mr)) as [[a b]|] eqn:Ecap; [|left; reflexivity].
  pose proof (den_caps Hd) as Hcaps.
  destruct (Hcaps l pre Hl eq_refl i a b Ecap)
    as [Hc | (g & pg & pre' & wg & rg & cg & cg' & Hin & Hdg & Hl' & Ha & Hb)];
    [discriminate|].
  right. subst a b.
  assert (Hsl : slice (length pre') (length pre' + length wg) l = wg)
    by (rewrite Hl'; apply slice_piece).
  rewrite Hsl. exists g, pg, pre', rg, cg, cg'. auto.
Qed.

(** The whole match [m[0]] is matched by the pattern. *)
Lemma exec_whole r l mr :
  exec r l = Some mr ->
  exists pre rest,
    l = pre ++ whole l mr ++ rest
    /\ den r (prev_after None pre) (whole l mr) rest (length pre) [] (m_caps mr).
Proof.
  intros H. apply exec_sound in H.
  destruct H as (pre & w & rest & Hl & Hs & He & Hd).
  assert (Hsl : whole l mr = w)
    by (unfold whole; rewrite Hs, He, Hl; apply slice_piece).
  rewrite Hsl. exists pre, rest. auto.
Qed.

Lemma den_caps_kept r prev w rest pos c c' :
  den r prev w rest pos c c' ->
  forall i, cap_get i c <> None -> cap_get i c' <> None.
Proof.
  induction 1; intros i0 Hc; auto.
  cbn [cap_get]. destruct (Nat.eqb i0 i); [discriminate | auto].
Qed.

Lemma den_caps_set r prev w rest pos c c' :
  den r prev w rest pos c c' ->
  forall i, always_captures i r = true -> cap_get i c' <> None.
Proof.
  induction 1 as
    [ prev rest pos c
    | p x prev rest pos c Hp
    | r1 r2 prev w1 w2 rest pos c c1 c2 H1 IH1 H2 IH2
    | r1 r2 prev w rest pos c c' H1 IH1
    | r1 r2 prev w rest pos c c' H1 IH1
    | lo hi r prev rest pos c Hlo
    | lo hi r prev w1 w2 rest pos c c1 c2 Hhi H1 IH1 H2 IH2
    | j r prev w rest pos c c1 H1 IH1
    | rest pos c | prev pos c | prev rest pos c Hx ];
    intros i Ha; cbn [always_captures] in Ha; try discriminate.
  - apply orb_true_iff in Ha. destruct Ha as [Ha | Ha].
    + eapply den_caps_kept; [eassumption | auto].
    + auto.
  - apply andb_true_iff in Ha. destruct Ha. auto.
  - apply andb_true_iff in Ha. destruct Ha. auto.
  - cbn [cap_get]. destruct (Nat.eqb i j) eqn:E; [discriminate|].
    simpl in Ha. auto.
Qed.

(** When the pattern always sets the group [i], the text [m[i]] of a match
    is a piece of the input that the pattern of a group [i] matches. *)
Lemma exec_group_set r l mr i :
  exec r l = Some mr ->
  always_captures i r = true ->
  exists g prevg pre' restg cg cg',
    In g (bodies i r)
    /\ den g prevg (group l mr i) restg (length pre') cg cg'
    /\ l = pre' ++ group l mr i ++ restg.
Proof.
  intros H Ha. pose proof H as H0. apply exec_sound in H.
  destruct H as (pre & w & rest & Hl & Hs & He & Hd).
  pose proof (den_caps_set Hd i Ha) as Hset.
  unfold group. destruct (cap_get i (m_caps mr)) as [[a b]|] eqn:Ecap; [|congruence].
  pose proof (den_caps Hd) as Hcaps.
  destruct (Hcaps l pre Hl eq_refl i a b Ecap)
    as [Hc | (g & pg & pre' & wg & rg & cg & cg' & Hin & Hdg & Hl' & Ha' & Hb)];
    [discriminate|].
  subst a b.
  assert (Hsl : slice (length pre') (length pre' + length wg) l = wg)
    by (rewrite Hl'; apply slice_piece).
  rewrite Hsl. exists g, pg, pre', rg, cg, cg'. auto.
Qed.

(** A repetition of a class matches a run of units of the class, as many
    as its bounds allow, and sets no capture. *)
Lemma den_rep_class p r prev w rest pos c c' :
  den r prev w rest pos c c' ->
  forall lo hi, r = RRep lo hi (RSet p) ->
  (forall h, hi = Some h -> lo <= h) ->
  forallb p w = true /\ c' = c /\ lo <= length w
  /\ (forall h, hi = Some h -> length w <= h).
Proof.
  induction 1 as
    [ prev rest pos c
    | q x prev rest pos c Hp
    | r1 r2 prev w1 w2 rest pos c c1 c2 H1 IH1 H2 IH2
    | r1 r2 prev w rest pos c c' H1 IH1
    | r1 r2 prev w rest pos c c' H1 IH1
    | lo hi r prev rest pos c Hlo
    | lo hi r prev w1 w2 rest pos c c1 c2 Hhi H1 IH1 H2 IH2
    | j r prev w rest pos c c1 H1 IH1
    | rest pos c | prev pos c | prev rest pos c Hx ];
    intros lo0 hi0 E Hb; inversion E; subst.
  - repeat split; simpl; try lia.
    destruct Hlo as [-> | ->]; [lia | specialize (Hb 0 eq_refl); lia].
  - inversion H1; subst.
    destruct (IH2 (Nat.pred lo0) (dec_hi hi0) eq_refl) as (F & Ec & L1 & L2).
    { intros h Hh. destruct hi0 as [h0|]; [|discriminate].
      simpl in Hh. inversion Hh. specialize (Hb h0 eq_refl). lia. }
    repeat split.
    + cbn [app forallb]. rewrite F.
      match goal with Hq : p x = true |- _ => rewrite Hq end. reflexivity.
    + assumption.
    + cbn [app length]. lia.
    + intros h Hh. subst hi0. cbn [app length].
      specialize (L2 (Nat.pred h) eq_refl).
      destruct h; [congruence | simpl in L2; lia].
Qed.

Lemma den_class_run p lo hi prev w rest pos c c' :
  den (RRep lo hi (RSet p)) prev w rest pos c c' ->
  (forall h, hi = Some h -> lo <= h) ->
  forallb p w = true /\ c' = c /\ lo <= length w
  /\ (forall h, hi = Some h -> length w <= h).
Proof. intros H Hb. eapply den_rep_class; [exact H | reflexivity | exact Hb]. Qed.

(** An optional pattern matches nothing or what the pattern matches. *)
Lemma den_opt_inv r prev w rest pos c c' :
  den (RRep 0 (Some 1) r) prev w rest pos c c' ->
  (w = [] /\ c' = c) \/ den r prev w rest pos c c'.
Proof.
  intros H. inversion H; subst.
  - left. split; reflexivity.
  - right.
    match goal with
    | H2 : den (RRep _ _ _) _ _ _ _ _ _ |- _ => simpl in H2; inversion H2; subst
    end.
    + rewrite app_nil_r. assumption.
    + congruence.
Qed.

End RegexSound.

(* ================================================================== *)
(** * Shapes of the extracted fields *)

Module TrimFacts.

Lemma dropWhile_all p s : forallb p s = true -> dropWhile p s = [].
Proof.
  induction s as [|c s' IH]; simpl; [reflexivity|].
  intros H. apply andb_true_iff in H. destruct H as [Hc H]. rewrite Hc. auto.
Qed.

Lemma dropWhile_snoc p s x :
  dropWhile p (s ++ [x])
  = if forallb p s then (if p x then [] else [x]) else dropWhile p s ++ [x].
Proof.
  induction s as [|c s' IH]; simpl; [reflexivity|].
  destruct (p c); simpl; [apply IH | reflexivity].
Qed.

Lemma forallb_rev p (s : jsstring) : forallb p (rev s) = forallb p s.
Proof.
  induction s as [|c s' IH]; simpl; [reflexivity|].
  rewrite forallb_app, IH. simpl. rewrite andb_true_r. apply andb_comm.
Qed.

(** [trimEnd] from the front. *)
Lemma trimEnd_cons x s :
  trimEnd (x :: s) = if forallb isSpace (x :: s) then [] else x :: trimEnd s.
Proof.
  unfold trimEnd. cbn [rev]. rewrite dropWhile_snoc, forallb_rev. cbn [forallb].
  destruct (forallb isSpace s) eqn:E.
  - rewrite andb_true_r. rewrite dropWhile_all by (rewrite forallb_rev; assumption).
    destruct (isSpace x); reflexivity.
  - rewrite andb_false_r, rev_app_distr. reflexivity.
Qed.

Lemma trimStart_head s :
  trimStart s = [] \/ exists c t, trimStart s = c :: t /\ isSpace c = false.
Proof.
  unfold trimStart. induction s as [|c s' IH]; simpl; [left; reflexivity|].
  destruct (isSpace c) eqn:E; [assumption | right; eauto].
Qed.

Lemma trimEnd_last s :
  trimEnd s = [] \/ exists u c, trimEnd s = u ++ [c] /\ isSpace c = false.
Proof.
  unfold trimEnd.
  assert (H : forall t, dropWhile isSpace t = []
                        \/ exists c u, dropWhile isSpace t = c :: u /\ isSpace c = false).
  { induction t as [|c t' IH]; simpl; [left; reflexivity|].
    destruct (isSpace c) eqn:E; [assumption | right; eauto]. }
  destruct (H (rev s)) as [-> | (c & u & -> & Hc)]; [left; reflexivity | right].
  exists (rev u), c. split; [reflexivity | assumption].
Qed.

Lemma trimEnd_fixed u c : isSpace c = false -> trimEnd (u ++ [c]) = u ++ [c].
Proof.
  intros H. unfold trimEnd. rewrite rev_app_distr. cbn [rev app dropWhile].
  rewrite H. cbn [rev]. rewrite rev_involutive. reflexivity.
Qed.

Lemma trimEnd_head c t :
  isSpace c = false -> trimEnd (c :: t) = c :: trimEnd t.
Proof.
  intros H. rewrite trimEnd_cons. cbn [forallb]. rewrite H. reflexivity.
Qed.

(** The result of [trim] begins and ends with units that are not white
    space, so trimming it again changes nothing. *)
Lemma trim_ends s :
  trim s = []
  \/ (exists c t, trim s = c :: t /\ isSpace c = false)
     /\ (exists u d, trim s = u ++ [d] /\ isSpace d = false).
Proof.
  unfold trim.
  destruct (trimStart_head s) as [-> | (c & t & -> & Hc)]; [left; reflexivity | right].
  split.
  - rewrite trimEnd_head by assumption. eauto.
  - destruct (trimEnd_last (c :: t)) as [E | H]; [|assumption].
    rewrite trimEnd_head in E by assumption. discriminate.
Qed.

Lemma trim_idem s : trim (trim s) = trim s.
Proof.
  destruct (trim_ends s) as [-> | [(c & t & E1 & Hc) (u & d & E2 & Hd)]]; [reflexivity|].
  unfold trim at 1. rewrite E1. unfold trimStart. cbn [dropWhile]. rewrite Hc.
  rewrite <- E1, E2. apply trimEnd_fixed. assumption.
Qed.

Lemma trimStart_incl s c : In c (trimStart s) -> In c s.
Proof.
  unfold trimStart. induction s as [|x s' IH]; simpl; [auto|].
  destruct (isSpace x); simpl; auto.
Qed.

Lemma trimEnd_incl s c : In c (trimEnd s) -> In c s.
Proof.
  unfold trimEnd. intros H. apply in_rev in H. apply in_rev.
  revert H. generalize (rev s). intros t. induction t as [|x t' IH]; simpl; [auto|].
  destruct (isSpace x); simpl; auto.
Qed.

Lemma trim_incl s c : In c (trim s) -> In c s.
Proof. intros H. apply trimStart_incl, trimEnd_incl. exact H. Qed.

(** Text without white space is left as it is. *)
Lemma trim_fixed s : forallb (fun c => negb (isSpace c)) s = true -> trim s = s.
Proof.
  intros H. unfold trim.
  assert (E : trimStart s = s).
  { destruct s as [|c t]; [reflexivity|]. simpl in H. apply andb_true_iff in H.
    destruct H as [Hc _]. unfold trimStart. simpl.
    destruct (isSpace c); [discriminate | reflexivity]. }
  rewrite E. clear E. induction s as [|c t IH]; [reflexivity|].
  simpl in H. apply andb_true_iff in H. destruct H as [Hc Ht].
  rewrite trimEnd_head by (destruct (isSpace c); [discriminate | reflexivity]).
  rewrite IH by assumption. reflexivity.
Qed.

(** Printable ASCII is not white space. *)
Lemma printable_not_space c : (33 <= c <= 126)%N -> isSpace c = false.
Proof.
  intros [H1 H2]. unfold isSpace, in_range.
  repeat match goal with
         | |- (_ || _)%bool = false => apply orb_false_iff; split
         | |- (_ && _)%bool = false => apply andb_false_iff
         end;
    try (apply N.eqb_neq; lia).
  - right. apply N.leb_gt. lia.
  - left. apply N.leb_gt. lia.
Qed.

End TrimFacts.

Module ClassFacts.

Lemma is_chr_In s c : is_chr s c = true -> In c (lit s).
Proof.
  unfold is_chr. intros H. apply existsb_exists in H.
  destruct H as (x & Hin & Hx). apply N.eqb_eq in Hx. subst x. assumption.
Qed.

Ltac bools :=
  repeat match goal with
         | H : (_ || _)%bool = true |- _ => apply orb_true_iff in H; destruct H as [H | H]
         | H : (_ && _)%bool = true |- _ => apply andb_true_iff in H; destruct H
         | H : N.leb _ _ = true |- _ => apply N.leb_le in H
         | H : N.eqb _ _ = true |- _ => apply N.eqb_eq in H
         | H : is_chr _ _ = true |- _ => apply is_chr_In in H; vm_compute in H
         | H : _ \/ _ |- _ => destruct H as [H | H]
         | H : False |- _ => destruct H
         end.

Lemma isDigit_range c : isDigit c = true -> (48 <= c <= 57)%N.
Proof. unfold isDigit, in_range. intros H. bools. lia. Qed.

Lemma isAlpha_range c : isAlpha c = true -> (65 <= c <= 122)%N.
Proof. unfold isAlpha, isUpper, isLower, in_range. intros H. bools; lia. Qed.

Lemma idChar_printable c : idChar c = true -> (33 <= c <= 126)%N.
Proof.
  unfold idChar. intros H. bools.
  - apply isAlpha_range in H. lia.
  - apply isDigit_range in H. lia.
  - subst c. lia.
Qed.

Lemma tokenChar_printable c : tokenChar c = true -> (33 <= c <= 126)%N.
Proof.
  unfold tokenChar. intros H. bools; try (subst c; lia).
  - apply isAlpha_range in H. lia.
  - apply isDigit_range in H. lia.
Qed.

Lemma class_no_space (p : char -> bool) (s : jsstring) :
  (forall c, p c = true -> (33 <= c <= 126)%N) ->
  forallb p s = true ->
  forallb (fun c => negb (isSpace c)) s = true.
Proof.
  intros Hp H. rewrite forallb_forall in *. intros c Hc.
  rewrite TrimFacts.printable_not_space; [reflexivity | auto].
Qed.

End ClassFacts.

Module FieldShapes.
Import RegexSound ClassFacts.

Lemma first_some_found {A B : Type} (f : A -> option B) l v :
  first_some f l = Some v -> exists x, In x l /\ f x = Some v.
Proof.
  induction l as [|y l' IH]; simpl; [discriminate|].
  destruct (f y) as [v'|] eqn:E.
  - intros H. inversion H; subst v'. exists y. auto.
  - intros H. destruct (IH H) as (x & Hin & Hx). exists x. auto.
Qed.

(** What [match_group1] returns comes from a match of one of the
    patterns. *)
Lemma match_group1_found res l r :
  match_group1 res l = Some r ->
  exists re mr, In re res /\ exec re l = Some mr /\ r = trim (group l mr 1).
Proof.
  unfold match_group1. intros H. apply first_some_found in H.
  destruct H as (re & Hin & Hre).
  destruct (exec re l) as [mr|] eqn:E; [|discriminate].
  inversion Hre. exists re, mr. auto.
Qed.

Lemma first_group1_found re lines raw :
  first_group1 re lines = Some raw ->
  exists l mr, In l lines /\ exec re l = Some mr /\ raw = group l mr 1.
Proof.
  unfold first_group1. intros H. apply first_some_found in H.
  destruct H as (l & Hin & Hl).
  destruct (exec re l) as [mr|] eqn:E; [|discriminate].
  inversion Hl. exists l, mr. auto.
Qed.

Lemma zipOf_shape l z :
  zipOf l = Some z -> isZipText z = true /\ piece_of z l.
Proof.
  unfold zipOf. destruct (exec zipRe l) as [mr|] eqn:E; [|discriminate].
  intros H. inversion H. clear H.
  destruct (@exec_group_set zipRe l mr 1 E eq_refl)
    as (g & pg & pre & rg & cg & cg' & Hin & Hd & Hl).
  split; [|exists pre, rg; assumption].
  change (bodies 1 zipRe)
    with [RSeq (times 5 5 digit) (opt (RSeq (chr "-") (times 4 4 digit)))] in Hin.
  destruct Hin as [<- | []].
  unfold times, opt, digit, chr in Hd.
  inversion Hd; subst.
  match goal with
  | Hfive : den (RRep 5 _ _) _ ?w1 _ _ _ _,
    Hopt : den (RRep 0 _ _) _ ?w2 _ _ _ _ |- _ =>
      apply den_class_run in Hfive; [|intros h Hh; inversion Hh; lia];
      destruct Hfive as (F1 & _ & L1 & U1); specialize (U1 5 eq_refl);
      apply den_opt_inv in Hopt; destruct Hopt as [[-> _] | Hext]
  end.
  - rewrite app_nil_r.
    destruct w1 as [|a [|b [|c [|d [|e [|? ?]]]]]]; simpl in L1, U1; try lia.
    exact F1.
  - inversion Hext; subst.
    match goal with
    | Hdash : den (RSet _) _ _ _ _ _ _, Hfour : den (RRep 4 _ _) _ _ _ _ _ _ |- _ =>
        inversion Hdash; subst;
        apply den_class_run in Hfour; [|intros h Hh; inversion Hh; lia];
        destruct Hfour as (F4 & _ & L4 & U4); specialize (U4 4 eq_refl)
    end.
    match goal with Hx : is_chr "-" _ = true |- _ => bools; subst end.
    destruct w1 as [|a [|b [|c [|d [|e [|? ?]]]]]]; simpl in L1, U1; try lia.
    match goal with
    | |- isZipText (_ ++ _ ++ ?w) = true =>
        destruct w as [|f0 [|g0 [|i0 [|j0 [|? ?]]]]]; simpl in L4, U4; try lia
    end.
    cbn [app isZipText forallb] in *.
    repeat match goal with
           | H : (_ && _)%bool = true |- _ => apply andb_true_iff in H; destruct H
           end.
    repeat match goal with
           | H : isDigit _ = true |- _ => rewrite H; clear H
           end.
    reflexivity.
Qed.

Lemma piece_of_refl s : piece_of s s.
Proof. exists [], []. rewrite app_nil_r. reflexivity. Qed.

Lemma piece_of_trans a b c : piece_of a b -> piece_of b c -> piece_of a c.
Proof.
  intros (p1 & r1 & ->) (p2 & r2 & ->).
  exists (p2 ++ p1), (r1 ++ r2). rewrite <- !app_assoc. reflexivity.
Qed.

Lemma trimStart_piece s : exists pre, s = pre ++ trimStart s.
Proof.
  unfold trimStart. induction s as [|c s' IH]; simpl.
  - exists []. reflexivity.
  - destruct (isSpace c).
    + destruct IH as [pre Hpre]. exists (c :: pre). simpl. f_equal. assumption.
    + exists []. reflexivity.
Qed.

Lemma trimEnd_piece s : exists suf, s = trimEnd s ++ suf.
Proof.
  induction s as [|c s' IH].
  - exists []. reflexivity.
  - rewrite TrimFacts.trimEnd_cons. destruct (forallb isSpace (c :: s')).
    + exists (c :: s'). reflexivity.
    + destruct IH as [suf Hsuf]. exists suf. simpl. f_equal. assumption.
Qed.

(** The trimmed text is a piece of the text. *)
Lemma trim_piece s : piece_of (trim s) s.
Proof.
  unfold trim. destruct (trimStart_piece s) as [pre Hpre].
  destruct (trimEnd_piece (trimStart s)) as [suf Hsuf].
  exists pre, suf. rewrite <- Hsuf. assumption.
Qed.

(** The capture of a pattern that is one run of a class. *)
Lemma group1_class_run re p l mr :
  exec re l = Some mr ->
  always_captures 1 re = true ->
  bodies 1 re = [RRep 1 None (RSet p)] ->
  forallb p (group l mr 1) = true
  /\ 1 <= length (group l mr 1)
  /\ piece_of (group l mr 1) l.
Proof.
  intros E Ha Hb.
  destruct (@exec_group_set re l mr 1 E Ha) as (g & pg & pre & rg & cg & cg' & Hin & Hd & Hl).
  rewrite Hb in Hin. destruct Hin as [<- | []].
  apply den_class_run in Hd; [|discriminate].
  destruct Hd as (F & _ & L & _).
  repeat split; try assumption. exists pre, rg. assumption.
Qed.

Lemma datePattern_parts prev raw rest pos c c' :
  den datePattern prev raw rest pos c c' ->
  exists mm dd yyyy s1 s2,
    raw = mm ++ s1 :: dd ++ s2 :: yyyy
    /\ forallb isDigit mm = true /\ 1 <= length mm <= 2
    /\ forallb isDigit dd = true /\ 1 <= length dd <= 2
    /\ forallb isDigit yyyy = true /\ 2 <= length yyyy <= 4
    /\ is_chr "/-" s1 = true /\ is_chr "/-" s2 = true.
Proof.
  intros H. unfold datePattern in H. cbn [seqs] in H. unfold times, digit, chr in H.
  inversion H as [ | |r1 r2 p0 w1 x1 rs ps c0 c1 c2 Hmm H1| | | | | | | | ]; subst; clear H.
  inversion H1 as [ | |r1 r2 p0 ws1 x2 rs ps c0 c3 c4 Hs1 H2| | | | | | | | ]; subst; clear H1.
  inversion H2 as [ | |r1 r2 p0 w3 x3 rs ps c0 c5 c6 Hdd H3| | | | | | | | ]; subst; clear H2.
  inversion H3 as [ | |r1 r2 p0 ws2 w5 rs ps c0 c7 c8 Hs2 Hyy| | | | | | | | ]; subst; clear H3.
  inversion Hs1; subst. inversion Hs2; subst.
  apply den_class_run in Hmm; [|intros h Hh; inversion Hh; lia].
  apply den_class_run in Hdd; [|intros h Hh; inversion Hh; lia].
  apply den_class_run in Hyy; [|intros h Hh; inversion Hh; lia].
  destruct Hmm as (Fm & _ & Lm & Um). specialize (Um 2 eq_refl).
  destruct Hdd as (Fd & _ & Ld & Ud). specialize (Ud 2 eq_refl).
  destruct Hyy as (Fy & _ & Ly & Uy). specialize (Uy 4 eq_refl).
  eexists w1, w3, w5, _, _. split; [reflexivity|]. auto 15.
Qed.

Lemma In_firstn {A : Type} (x : A) n l : In x (firstn n l) -> In x l.
Proof.
  intros H. rewrite <- (firstn_skipn n l). apply in_or_app. left. assumption.
Qed.

Lemma first_some_none_inv {A B : Type} (f : A -> option B) l :
  first_some f l = None -> forall x, In x l -> f x = None.
Proof.
  induction l as [|y l' IH]; simpl; [contradiction|].
  destruct (f y) eqn:E; [discriminate|].
  intros H x [<- | Hx]; auto.
Qed.

(** A text captured by the date pattern is always turned into a date. *)
Lemma parseDate_of_capture re l mr :
  exec re l = Some mr ->
  always_captures 1 re = true ->
  bodies 1 re = [datePattern] ->
  exists mm dd yyyy,
    forallb isDigit mm = true /\ 1 <= length mm <= 2
    /\ forallb isDigit dd = true /\ 1 <= length dd <= 2
    /\ forallb isDigit yyyy = true /\ 2 <= length yyyy <= 4
    /\ parseDate (group l mr 1)
       = Some (padStart0 2 mm ++ lit "/" ++ padStart0 2 dd ++ lit "/" ++ yearText yyyy).
Proof.
  intros E Ha Hb.
  destruct (@exec_group_set re l mr 1 E Ha) as (g & pg & pre & rg & cg & cg' & Hin & Hd & Hl).
  rewrite Hb in Hin. destruct Hin as [<- | []].
  apply datePattern_parts in Hd.
  destruct Hd as (mm & dd & yyyy & s1 & s2 & -> & Fm & Lm & Fd & Ld & Fy & Ly & H1 & H2).
  exists mm, dd, yyyy. repeat (split; [assumption|]).
  apply DateFacts.parseDate_parts; assumption.
Qed.

End FieldShapes.

(** X8.  The ZIP extractor returns nothing but a ZIP-shaped text, five digits
    or five digits, a dash and four digits, that occurs in one of the
    first 50 lines. *)
Theorem findZip_result_shape (lines : list jsstring) (z : jsstring) :
  findZip lines = Some z ->
  isZipText z = true
  /\ exists l, In l (firstn 50 lines) /\ piece_of z l.
Proof.
  unfold findZip.
  destruct (first_some (fun l => if stateAndZip l then zipOf l else None) (firstn 50 lines))
    as [z0|] eqn:E1.
  - intros H. inversion H; subst z0.
    apply FieldShapes.first_some_found in E1. destruct E1 as (l & Hin & Hl).
    destruct (stateAndZip l); [|discriminate].
    apply FieldShapes.zipOf_shape in Hl. destruct Hl. eauto.
  - intros H. apply FieldShapes.first_some_found in H. destruct H as (l & Hin & Hl).
    apply in_rev in Hin.
    apply FieldShapes.zipOf_shape in Hl. destruct Hl. eauto.
Qed.

Lemma findZip_result_shape_witness :
  isZipText (lit "46201-1234") = true
  /\ exists l, In l (firstn 50 [lit "Ship to"; lit "Indianapolis IN 46201-1234 USA"])
               /\ piece_of (lit "46201-1234") l.
Proof.
  apply (@findZip_result_shape [lit "Ship to"; lit "Indianapolis IN 46201-1234 USA"]
           (lit "46201-1234")).
  vm_compute. reflexivity.
Defined.

(** X4.  The invoice extractor returns nothing but a non-empty run of letters,
    digits and dashes that occurs in one of the first 80 lines. *)
Theorem findInvoice_result_shape (lines : list jsstring) (r : jsstring) :
  findInvoice lines = Some r ->
  r <> [] /\ forallb idChar r = true
  /\ exists l, In l (firstn 80 lines) /\ piece_of r l.
Proof.
  assert (G : forall re l, match_group1 [re] l = Some r ->
                always_captures 1 re = true ->
                bodies 1 re = [RRep 1 None (RSet idChar)] ->
                r <> [] /\ forallb idChar r = true /\ piece_of r l).
  { intros re l H Ha Hb. apply FieldShapes.match_group1_found in H.
    destruct H as (re' & mr & [<- | []] & E & ->).
    destruct (@FieldShapes.group1_class_run re idChar l mr E Ha Hb) as (F & L & P).
    rewrite TrimFacts.trim_fixed
      by (apply (@ClassFacts.class_no_space idChar); [apply ClassFacts.idChar_printable | exact F]).
    repeat split; try assumption.
    intros E0. rewrite E0 in L. simpl in L. lia. }
  unfold findInvoice.
  destruct (first_some (match_group1 [invoice_re]) (firstn 80 lines)) as [r0|] eqn:E1.
  - intros H. inversion H; subst r0.
    apply FieldShapes.first_some_found in E1. destruct E1 as (l & Hin & Hl).
    destruct (G invoice_re l Hl eq_refl eq_refl) as (N & F & P). eauto.
  - intros H. apply FieldShapes.first_some_found in H. destruct H as (l & Hin & Hl).
    destruct (G invoice_re2 l Hl eq_refl eq_refl) as (N & F & P). eauto.
Qed.

Lemma findInvoice_result_shape_witness :
  lit "INV-0042" <> [] /\ forallb idChar (lit "INV-0042") = true
  /\ exists l, In l (firstn 80 [lit "Acme"; lit "Invoice No. INV-0042 (copy)"])
               /\ piece_of (lit "INV-0042") l.
Proof.
  apply (@findInvoice_result_shape [lit "Acme"; lit "Invoice No. INV-0042 (copy)"]
           (lit "INV-0042")).
  vm_compute. reflexivity.
Defined.

(** X7.  The sales rep extractor returns nothing but a trimmed text of letters,
    spaces, periods, commas, apostrophes and hyphens that occurs in one of
    the first 120 lines. *)
Theorem findRep_result_shape (lines : list jsstring) (r : jsstring) :
  findRep lines = Some r ->
  forallb repChar r = true /\ trim r = r
  /\ exists l, In l (firstn 120 lines) /\ piece_of r l.
Proof.
  unfold findRep. intros H.
  apply FieldShapes.first_some_found in H. destruct H as (l & Hin & Hl).
  apply FieldShapes.match_group1_found in Hl.
  destruct Hl as (re' & mr & [<- | []] & E & ->).
  destruct (@FieldShapes.group1_class_run rep_re repChar l mr E eq_refl eq_refl) as (F & L & P).
  split; [|split].
  - rewrite forallb_forall in *. intros c Hc. apply F. apply TrimFacts.trim_incl. assumption.
  - apply TrimFacts.trim_idem.
  - exists l. split; [assumption|].
    eapply FieldShapes.piece_of_trans; [apply FieldShapes.trim_piece | exact P].
Qed.

Lemma findRep_result_shape_witness :
  forallb repChar (lit "Jane O'Neil") = true /\ trim (lit "Jane O'Neil") = lit "Jane O'Neil"
  /\ exists l, In l (firstn 120 [lit "Salesperson: Jane O'Neil   Terms: Net 30"])
               /\ piece_of (lit "Jane O'Neil") l.
Proof.
  apply (@findRep_result_shape [lit "Salesperson: Jane O'Neil   Terms: Net 30"]
           (lit "Jane O'Neil")).
  vm_compute. reflexivity.
Defined.

(** X3.  The customer extractor returns nothing but a trimmed piece of one of
    the lines. *)
Theorem findCustomer_result_piece (lines : list jsstring) (r : jsstring) :
  findCustomer lines = Some r ->
  trim r = r /\ exists l, In l lines /\ piece_of r l.
Proof.
  unfold findCustomer.
  destruct (first_some (match_group1 custMarkers) (firstn 40 lines)) as [r0|] eqn:E1.
  - intros H. inversion H; subst r0.
    apply FieldShapes.first_some_found in E1. destruct E1 as (l & Hin & Hl).
    apply FieldShapes.match_group1_found in Hl.
    destruct Hl as (re & mr & Hre & E & ->).
    split; [apply TrimFacts.trim_idem|].
    exists l. split; [eapply FieldShapes.In_firstn; eassumption|].
    eapply FieldShapes.piece_of_trans; [apply FieldShapes.trim_piece|].
    destruct (@RegexSound.exec_group re l mr 1 E) as [-> | (g & pg & pre & rg & cg & cg' & _ & _ & Hl)].
    + exists [], l. reflexivity.
    + exists pre, rg. assumption.
  - destruct (findIndex (test custAnywhere_re) lines) as [idx|]; [|discriminate].
    unfold for_range. intros H.
    apply FieldShapes.first_some_found in H. destruct H as (i & Hin & Hi).
    destruct (negb (test addressLabel_re (nth i lines [])) && Nat.ltb 3 (length (nth i lines [])))%bool;
      [|discriminate].
    inversion Hi. split; [apply TrimFacts.trim_idem|].
    exists (nth i lines []). split; [|apply FieldShapes.trim_piece].
    apply nth_In. apply in_seq in Hin. lia.
Qed.

Lemma findCustomer_result_piece_witness :
  trim (lit "Acme Body Shop") = lit "Acme Body Shop"
  /\ exists l, In l [lit "Sold To"; lit "Attn: Bob"; lit "Acme Body Shop"]
               /\ piece_of (lit "Acme Body Shop") l.
Proof.
  apply (@findCustomer_result_piece [lit "Sold To"; lit "Attn: Bob"; lit "Acme Body Shop"]
           (lit "Acme Body Shop")).
  vm_compute. reflexivity.
Defined.

(** X5.  The date extractor returns nothing but a two-digit month, a slash, a
    two-digit day, a slash and the year text; the result is of the form
    MM/DD/YYYY unless the year matched had three digits. *)
Theorem findDate_result_shape (lines : list jsstring) (d : jsstring) :
  findDate lines = Some d ->
  exists mm dd yyyy,
    forallb isDigit mm = true /\ 1 <= length mm <= 2
    /\ forallb isDigit dd = true /\ 1 <= length dd <= 2
    /\ forallb isDigit yyyy = true /\ 2 <= length yyyy <= 4
    /\ d = padStart0 2 mm ++ lit "/" ++ padStart0 2 dd ++ lit "/" ++ yearText yyyy
    /\ (length yyyy <> 3 -> isCanonicalDate d = true).
Proof.
  assert (G : forall re lines0 raw,
            first_group1 re lines0 = Some raw ->
            always_captures 1 re = true -> bodies 1 re = [datePattern] ->
            parseDate raw = Some d ->
            exists mm dd yyyy,
              forallb isDigit mm = true /\ 1 <= length mm <= 2
              /\ forallb isDigit dd = true /\ 1 <= length dd <= 2
              /\ forallb isDigit yyyy = true /\ 2 <= length yyyy <= 4
              /\ d = padStart0 2 mm ++ lit "/" ++ padStart0 2 dd ++ lit "/" ++ yearText yyyy
              /\ (length yyyy <> 3 -> isCanonicalDate d = true)).
  { intros re lines0 raw H Ha Hb Hd.
    apply FieldShapes.first_group1_found in H. destruct H as (l & mr & Hin & E & ->).
    destruct (@RegexSound.exec_group_set re l mr 1 E Ha)
      as (g & pg & pre & rg & cg & cg' & Hg & Hden & Hl).
    rewrite Hb in Hg. destruct Hg as [<- | []].
    apply FieldShapes.datePattern_parts in Hden.
    destruct Hden as (mm & dd & yyyy & s1 & s2 & Eraw & Fm & Lm & Fd & Ld & Fy & Ly & H1 & H2).
    rewrite Eraw in Hd.
    exists mm, dd, yyyy. repeat (split; [assumption|]).
    rewrite DateFacts.parseDate_parts in Hd by assumption.
    injection Hd as <-. split; [reflexivity|].
    intros H3.
    destruct (@DateFacts.parseDate_canonical mm dd yyyy s1 s2) as (out & Hout & Hcan);
      try assumption; [lia|].
    rewrite DateFacts.parseDate_parts in Hout by assumption.
    injection Hout as <-. exact Hcan. }
  unfold findDate.
  destruct (first_group1 date_re (firstn 80 lines)) as [raw|] eqn:E1.
  - intros H. exact (G _ _ _ E1 eq_refl eq_refl H).
  - destruct (first_group1 date_re2 (firstn 50 lines)) as [raw|] eqn:E2; [|discriminate].
    intros H. exact (G _ _ _ E2 eq_refl eq_refl H).
Qed.

Lemma findDate_result_shape_witness :
  exists mm dd yyyy,
    forallb isDigit mm = true /\ 1 <= length mm <= 2
    /\ forallb isDigit dd = true /\ 1 <= length dd <= 2
    /\ forallb isDigit yyyy = true /\ 2 <= length yyyy <= 4
    /\ lit "07/04/1976"
       = padStart0 2 mm ++ lit "/" ++ padStart0 2 dd ++ lit "/" ++ yearText yyyy
    /\ (length yyyy <> 3 -> isCanonicalDate (lit "07/04/1976") = true).
Proof.
  apply (@findDate_result_shape [lit "Terms: Net 30"; lit "Due 7-4-76"] (lit "07/04/1976")).
  vm_compute. reflexivity.
Defined.

(** X6.  The date extractor returns no date exactly when no line among the
    first 80 has a labelled date and no line among the first 50 has a
    date pattern: a matched date is never dropped. *)
Theorem findDate_none_iff (lines : list jsstring) :
  findDate lines = None
  <-> (forall l, In l (firstn 80 lines) -> test date_re l = false)
      /\ (forall l, In l (firstn 50 lines) -> test date_re2 l = false).
Proof.
  assert (N : forall re lines0,
            first_group1 re lines0 = None ->
            forall l, In l lines0 -> test re l = false).
  { intros re lines0 H l Hl. unfold first_group1 in H.
    pose proof (@FieldShapes.first_some_none_inv _ _ _ _ H l Hl) as Hn. simpl in Hn.
    unfold test. destruct (exec re l); [discriminate | reflexivity]. }
  assert (S : forall re lines0 raw,
            first_group1 re lines0 = Some raw ->
            always_captures 1 re = true -> bodies 1 re = [datePattern] ->
            parseDate raw <> None).
  { intros re lines0 raw H Ha Hb.
    apply FieldShapes.first_group1_found in H. destruct H as (l & mr & Hin & E & ->).
    destruct (@FieldShapes.parseDate_of_capture re l mr E Ha Hb)
      as (mm & dd & yyyy & _ & _ & _ & _ & _ & _ & Hp).
    rewrite Hp. discriminate. }
  assert (Z : forall re lines0,
            (forall l, In l lines0 -> test re l = false) ->
            first_group1 re lines0 = None).
  { intros re lines0 H. unfold first_group1. apply ScanFacts.first_some_none.
    intros l Hl. specialize (H l Hl). unfold test in H.
    destruct (exec re l); [discriminate | reflexivity]. }
  unfold findDate. split.
  - destruct (first_group1 date_re (firstn 80 lines)) as [raw|] eqn:E1.
    + intros H. exfalso. exact (S _ _ _ E1 eq_refl eq_refl H).
    + destruct (first_group1 date_re2 (firstn 50 lines)) as [raw|] eqn:E2.
      * intros H. exfalso. exact (S _ _ _ E2 eq_refl eq_refl H).
      * intros _. split; apply N; assumption.
  - intros [H1 H2]. rewrite (Z _ _ H1), (Z _ _ H2). reflexivity.
Qed.

(* ================================================================== *)
(** * Replacements with class runs *)

Module ReplaceFacts.
Import RegexFacts.

(** A greedy repetition of a class takes the whole run of the class when
    what follows the pattern then matches. *)
Lemma rep_class_greedy (p : char -> bool) ma ds :
  (forall prev s pos c k,
     ma prev s pos c k
     = match s with
       | x :: s' => if p x then k (Some x) s' (S pos) c else None
       | [] => None
       end) ->
  forall fuel lo hi prev rest pos c k res,
  forallb p ds = true ->
  match rest with [] => True | x :: _ => p x = false end ->
  lo <= length ds ->
  (forall h, hi = Some h -> length ds <= h) ->
  lo + length (ds ++ rest) < fuel ->
  k (prev_after prev ds) rest (pos + length ds) c = Some res ->
  repeatMatcher ma fuel lo hi prev (ds ++ rest) pos c k = Some res.
Proof.
  intros Hma.
  induction ds as [|d ds' IH]; intros fuel lo hi prev rest pos c k res Hd Hrest Hlo Hhi Hf Hk.
  - simpl in Hlo, Hk, Hf. rewrite Nat.add_0_r in Hk.
    destruct fuel as [|f]; [lia|]. assert (lo = 0) by lia. subst lo.
    cbn [app repeatMatcher].
    assert (Hnone : forall k', ma prev rest pos c k' = None).
    { intros k'. rewrite Hma. destruct rest as [|x rest']; [reflexivity|].
      rewrite Hrest. reflexivity. }
    destruct hi as [[|h]|]; [assumption | |]; cbv zeta; rewrite Hnone; assumption.
  - cbn [forallb] in Hd. apply andb_true_iff in Hd. destruct Hd as [Hd Hds].
    cbn [length] in *. destruct fuel as [|f]; [lia|].
    assert (Hh' : forall h, dec_hi hi = Some h -> length ds' <= h).
    { intros h Hh. destruct hi as [h0|]; [|discriminate].
      simpl in Hh. inversion Hh. specialize (Hhi h0 eq_refl). lia. }
    assert (Hrec : repeatMatcher ma f (Nat.pred lo) (dec_hi hi) (Some d)
                     (ds' ++ rest) (S pos) c k = Some res).
    { apply IH; try assumption.
      - lia.
      - rewrite length_app in *. simpl in Hf. lia.
      - replace (S pos + length ds') with (pos + S (length ds')) by lia. exact Hk. }
    cbn [app repeatMatcher].
    destruct hi as [[|h]|]; [specialize (Hhi 0 eq_refl); lia | |].
    all: cbv zeta; rewrite Hma, Hd;
      replace (Nat.eqb (S pos) pos) with false by (symmetry; apply Nat.eqb_neq; lia);
      rewrite andb_false_r, Hrec; destruct lo; reflexivity.
Qed.

Lemma takeWhile_dropWhile (p : char -> bool) s : s = takeWhile p s ++ dropWhile p s.
Proof.
  induction s as [|x s' IH]; simpl; [reflexivity|].
  destruct (p x); simpl; [f_equal; assumption | reflexivity].
Qed.

Lemma takeWhile_all (p : char -> bool) s : forallb p (takeWhile p s) = true.
Proof.
  induction s as [|x s' IH]; simpl; [reflexivity|].
  destruct (p x) eqn:E; simpl; [rewrite E; assumption | reflexivity].
Qed.

Lemma dropWhile_head (p : char -> bool) s :
  match dropWhile p s with [] => True | x :: _ => p x = false end.
Proof.
  induction s as [|x s' IH]; simpl; [exact I|].
  destruct (p x) eqn:E; [assumption | exact E].
Qed.

(** [p+] at a position: the whole run of the class, which must not be
    empty. *)
Lemma m_plus_class (p : char -> bool) prev s pos c :
  m (plus (RSet p)) prev s pos c accept
  = match takeWhile p s with
    | [] => None
    | _ :: _ => Some (pos + length (takeWhile p s), c)
    end.
Proof.
  destruct (takeWhile p s) as [|x t] eqn:E.
  - unfold plus. cbn [m repeatMatcher].
    destruct s as [|y s']; [reflexivity|].
    simpl in E. destruct (p y); [discriminate | reflexivity].
  - rewrite <- E.
    rewrite (takeWhile_dropWhile p s) at 1.
    change (m (plus (RSet p)) prev (takeWhile p s ++ dropWhile p s) pos c accept)
      with (repeatMatcher (m (RSet p))
              (S (1 + length (takeWhile p s ++ dropWhile p s))) 1 None prev
              (takeWhile p s ++ dropWhile p s) pos c accept).
    apply (@rep_class_greedy p (m (RSet p))); [reflexivity | | | | | |].
    + apply takeWhile_all.
    + apply dropWhile_head.
    + rewrite E. simpl. lia.
    + discriminate.
    + lia.
    + reflexivity.
Qed.

(** Skipping the rest of a match. *)
Lemma replace_loop_skip r repl s : forall prev pos n,
  n <= length s ->
  replace_loop r repl prev s pos n
  = replace_loop r repl (prev_after prev (firstn n s)) (skipn n s) (pos + n) 0.
Proof.
  induction s as [|x s' IH]; intros prev pos n Hn.
  - simpl in Hn. assert (n = 0) by lia. subst n. simpl. rewrite Nat.add_0_r. reflexivity.
  - destruct n as [|n'].
    + simpl. rewrite Nat.add_0_r. reflexivity.
    + cbn [replace_loop firstn skipn]. rewrite IH by (simpl in Hn; lia).
      replace (S pos + n') with (pos + S n') by lia. reflexivity.
Qed.

Lemma replace_loop_nil_none r repl prev pos :
  m r prev [] pos [] accept = None -> replace_loop r repl prev [] pos 0 = [].
Proof. intros H. cbn [replace_loop]. rewrite H. reflexivity. Qed.

(** A pattern that starts with [^] matches nowhere but at offset 0. *)
Lemma replace_loop_bol r repl s : forall x pos,
  replace_loop (RSeq RBol r) repl (Some x) s pos 0 = s.
Proof.
  induction s as [|y s' IH]; intros x pos.
  - reflexivity.
  - rewrite replace_loop_step. cbn [m]. rewrite IH. reflexivity.
Qed.

Lemma skipn_takeWhile (p : char -> bool) s :
  skipn (length (takeWhile p s)) s = dropWhile p s.
Proof.
  induction s as [|x s' IH]; simpl; [reflexivity|].
  destruct (p x); simpl; [assumption | reflexivity].
Qed.

Lemma prev_after_cons prev x t : exists y, prev_after prev (x :: t) = Some y.
Proof.
  unfold prev_after. simpl. generalize x. induction t as [|z t' IH]; intros x0; simpl; eauto.
Qed.

(** [replace(/^\s+/g, "")] removes the leading white space. *)
Lemma replace_leading_space s :
  replace_g (RSeq RBol (plus space)) [] s = trimStart s.
Proof.
  unfold replace_g, trimStart. destruct s as [|x s']; [reflexivity|].
  rewrite replace_loop_step.
  change (m (RSeq RBol (plus space)) None (x :: s') 0 [] accept)
    with (m (plus (RSet isSpace)) None (x :: s') 0 [] accept).
  rewrite m_plus_class.
  destruct (takeWhile isSpace (x :: s')) as [|y t] eqn:E.
  - simpl in E. cbn [dropWhile]. destruct (isSpace x); [discriminate|].
    rewrite replace_loop_bol. reflexivity.
  - rewrite <- E. pose proof E as E'. simpl in E'.
    destruct (isSpace x) eqn:Hx; [|discriminate].
    cbn [takeWhile dropWhile length app]. rewrite Hx. cbn [length Nat.add Nat.eqb Nat.sub].
    rewrite Nat.sub_0_r.
    rewrite replace_loop_skip.
    + destruct (prev_after_cons None x (firstn (length (takeWhile isSpace s')) s')) as [z Hz].
      change (prev_after (Some x) ?l) with (prev_after None (x :: l)).
      rewrite Hz, replace_loop_bol. apply skipn_takeWhile.
    + rewrite (takeWhile_dropWhile isSpace s') at 2. rewrite length_app. lia.
Qed.

(** [\s+$] at a position: the rest of the text, when it is white space
    and not empty. *)
Lemma rep_class_eol (p : char -> bool) ma keol s :
  (forall prev s pos c k,
     ma prev s pos c k
     = match s with
       | x :: s' => if p x then k (Some x) s' (S pos) c else None
       | [] => None
       end) ->
  (forall prev s pos c,
     keol prev s pos c = match s with [] => Some (pos, c) | _ :: _ => None end) ->
  forall fuel lo prev pos c,
  lo + length s < fuel ->
  repeatMatcher ma fuel lo None prev s pos c keol
  = if (forallb p s && Nat.leb lo (length s))%bool then Some (pos + length s, c) else None.
Proof.
  intros Hma Hk.
  induction s as [|x s' IH]; intros fuel lo prev pos c Hf;
    (destruct fuel as [|f]; [lia|]); cbn [repeatMatcher]; cbv zeta;
    rewrite Hma, Hk; cbn [forallb length].
  - rewrite Nat.add_0_r. destruct lo; reflexivity.
  - destruct (p x) eqn:Hx.
    + replace (Nat.eqb (S pos) pos) with false by (symmetry; apply Nat.eqb_neq; lia).
      rewrite andb_false_r, IH by (simpl in Hf; lia).
      replace (S pos + length s') with (pos + S (length s')) by lia.
      cbn [andb]. destruct lo as [|lo']; cbn [Nat.pred Nat.leb].
      * destruct (forallb p s'); reflexivity.
      * reflexivity.
    + destruct lo; reflexivity.
Qed.

Lemma m_trailing_class (p : char -> bool) prev s pos c :
  m (RSeq (plus (RSet p)) REol) prev s pos c accept
  = if (forallb p s && Nat.leb 1 (length s))%bool then Some (pos + length s, c) else None.
Proof.
  change (m (RSeq (plus (RSet p)) REol) prev s pos c accept)
    with (repeatMatcher (m (RSet p)) (S (1 + length s)) 1 None prev s pos c
            (fun prev' s' pos' c' => m REol prev' s' pos' c' accept)).
  apply (@rep_class_eol p); [reflexivity | | lia].
  intros prev' s' pos' c'. destruct s'; reflexivity.
Qed.

Lemma replace_loop_trailing s : forall prev pos,
  replace_loop (RSeq (plus space) REol) [] prev s pos 0 = trimEnd s.
Proof.
  induction s as [|x s' IH]; intros prev pos.
  - reflexivity.
  - rewrite replace_loop_step.
    change (m (RSeq (plus space) REol) prev (x :: s') pos [] accept)
      with (m (RSeq (plus (RSet isSpace)) REol) prev (x :: s') pos [] accept).
    rewrite m_trailing_class, TrimFacts.trimEnd_cons.
    cbn [length Nat.leb]. rewrite andb_true_r.
    destruct (forallb isSpace (x :: s')) eqn:E.
    + replace (Nat.eqb (pos + S (length s')) pos) with false
        by (symmetry; apply Nat.eqb_neq; lia).
      replace (pos + S (length s') - pos - 1) with (length s') by lia.
      rewrite replace_loop_skip by lia.
      rewrite skipn_all. apply replace_loop_nil_none. reflexivity.
    + rewrite IH. reflexivity.
Qed.

(** [replace(/\s+$/g, "")] removes the trailing white space. *)
Lemma replace_trailing_space s :
  replace_g (RSeq (plus space) REol) [] s = trimEnd s.
Proof. apply replace_loop_trailing. Qed.

End ReplaceFacts.

(* ================================================================== *)
(** * The text normalizer *)

Module CleanFacts.
Import TrimFacts.

(** Trimming the end first or the start first gives the same text. *)
Lemma trim_comm s : trimStart (trimEnd s) = trim s.
Proof.
  unfold trim. induction s as [|c s' IH]; [reflexivity|].
  rewrite trimEnd_cons. destruct (forallb isSpace (c :: s')) eqn:E.
  - unfold trimStart at 2. rewrite dropWhile_all by assumption. reflexivity.
  - unfold trimStart at 1 2. cbn [dropWhile]. destruct (isSpace c) eqn:Hc.
    + exact IH.
    + rewrite trimEnd_cons, E. reflexivity.
Qed.

Lemma flat_map_map_units (f : char -> char) (g : char -> jsstring) l :
  (forall x, g x = [f x]) -> flat_map g l = map f l.
Proof.
  intros H. induction l as [|x l' IH]; simpl; [reflexivity|].
  rewrite H, IH. reflexivity.
Qed.

Lemma flat_map_filter_units (p : char -> bool) (g : char -> jsstring) l :
  (forall x, g x = if p x then [x] else []) -> flat_map g l = filter p l.
Proof.
  intros H. induction l as [|x l' IH]; simpl; [reflexivity|].
  rewrite H, IH. destruct (p x); reflexivity.
Qed.

Lemma split_on_pieces sep s piece c :
  In piece (split_on sep s) -> In c piece -> c <> sep /\ In c s.
Proof.
  revert piece. induction s as [|x s' IH]; intros piece Hp Hc.
  - simpl in Hp. destruct Hp as [<- | []]. contradiction.
  - cbn [split_on] in Hp. destruct (N.eqb x sep) eqn:E.
    + destruct Hp as [<- | Hp]; [contradiction|].
      destruct (IH piece Hp Hc). split; [assumption | right; assumption].
    + destruct (split_on sep s') as [|f fs] eqn:Es.
      * destruct Hp as [<- | []]. destruct Hc as [<- | []].
        split; [apply N.eqb_neq; assumption | left; reflexivity].
      * destruct Hp as [<- | Hp].
        -- destruct Hc as [<- | Hc].
           ++ split; [apply N.eqb_neq; assumption | left; reflexivity].
           ++ destruct (IH f (or_introl eq_refl) Hc). split; [assumption | right; assumption].
        -- destruct (IH piece (or_intror Hp) Hc). split; [assumption | right; assumption].
Qed.

End CleanFacts.

(** X1.  The normalizer without its regular expressions: carriage returns are
    dropped, the text is cut at line feeds, and each piece has its
    non-breaking spaces turned into spaces and is trimmed; the pieces that
    are then empty are dropped. *)
Theorem cleanLines_direct (text : jsstring) :
  cleanLines text
  = filter (fun l => Nat.ltb 0 (length l))
      (map (fun l => trim (map nbspToSpace l))
           (split_on 10%N (filter (fun c => negb (N.eqb c 13)) text))).
Proof.
  unfold cleanLines. f_equal.
  assert (E13 : replace_g (one 13%N) [] text
                = filter (fun c => negb (N.eqb c 13)) text).
  { rewrite RegexFacts.replace_g_one. apply CleanFacts.flat_map_filter_units.
    intros x. rewrite N.eqb_sym. destruct (N.eqb x 13); reflexivity. }
  rewrite E13. apply map_ext. intros l.
  rewrite ReplaceFacts.replace_leading_space, ReplaceFacts.replace_trailing_space.
  rewrite CleanFacts.trim_comm. f_equal.
  rewrite RegexFacts.replace_g_one. apply CleanFacts.flat_map_map_units.
  intros x. unfold nbspToSpace. rewrite N.eqb_sym. destruct (N.eqb x 160); reflexivity.
Qed.

(** X2.  Every line the normalizer produces is non-empty, has no white space
    at either end, and contains no non-breaking space, carriage return or
    line feed. *)
Theorem cleanLines_lines (text l : jsstring) :
  In l (cleanLines text) ->
  l <> [] /\ trim l = l
  /\ ~ In 160%N l /\ ~ In 13%N l /\ ~ In 10%N l.
Proof.
  rewrite cleanLines_direct. intros H. apply filter_In in H. destruct H as [H Hlen].
  apply in_map_iff in H. destruct H as (piece & <- & Hpiece).
  assert (Hunits : forall c, In c (trim (map nbspToSpace piece)) ->
                             c <> 160%N /\ c <> 13%N /\ c <> 10%N).
  { intros c Hc. apply TrimFacts.trim_incl in Hc. apply in_map_iff in Hc.
    destruct Hc as (c0 & <- & Hc0).
    destruct (@CleanFacts.split_on_pieces _ _ _ _ Hpiece Hc0) as [H10 Htext].
    apply filter_In in Htext. destruct Htext as [_ H13].
    apply negb_true_iff, N.eqb_neq in H13.
    unfold nbspToSpace. destruct (N.eqb c0 160) eqn:E.
    - repeat split; discriminate.
    - apply N.eqb_neq in E. auto. }
  split; [|split; [|split; [|split]]].
  - intros E. rewrite E in Hlen. discriminate.
  - apply TrimFacts.trim_idem.
  - intros Hin. destruct (Hunits _ Hin) as (Hc & _). congruence.
  - intros Hin. destruct (Hunits _ Hin) as (_ & Hc & _). congruence.
  - intros Hin. destruct (Hunits _ Hin) as (_ & _ & Hc). congruence.
Qed.

Lemma cleanLines_lines_witness :
  lit "Bill To: Acme" <> [] /\ trim (lit "Bill To: Acme") = lit "Bill To: Acme"
  /\ ~ In 160%N (lit "Bill To: Acme") /\ ~ In 13%N (lit "Bill To: Acme")
  /\ ~ In 10%N (lit "Bill To: Acme").
Proof.
  apply (@cleanLines_lines
           ([32; 13; 10; 9]%N ++ lit "Bill To:" ++ [160%N] ++ lit "Acme  " ++ [13; 10]%N)
           (lit "Bill To: Acme")).
  vm_compute. left. reflexivity.
Defined.

(* ================================================================== *)
(** * The download name *)

Module NameFacts.
Import ReplaceFacts RegexFacts.

Lemma takeWhile_cons (p : char -> bool) x s :
  takeWhile p (x :: s) = if p x then x :: takeWhile p s else [].
Proof. reflexivity. Qed.

(** Replacing the runs of a class leaves units outside the class and
    units of the replacement text. *)
Lemma replace_runs_units (p : char -> bool) repl s : forall prev pos skip c,
  In c (replace_loop (plus (RSet p)) repl prev s pos skip) ->
  p c = false \/ In c repl.
Proof.
  induction s as [|x s' IH]; intros prev pos skip c H.
  - destruct skip; [|contradiction].
    cbn [replace_loop] in H. rewrite m_plus_class in H. contradiction.
  - destruct skip as [|n]; [|exact (IH _ _ _ _ H)].
    rewrite replace_loop_step, m_plus_class, takeWhile_cons in H.
    destruct (p x) eqn:Hx.
    + apply in_app_or in H. destruct H as [H | H]; [right; assumption|].
      replace (Nat.eqb (pos + length (x :: takeWhile p s')) pos) with false in H
        by (symmetry; apply Nat.eqb_neq; simpl; lia).
      exact (IH _ _ _ _ H).
    + destruct H as [<- | H]; [left; assumption | exact (IH _ _ _ _ H)].
Qed.

Lemma join_units sep l c :
  In c (join sep l) -> In c sep \/ exists x, In x l /\ In c x.
Proof.
  induction l as [|x l' IH]; [contradiction|].
  destruct l' as [|y l''].
  - simpl. intros H. right. exists x. auto.
  - change (join sep (x :: y :: l'')) with (x ++ sep ++ join sep (y :: l'')).
    intros H. apply in_app_or in H. destruct H as [H | H].
    + right. exists x. split; [left; reflexivity | assumption].
    + apply in_app_or in H. destruct H as [H | H]; [left; assumption|].
      destruct (IH H) as [Hs | (z & Hz & Hc)]; [left; assumption|].
      right. exists z. split; [right; assumption | assumption].
Qed.

Lemma safe_units s c : In c (Handler.safe s) -> safeChar c = true.
Proof.
  unfold Handler.safe, replace_g. intros H.
  apply replace_runs_units in H. destruct H as [H | H].
  - apply negb_false_iff in H. unfold safeChar. rewrite H. reflexivity.
  - destruct H as [<- | []]. reflexivity.
Qed.

End NameFacts.

(** X15.  The download name is a non-empty stem followed by [_extract.zip], and
    has only letters, digits, periods, hyphens and underscores, whatever
    texts were extracted. *)
Theorem zipName_safe (customer rep invoice : option jsstring) :
  (exists stem, stem <> []
      /\ Handler.zipName customer rep invoice = stem ++ lit "_extract.zip")
  /\ forallb safeChar (Handler.zipName customer rep invoice) = true.
Proof.
  unfold Handler.zipName.
  set (parts := filter (fun p => Nat.ltb 0 (length p))
                       [Handler.safe customer; Handler.safe rep; Handler.safe invoice]).
  assert (Hparts : forall x, In x parts -> x <> [] /\ forallb safeChar x = true).
  { intros x Hx. apply filter_In in Hx. destruct Hx as [Hx Hlen]. split.
    - intros E. rewrite E in Hlen. discriminate.
    - apply forallb_forall. intros c Hc.
      destruct Hx as [<- | [<- | [<- | []]]]; eapply NameFacts.safe_units; eassumption. }
  destruct parts as [|p0 ps] eqn:E.
  - split; [exists (lit "invoice"); split; [discriminate | reflexivity] | reflexivity].
  - split.
    + exists (join (lit "_") (p0 :: ps)). split; [|reflexivity].
      destruct (Hparts p0 (or_introl eq_refl)) as [Hne _].
      destruct p0; [congruence|]. destruct ps; discriminate.
    + rewrite forallb_app. apply andb_true_iff. split; [|reflexivity].
      apply forallb_forall. intros c Hc.
      apply NameFacts.join_units in Hc. destruct Hc as [Hc | (x & Hx & Hc)].
      * destruct Hc as [<- | []]. reflexivity.
      * destruct (Hparts x Hx) as [_ F]. rewrite forallb_forall in F. auto.
Qed.

(* ================================================================== *)
(** * More on the CSV encoder *)

(** X14.  Reading the line-items CSV back gives the column names and, for each
    item in order, its five cells. *)
Theorem linesCsv_round_trip (numToString : num -> jsstring) (items : list item) :
  CsvReader.readCsv (linesCsv numToString items) = linesCsvRows numToString items
  /\ length (CsvReader.readCsv (linesCsv numToString items)) = S (length items).
Proof.
  assert (E : CsvReader.readCsv (linesCsv numToString items)
              = linesCsvRows numToString items).
  { unfold linesCsv. apply CsvFacts.read_csvOfRows; [discriminate|].
    unfold linesCsvRows. constructor; [discriminate|].
    apply Forall_forall. intros r Hr. apply in_map_iff in Hr.
    destruct Hr as (it & <- & _). discriminate. }
  split; [exact E|].
  rewrite E. unfold linesCsvRows. cbn [length]. rewrite length_map. reflexivity.
Qed.

(** X13.  Two texts with the same encoding are the same text. *)
Theorem escapeCsv_injective (a b : jsstring) :
  escapeCsv (Some a) = escapeCsv (Some b) -> a = b.
Proof.
  intros H.
  assert (R : forall f, CsvReader.read CsvReader.Start (escapeCsv (Some f)) = [[f]]).
  { intros f. rewrite <- (app_nil_r (escapeCsv (Some f))).
    rewrite CsvFacts.read_escaped_field by exact I.
    cbn [CsvReader.read]. rewrite CsvFacts.add_chars_front, app_nil_r. reflexivity. }
  pose proof (R a) as Ra. rewrite H, R in Ra. inversion Ra. reflexivity.
Qed.

Lemma escapeCsv_injective_witness : lit "a,b" = lit "a,b".
Proof.
  apply (@escapeCsv_injective (lit "a,b") (lit "a,b")). reflexivity.
Defined.

(* ================================================================== *)
(** * More on the table locator and the row parser *)

Module TableFacts.

Lemma findTableStart_from_cases lines : forall i,
  (findTableStart_from lines i = (-1)%Z
   /\ forall l, In l lines -> isTableHeader l = false)
  \/ exists pre l rest,
       lines = pre ++ l :: rest
       /\ isTableHeader l = true
       /\ (forall x, In x pre -> isTableHeader x = false)
       /\ findTableStart_from lines i = (i + Z.of_nat (length pre))%Z.
Proof.
  induction lines as [|x lines' IH]; intros i.
  - left. split; [reflexivity | contradiction].
  - cbn [findTableStart_from]. destruct (isTableHeader x) eqn:E.
    + right. exists [], x, lines'. simpl. repeat split; try assumption; try lia.
    + destruct (IH (i + 1)%Z) as [[H1 H2] | (pre & l & rest & -> & Hl & Hpre & Hi)].
      * left. split; [assumption|]. intros l [<- | Hl]; auto.
      * right. exists (x :: pre), l, rest. simpl. repeat split; try assumption.
        -- intros y [<- | Hy]; auto.
        -- rewrite Hi. lia.
Qed.

Lemma parseLoop_length rest : forall out,
  length (parseLoop out rest) <= length out + length rest.
Proof.
  induction rest as [|raw rest' IH]; intros out; simpl; [lia|].
  destruct (step out raw) as [out'|] eqn:E; [|lia].
  specialize (IH out').
  destruct (ItemFacts.step_shape_of _ _ E) as [ | it | pre last Heq].
  - lia.
  - rewrite length_app in IH. simpl in IH. lia.
  - apply (f_equal (@length item)) in Heq.
    rewrite !length_app in *. simpl in *. lia.
Qed.

End TableFacts.

(** X9.  The locator returns -1 when no line is a table header, and otherwise
    the index of the first header line: its result is always at least -1
    and less than the number of lines. *)
Theorem findTableStart_first_header (lines : list jsstring) :
  ((findTableStart lines = (-1)%Z
    /\ forall l, In l lines -> isTableHeader l = false)
   \/ exists pre l rest,
        lines = pre ++ l :: rest
        /\ isTableHeader l = true
        /\ (forall x, In x pre -> isTableHeader x = false)
        /\ findTableStart lines = Z.of_nat (length pre))
  /\ (-1 <= findTableStart lines < Z.of_nat (length lines))%Z.
Proof.
  assert (C := TableFacts.findTableStart_from_cases lines 0%Z).
  fold (findTableStart lines) in C. split.
  - destruct C as [C | (pre & l & rest & E & Hl & Hpre & Hi)]; [left; assumption | right].
    exists pre, l, rest. repeat split; try assumption; try (rewrite Hi; lia).
  - destruct C as [[C _] | (pre & l & rest & E & Hl & Hpre & Hi)].
    + rewrite C. lia.
    + rewrite Hi, E, length_app. simpl. lia.
Qed.

(** X10.  The items come from the lines after the first header line alone: the
    lines before it, and the header line itself, change nothing. *)
Theorem items_independent_of_preamble (pre : list jsstring) (l : jsstring) (rest : list jsstring) :
  (forall x, In x pre -> isTableHeader x = false) ->
  isTableHeader l = true ->
  parseLines (pre ++ l :: rest) (findTableStart (pre ++ l :: rest))
  = parseLines (tableHeaderLine :: rest) 0.
Proof.
  intros Hpre Hl. unfold findTableStart.
  rewrite ParserFacts.findTableStart_from_first by assumption.
  unfold parseLines.
  replace (0 + Z.of_nat (length pre) <? 0)%Z with false by (symmetry; apply Z.ltb_ge; lia).
  replace (Z.to_nat (0 + Z.of_nat (length pre) + 1)) with (length pre + 1) by lia.
  rewrite skipn_app, skipn_all2 by lia.
  replace (length pre + 1 - length pre) with 1 by lia. reflexivity.
Qed.

Lemma items_independent_of_preamble_witness :
  parseLines ([lit "Acme"; lit "Invoice 7"] ++ lit "Activity Description Qty Price Total" :: [labourLine])
    (findTableStart ([lit "Acme"; lit "Invoice 7"] ++ lit "Activity Description Qty Price Total" :: [labourLine]))
  = parseLines (tableHeaderLine :: [labourLine]) 0.
Proof.
  apply (@items_independent_of_preamble [lit "Acme"; lit "Invoice 7"]
           (lit "Activity Description Qty Price Total") [labourLine]).
  - intros x [<- | [<- | []]]; vm_compute; reflexivity.
  - vm_compute. reflexivity.
Defined.

(** X11.  There is at most one item per line after the header; with the header
    on the last line, past the end or absent, there is none. *)
Theorem items_at_most_lines_after_header (lines : list jsstring) (headerIdx : Z) :
  length (parseLines lines headerIdx) <= length lines - Z.to_nat (headerIdx + 1)
  /\ ((headerIdx < 0)%Z \/ (Z.of_nat (length lines) <= headerIdx + 1)%Z ->
      parseLines lines headerIdx = []).
Proof.
  assert (B : length (parseLines lines headerIdx) <= length lines - Z.to_nat (headerIdx + 1)).
  { unfold parseLines. destruct (headerIdx <? 0)%Z; [simpl; lia|].
    pose proof (TableFacts.parseLoop_length (skipn (Z.to_nat (headerIdx + 1)) lines) []) as H.
    rewrite length_skipn in H. simpl in H. exact H. }
  split; [exact B|].
  intros [H | H].
  - unfold parseLines. apply Z.ltb_lt in H. rewrite H. reflexivity.
  - destruct (parseLines lines headerIdx); [reflexivity|]. simpl in B. lia.
Qed.

Lemma items_at_most_lines_after_header_witness :
  parseLines [lit "Acme"; tableHeaderLine] 1 = [].
Proof.
  apply (proj2 (items_at_most_lines_after_header [lit "Acme"; tableHeaderLine] 1)).
  right. simpl. lia.
Defined.

(* ================================================================== *)
(** * The numbers of a row *)

Module NumberFacts.
Import RegexSound ClassFacts.

Lemma takeWhile_app_stop (p : char -> bool) a b :
  forallb p a = true ->
  match b with [] => True | x :: _ => p x = false end ->
  takeWhile p (a ++ b) = a.
Proof.
  intros Ha Hb. induction a as [|x a' IH]; simpl.
  - destruct b as [|y b']; [reflexivity|]. simpl. rewrite Hb. reflexivity.
  - simpl in Ha. apply andb_true_iff in Ha. destruct Ha as [Hx Ha].
    rewrite Hx, IH by assumption. reflexivity.
Qed.

Lemma skipn_length_app {A : Type} (a b : list A) : skipn (length a) (a ++ b) = b.
Proof. rewrite skipn_app, skipn_all, Nat.sub_diag. reflexivity. Qed.

Lemma unsignedDecimal_some ds fr :
  ds <> [] -> forallb isDigit ds = true -> fraction fr ->
  exists q, unsignedDecimal (ds ++ fr) = Some q.
Proof.
  intros Hne Hd Hfr. unfold unsignedDecimal. cbv zeta.
  assert (Hstop : match fr with [] => True | x :: _ => isDigit x = false end).
  { destruct Hfr as [-> | (fs & -> & _ & _)]; [exact I | reflexivity]. }
  rewrite takeWhile_app_stop by assumption. rewrite skipn_length_app.
  destruct Hfr as [-> | (fs & -> & Hfs & Hdig)].
  - destruct ds; [congruence | eauto].
  - rewrite N.eqb_refl, Hdig. cbn [andb].
    match goal with
    | |- context [negb ?b] =>
        assert (Hb : b = false)
          by (apply Nat.eqb_neq; destruct ds; [congruence | simpl; lia]);
        rewrite Hb
    end.
    cbn [negb]. eauto.
Qed.

Lemma digits_no_space ds fr :
  forallb isDigit ds = true -> fraction fr ->
  forallb (fun c => negb (isSpace c)) (ds ++ fr) = true.
Proof.
  intros Hd Hfr. rewrite forallb_app. apply andb_true_iff. split.
  - apply (@class_no_space isDigit); [|assumption].
    intros c Hc. apply isDigit_range in Hc. lia.
  - destruct Hfr as [-> | (fs & -> & _ & Hdig)]; [reflexivity|].
    cbn [forallb]. apply andb_true_iff. split; [reflexivity|].
    apply (@class_no_space isDigit); [|assumption].
    intros c Hc. apply isDigit_range in Hc. lia.
Qed.

(** A decimal literal, with or without a minus sign, is a number. *)
Lemma Number_decimal (neg : bool) ds fr :
  ds <> [] -> forallb isDigit ds = true -> fraction fr ->
  exists q, Number ((if neg then [45%N] else []) ++ ds ++ fr) = Fin q.
Proof.
  intros Hne Hd Hfr.
  destruct (unsignedDecimal_some Hne Hd Hfr) as [q Hq].
  pose proof (digits_no_space ds Hd Hfr) as Hsp.
  unfold Number. destruct neg.
  - rewrite TrimFacts.trim_fixed by (cbn [app forallb]; rewrite Hsp; reflexivity).
    cbn [app]. rewrite N.eqb_refl, Hq. eauto.
  - cbn [app]. rewrite TrimFacts.trim_fixed by assumption.
    destruct ds as [|d ds']; [congruence|]. cbn [app].
    cbn [forallb] in Hd. apply andb_true_iff in Hd. destruct Hd as [Hd0 Hd'].
    pose proof (isDigit_range _ Hd0) as Hr.
    replace (N.eqb d 45) with false by (symmetry; apply N.eqb_neq; lia).
    replace (N.eqb d 43) with false by (symmetry; apply N.eqb_neq; lia).
    change (d :: ds' ++ fr) with ((d :: ds') ++ fr). rewrite Hq. eauto.
Qed.

Lemma den_fraction lo prev w rest pos c c' :
  1 <= lo ->
  den (opt (RSeq (chr ".") (RRep lo (Some lo) digit))) prev w rest pos c c' ->
  fraction w.
Proof.
  intros Hlo H. unfold opt in H. apply den_opt_inv in H.
  destruct H as [[-> _] | H]; [left; reflexivity | right].
  unfold chr, digit in H. inversion H; subst.
  match goal with
  | Hdot : den (RSet _) _ _ _ _ _ _, Hds : den (RRep _ _ _) _ _ _ _ _ _ |- _ =>
      inversion Hdot; subst;
      apply den_class_run in Hds; [|intros h Hh; inversion Hh; lia];
      destruct Hds as (F & _ & L & _)
  end.
  match goal with Hx : is_chr "." _ = true |- _ => bools; subst end.
  eexists. split; [reflexivity|]. split; [|assumption].
  intros E. rewrite E in L. simpl in L. lia.
Qed.

Lemma den_fraction_plus prev w rest pos c c' :
  den (opt (RSeq (chr ".") (plus digit))) prev w rest pos c c' ->
  fraction w.
Proof.
  intros H. unfold opt in H. apply den_opt_inv in H.
  destruct H as [[-> _] | H]; [left; reflexivity | right].
  unfold chr, plus, digit in H. inversion H; subst.
  match goal with
  | Hdot : den (RSet _) _ _ _ _ _ _, Hds : den (RRep _ _ _) _ _ _ _ _ _ |- _ =>
      inversion Hdot; subst;
      apply den_class_run in Hds; [|discriminate];
      destruct Hds as (F & _ & L & _)
  end.
  match goal with Hx : is_chr "." _ = true |- _ => bools; subst end.
  eexists. split; [reflexivity|]. split; [|assumption].
  intros E. rewrite E in L. simpl in L. lia.
Qed.

(** The text of a quantity is a number. *)
Lemma qty_text_number prev w rest pos c c' :
  den QTY_RE prev w rest pos c c' -> exists q, Number w = Fin q.
Proof.
  intros H. unfold QTY_RE in H. inversion H; subst.
  match goal with
  | Hds : den (plus digit) _ _ _ _ _ _, Hfr : den (opt _) _ _ _ _ _ _ |- _ =>
      unfold plus, digit in Hds;
      apply den_class_run in Hds; [|discriminate];
      destruct Hds as (F & _ & L & _);
      apply den_fraction_plus in Hfr
  end.
  apply (@Number_decimal false); try assumption.
  intros E. rewrite E in L. simpl in L. lia.
Qed.

Lemma den_rep_forallb (q : char -> bool) r0 :
  (forall prev w rest pos c c', den r0 prev w rest pos c c' -> forallb q w = true) ->
  forall r prev w rest pos c c',
    den r prev w rest pos c c' ->
    forall lo hi, r = RRep lo hi r0 -> forallb q w = true.
Proof.
  intros Hr0. induction 1; intros lo0 hi0 E; inversion E; subst.
  - reflexivity.
  - rewrite forallb_app. apply andb_true_iff. split.
    + eapply Hr0. eassumption.
    + eapply IHden2. reflexivity.
Qed.

(** Replacing every unit of a class. *)
Lemma replace_loop_set (p : char -> bool) repl s : forall prev pos,
  replace_loop (RSet p) repl prev s pos 0
  = flat_map (fun x => if p x then repl else [x]) s.
Proof.
  induction s as [|x s' IH]; intros prev pos.
  - reflexivity.
  - rewrite RegexFacts.replace_loop_step. cbn [m flat_map]. unfold accept.
    destruct (p x).
    + replace (Nat.eqb (S pos) pos) with false by (symmetry; apply Nat.eqb_neq; lia).
      replace (S pos - pos - 1) with 0 by lia.
      rewrite IH. reflexivity.
    + rewrite IH. reflexivity.
Qed.

Lemma replace_g_delete (p : char -> bool) s :
  replace_g (RSet p) [] s = filter (fun c => negb (p c)) s.
Proof.
  unfold replace_g. rewrite replace_loop_set.
  induction s as [|x s' IH]; simpl; [reflexivity|].
  rewrite IH. destruct (p x); reflexivity.
Qed.

(** [unmoney] without its regular expressions. *)
Lemma unmoney_strip w :
  unmoney w = match trim (strip w) with [] => None | v => Some (Number v) end.
Proof.
  unfold unmoney, strip, chr. rewrite !replace_g_delete.
  destruct (trim _); reflexivity.
Qed.

Lemma strip_app a b : strip (a ++ b) = strip a ++ strip b.
Proof. unfold strip. rewrite !filter_app. reflexivity. Qed.

Lemma strip_digits ds : forallb isDigit ds = true -> strip ds = ds.
Proof.
  intros H. induction ds as [|d ds' IH]; [reflexivity|].
  cbn [forallb] in H. apply andb_true_iff in H. destruct H as [Hd H].
  change (d :: ds') with ([d] ++ ds'). rewrite strip_app, IH by assumption.
  f_equal. pose proof (isDigit_range _ Hd) as Hr. unfold strip. cbn [filter].
  assert (E1 : is_chr "$" d = false).
  { destruct (is_chr "$" d) eqn:E; [|reflexivity]. bools. subst. lia. }
  rewrite E1. cbn [negb filter].
  assert (E2 : is_chr "," d = false).
  { destruct (is_chr "," d) eqn:E; [|reflexivity]. bools. subst. lia. }
  rewrite E2. reflexivity.
Qed.

Lemma strip_fraction fr : fraction fr -> strip fr = fr.
Proof.
  intros [-> | (fs & -> & _ & H)]; [reflexivity|].
  change (46%N :: fs) with ([46%N] ++ fs). rewrite strip_app.
  rewrite (strip_digits fs H). reflexivity.
Qed.

(** Stripping the digits and commas of a money text leaves its digits. *)
Lemma strip_body body :
  forallb moneyUnit body = true ->
  forallb isDigit (strip body) = true
  /\ forall d t, body = d :: t -> isDigit d = true -> strip body <> [].
Proof.
  intros H. induction body as [|x t IH]; [split; [reflexivity | discriminate]|].
  cbn [forallb] in H. apply andb_true_iff in H. destruct H as [Hx Ht].
  destruct (IH Ht) as [IH1 _].
  change (x :: t) with ([x] ++ t). rewrite strip_app.
  unfold moneyUnit in Hx. apply orb_true_iff in Hx. destruct Hx as [Hx | Hx].
  - rewrite (@strip_digits [x]) by (cbn [forallb]; rewrite Hx; reflexivity).
    split; [cbn [app forallb]; rewrite Hx; assumption | discriminate].
  - apply N.eqb_eq in Hx. subst x. split; [exact IH1|].
    intros d t' E Hd. inversion E; subst. discriminate Hd.
Qed.

Lemma den_seq_inv r1 r2 prev w rest pos c c' :
  den (RSeq r1 r2) prev w rest pos c c' ->
  exists w1 w2 c1,
    w = w1 ++ w2
    /\ den r1 prev w1 (w2 ++ rest) pos c c1
    /\ den r2 (prev_after prev w1) w2 rest (pos + length w1) c1 c'.
Proof. intros H. inversion H; subst. eauto 6. Qed.

Lemma den_alt_inv r1 r2 prev w rest pos c c' :
  den (RAlt r1 r2) prev w rest pos c c' ->
  den r1 prev w rest pos c c' \/ den r2 prev w rest pos c c'.
Proof. intros H. inversion H; subst; auto. Qed.

Lemma den_sign prev w rest pos c c' :
  den (opt (chr "-")) prev w rest pos c c' ->
  exists neg : bool, w = if neg then [45%N] else [].
Proof.
  intros H. unfold opt, chr in H. apply den_opt_inv in H.
  destruct H as [[-> _] | H]; [exists false; reflexivity|].
  inversion H; subst. bools. subst. exists true. reflexivity.
Qed.

Lemma den_dollar prev w rest pos c c' :
  den (opt (chr "$")) prev w rest pos c c' -> w = [] \/ w = [36%N].
Proof.
  intros H. unfold opt, chr in H. apply den_opt_inv in H.
  destruct H as [[-> _] | H]; [left; reflexivity|].
  inversion H; subst. bools. subst. right. reflexivity.
Qed.

Lemma digits_moneyUnit w : forallb isDigit w = true -> forallb moneyUnit w = true.
Proof.
  intros H. rewrite forallb_forall in *. intros x Hx. unfold moneyUnit.
  rewrite (H x Hx). reflexivity.
Qed.

Lemma digits_head w :
  forallb isDigit w = true -> 1 <= length w ->
  exists d t, w = d :: t /\ isDigit d = true.
Proof.
  destruct w as [|d t]; intros H L; [simpl in L; lia|].
  simpl in H. apply andb_true_iff in H. destruct H. eauto.
Qed.

(** A comma and three digits, any number of times. *)
Lemma den_thousands prev w rest pos c c' :
  den (star (RSeq (chr ",") (times 3 3 digit))) prev w rest pos c c' ->
  forallb moneyUnit w = true.
Proof.
  intros Hg. unfold star in Hg.
  eapply (@den_rep_forallb moneyUnit); [|exact Hg | reflexivity].
  intros p1 w0 r0 n0 c9 c10 Hgrp.
  apply den_seq_inv in Hgrp. destruct Hgrp as (w1 & w2 & c1 & -> & Hc & Hn).
  unfold chr in Hc. inversion Hc; subst.
  unfold times, digit in Hn.
  apply den_class_run in Hn; [|intros h Hh; inversion Hh; lia].
  destruct Hn as (Fn & _).
  bools. subst. cbn [app forallb]. apply digits_moneyUnit. assumption.
Qed.

(** The shape of a text that the money pattern matches. *)
Lemma money_text_shape prev w rest pos c c' :
  den MONEY_RE prev w rest pos c c' ->
  exists (neg : bool) dl body fr,
    w = (if neg then [45%N] else []) ++ dl ++ body ++ fr
    /\ (dl = [] \/ dl = [36%N])
    /\ forallb moneyUnit body = true
    /\ (exists d t, body = d :: t /\ isDigit d = true)
    /\ fraction fr.
Proof.
  intros H. unfold MONEY_RE in H. apply den_alt_inv in H. cbn [seqs] in H.
  destruct H as [H | H].
  - apply den_seq_inv in H. destruct H as (w1 & x1 & c1 & -> & Hs & H).
    apply den_seq_inv in H. destruct H as (w2 & x2 & c2 & -> & Hd & H).
    apply den_seq_inv in H. destruct H as (w3 & x3 & c3 & -> & H3 & H).
    apply den_seq_inv in H. destruct H as (w4 & w5 & c4 & -> & Hg & Hf).
    apply den_sign in Hs. destruct Hs as [neg ->]. apply den_dollar in Hd.
    unfold times, digit in H3. apply den_class_run in H3; [|intros h Hh; inversion Hh; lia].
    destruct H3 as (F3 & _ & L3 & _).
    apply den_thousands in Hg.
    unfold times in Hf. apply (@den_fraction 2) in Hf; [|lia].
    exists neg, w2, (w3 ++ w4), w5. rewrite <- !app_assoc.
    split; [reflexivity|]. split; [assumption|]. split.
    + rewrite forallb_app, (digits_moneyUnit _ F3), Hg. reflexivity.
    + split; [|assumption].
      destruct (digits_head _ F3 L3) as (d & t & -> & Hd0). exists d, (t ++ w4). auto.
  - apply den_seq_inv in H. destruct H as (w1 & x1 & c1 & -> & Hs & H).
    apply den_seq_inv in H. destruct H as (w2 & x2 & c2 & -> & Hd & H).
    apply den_seq_inv in H. destruct H as (w3 & w5 & c3 & -> & H3 & Hf).
    apply den_sign in Hs. destruct Hs as [neg ->]. apply den_dollar in Hd.
    unfold plus, digit in H3. apply den_class_run in H3; [|discriminate].
    destruct H3 as (F3 & _ & L3 & _).
    unfold times in Hf. apply (@den_fraction 2) in Hf; [|lia].
    exists neg, w2, w3, w5.
    split; [reflexivity|]. split; [assumption|]. split; [apply digits_moneyUnit; assumption|].
    split; [apply digits_head; assumption | assumption].
Qed.

Lemma unmoney_of_number w v q :
  strip w = v -> v <> [] ->
  forallb (fun c => negb (isSpace c)) v = true ->
  Number v = Fin q ->
  unmoney w = Some (Fin q).
Proof.
  intros Ev Hne Hsp Hq. rewrite unmoney_strip, Ev.
  rewrite TrimFacts.trim_fixed by assumption.
  destruct v; [congruence|]. rewrite Hq. reflexivity.
Qed.

(** The text of a price is a number: [unmoney] gives neither [null] nor
    NaN for it. *)
Lemma money_text_number prev w rest pos c c' :
  den MONEY_RE prev w rest pos c c' -> exists q, unmoney w = Some (Fin q).
Proof.
  intros H. apply money_text_shape in H.
  destruct H as (neg & dl & body & fr & -> & Hdl & Hbody & (d & t & Eb & Hd) & Hfr).
  destruct (strip_body body Hbody) as [Fd Hne]. specialize (Hne d t Eb Hd).
  destruct (@Number_decimal neg (strip body) fr Hne Fd Hfr) as [q Hq].
  exists q. eapply unmoney_of_number; [| | |exact Hq].
  - rewrite !strip_app, (strip_fraction Hfr).
    f_equal; [destruct neg; reflexivity|].
    destruct Hdl as [-> | ->]; reflexivity.
  - destruct neg; [discriminate|]. cbn [app]. intros E.
    apply app_eq_nil in E. destruct E. congruence.
  - rewrite forallb_app. apply andb_true_iff. split.
    + destruct neg; reflexivity.
    + apply digits_no_space; assumption.
Qed.

End NumberFacts.

(* ================================================================== *)
(** ** The items of the table *)

Module ItemShape.

Lemma trimmed_ends s c t u d :
  s = c :: t -> s = u ++ [d] -> isSpace c = false -> isSpace d = false ->
  trim s = s.
Proof.
  intros E1 E2 Hc Hd. unfold trim.
  assert (E : trimStart s = s).
  { rewrite E1. unfold trimStart. cbn [dropWhile]. rewrite Hc. reflexivity. }
  rewrite E, E2. apply TrimFacts.trimEnd_fixed. assumption.
Qed.

(** Joining a trimmed description and a trimmed text with one space gives
    a trimmed description. *)
Lemma appendDescription_trimmed it r :
  trim (description it) = description it -> trim r <> [] ->
  trim (description (appendDescription it r)) = description (appendDescription it r).
Proof.
  intros Hd Hr. unfold appendDescription. cbn [description].
  destruct (TrimFacts.trim_ends r) as [E | [_ (u & x & Eu & Hx)]]; [congruence|].
  destruct (description it) as [|c t].
  - cbn [app]. apply TrimFacts.trim_idem.
  - destruct (TrimFacts.trim_ends (c :: t)) as [E | [(c0 & t0 & E0 & Hc0) _]];
      rewrite Hd in *; [discriminate|].
    inversion E0; subst c0 t0.
    eapply (@trimmed_ends _ c ((t ++ lit " ") ++ trim r) (((c :: t) ++ lit " ") ++ u) x);
      try assumption.
    + reflexivity.
    + rewrite Eu, <- !app_assoc. reflexivity.
Qed.

Lemma trim_class p s : forallb p s = true -> forallb p (trim s) = true.
Proof.
  intros H. rewrite forallb_forall in *. intros x Hx. apply H.
  apply TrimFacts.trim_incl. assumption.
Qed.

(** The token and the rest that [leadToken_re] captures make tidy texts. *)
Lemma lead_texts_tidy l mr q r a :
  exec leadToken_re l = Some mr ->
  texts_tidy (Item (trim (group l mr 1)) (trim (group l mr 2)) q r a).
Proof.
  intros E. split; cbn [activity description].
  - apply trim_class.
    destruct (@FieldShapes.group1_class_run leadToken_re tokenChar l mr E
                eq_refl eq_refl) as (F & _).
    exact F.
  - apply TrimFacts.trim_idem.
Qed.

Lemma tailItem_tidy raw mTail : texts_tidy (tailItem raw mTail).
Proof.
  unfold tailItem.
  destruct (exec leadToken_re _) as [mLeft|] eqn:E.
  - apply lead_texts_tidy. assumption.
  - split; cbn [activity description]; [reflexivity | apply TrimFacts.trim_idem].
Qed.

(** A row with a numeric tail has its three numbers, and none is NaN. *)
Lemma tailItem_numbers raw mTail :
  exec tailRe raw = Some mTail -> numbers_finite (tailItem raw mTail).
Proof.
  intros E.
  assert (B1 : bodies 1 tailRe = [QTY_RE]) by reflexivity.
  assert (B2 : bodies 2 tailRe = [MONEY_RE]) by reflexivity.
  assert (B3 : bodies 3 tailRe = [MONEY_RE]) by reflexivity.
  destruct (@RegexSound.exec_group_set tailRe raw mTail 1 E eq_refl)
    as (g1 & p1 & pre1 & r1 & c1 & c1' & In1 & D1 & _).
  destruct (@RegexSound.exec_group_set tailRe raw mTail 2 E eq_refl)
    as (g2 & p2 & pre2 & r2 & c2 & c2' & In2 & D2 & _).
  destruct (@RegexSound.exec_group_set tailRe raw mTail 3 E eq_refl)
    as (g3 & p3 & pre3 & r3 & c3 & c3' & In3 & D3 & _).
  rewrite B1 in In1. rewrite B2 in In2. rewrite B3 in In3.
  destruct In1 as [<- | []]. destruct In2 as [<- | []]. destruct In3 as [<- | []].
  apply NumberFacts.qty_text_number in D1. destruct D1 as [q Hq].
  apply NumberFacts.money_text_number in D2. destruct D2 as [r Hr].
  apply NumberFacts.money_text_number in D3. destruct D3 as [a Ha].
  exists q, r, a. unfold tailItem.
  destruct (exec leadToken_re _); cbn [qty rate amount]; rewrite Hq, Hr, Ha; auto.
Qed.

Lemma seedItem_shape raw it :
  seedItem raw = Some it -> texts_tidy it /\ numbers_absent it.
Proof.
  unfold seedItem. destruct (exec leadToken_re raw) as [mSeed|] eqn:E; [|discriminate].
  intros H. inversion H; subst. split.
  - apply lead_texts_tidy. assumption.
  - repeat split.
Qed.

Lemma Forall_updateLast (P : item -> Prop) f out :
  (forall x, P x -> P (f x)) -> Forall P out -> Forall P (updateLast f out).
Proof.
  intros Hf. induction 1 as [|x out' Hx Hrest IH]; [constructor|].
  destruct out' as [|y out''].
  - constructor; [apply Hf; assumption | constructor].
  - change (updateLast f (x :: y :: out'')) with (x :: updateLast f (y :: out'')).
    constructor; assumption.
Qed.

Lemma Forall_tl_updateLast (P : item -> Prop) f out :
  (forall x, P x -> P (f x)) -> Forall P (tl out) -> Forall P (tl (updateLast f out)).
Proof.
  intros Hf H. destruct out as [|x [|y out'']]; cbn [tl updateLast] in *.
  - constructor.
  - constructor.
  - change (Forall P (updateLast f (y :: out''))). apply Forall_updateLast; assumption.
Qed.

Lemma well_formed_push out it :
  well_formed out -> texts_tidy it ->
  numbers_finite it \/ (out = [] /\ numbers_absent it) ->
  well_formed (out ++ [it]).
Proof.
  intros (T & N & L) Ht Hn. split; [|split].
  - apply Forall_app. split; [assumption | constructor; [assumption | constructor]].
  - apply Forall_app. split; [assumption|]. constructor; [|constructor].
    destruct Hn as [Hn | [_ Hn]]; auto.
  - destruct out as [|x out']; cbn [app tl] in *; [constructor|].
    apply Forall_app. split; [assumption|].
    destruct Hn as [Hn | [Hn _]]; [|discriminate].
    constructor; [assumption | constructor].
Qed.

Lemma step_well_formed out raw out' :
  step out raw = Some out' -> well_formed out -> well_formed out'.
Proof.
  unfold step. destruct (classify out raw) as [ | |it|it| ] eqn:E;
    intros H W; inversion H; subst; clear H.
  - assumption.
  - unfold classify in E.
    destruct (shouldStopRow raw); [discriminate|].
    destruct (trim raw); [discriminate|].
    destruct (exec tailRe raw) as [mTail|] eqn:Et.
    + inversion E; subst.
      apply well_formed_push;
        [assumption | apply tailItem_tidy | left; apply tailItem_numbers; assumption].
    + destruct (if Nat.eqb (length out) 0 then seedItem raw else None);
        [discriminate|].
      destruct (Nat.ltb 0 (length out)); discriminate.
  - unfold classify in E.
    destruct (shouldStopRow raw); [discriminate|].
    destruct (trim raw); [discriminate|].
    destruct (exec tailRe raw) as [mTail|]; [discriminate|].
    destruct (Nat.eqb (length out) 0) eqn:El.
    + destruct (seedItem raw) as [it0|] eqn:Es.
      * inversion E; subst. apply seedItem_shape in Es. destruct Es as [Ht Hn].
        apply Nat.eqb_eq in El. destruct out; [|discriminate].
        apply well_formed_push; [assumption | assumption | right; auto].
      * destruct (Nat.ltb 0 (length out)); discriminate.
    + destruct (Nat.ltb 0 (length out)); discriminate.
  - assert (Hr : trim raw <> []).
    { unfold classify in E.
      destruct (shouldStopRow raw); [discriminate|].
      destruct (trim raw); [discriminate | discriminate]. }
    destruct W as (T & N & L). split; [|split].
    + apply Forall_updateLast; [|assumption].
      intros x [Ha Hd]. split.
      * exact Ha.
      * apply appendDescription_trimmed; assumption.
    + apply Forall_updateLast; [|assumption]. intros x Hx. exact Hx.
    + apply Forall_tl_updateLast; [|assumption]. intros x Hx. exact Hx.
Qed.

Lemma parseLoop_well_formed rest : forall out,
  well_formed out -> well_formed (parseLoop out rest).
Proof.
  induction rest as [|raw rest' IH]; intros out W; simpl; [assumption|].
  destruct (step out raw) as [out'|] eqn:E; [|assumption].
  apply IH. eapply step_well_formed; eassumption.
Qed.

End ItemShape.

(** X12.  Every item that row parsing returns has a token or nothing as its
    activity and a trimmed description; its quantity, rate and amount are
    all numbers other than NaN or, for the first item only, all absent. *)
Theorem items_well_formed (lines : list jsstring) (headerIdx : Z) :
  Forall texts_tidy (parseLines lines headerIdx)
  /\ Forall (fun it => numbers_finite it \/ numbers_absent it)
            (parseLines lines headerIdx)
  /\ Forall numbers_finite (tl (parseLines lines headerIdx)).
Proof.
  assert (W0 : well_formed []) by (repeat split; constructor).
  unfold parseLines. destruct (headerIdx <? 0)%Z; [exact W0|].
  apply ItemShape.parseLoop_well_formed. exact W0.
Qed.
